(** * Red-black tree engine of ft::map (includes/RBTree.hpp)

    The tree is a pointer graph: every node carries links to its parent and
    to its two children, and one shared sentinel node stands for every
    missing child and for the past-the-end position.  The model keeps that
    representation: node cells live in a finite map from addresses to node
    records, and every member function of [RBTree] is a function on the
    tree object (heap, [_root], [_nil], [_size]).  Loops and the recursive
    rebalancing procedures take a loop budget; [None] means the budget was
    exhausted or a null payload pointer was dereferenced. *)

From stdpp Require Import gmap list sorting.
From Stdlib Require Import ZArith Lia.

Set Default Proof Using "Type".
Open Scope Z_scope.

(** ** Data model *)

Inductive RBColor := RED | BLACK.

#[global] Instance RBColor_eq_dec : EqDecision RBColor.
Proof. solve_decision. Defined.

(** Addresses; [NULL] is the null pointer. *)
Abbreviation ptr := N (only parsing).
Definition NULL : N := 0%N.

(** Modelled from the spec: the node type [RBTreeNode<T>] is declared in
    RBTreeIterator.hpp, which is absent; its fields are the ones RBTree.hpp
    reads and writes (an optional payload, absent only for the sentinel, a
    color tag and the three links). *)
Record RBTreeNode (T : Type) := mkNode {
  value : option T;
  color : RBColor;
  parent : N;
  leftChild : N;
  rightChild : N
}.
Arguments mkNode {T}.
Arguments value {T}.
Arguments color {T}.
Arguments parent {T}.
Arguments leftChild {T}.
Arguments rightChild {T}.

#[global] Instance RBTreeNode_inhabited T : Inhabited (RBTreeNode T) :=
  populate (mkNode None BLACK NULL NULL NULL).

(** The tree object.  [heap] is the store owned by the node allocator. *)
Record RBTree (T : Type) := mkTree {
  heap : gmap N (RBTreeNode T);
  _root : N;
  _nil : N;
  _size : Z
}.
Arguments mkTree {T}.
Arguments heap {T}.
Arguments _root {T}.
Arguments _nil {T}.
Arguments _size {T}.

(** [size_type] is a 64-bit unsigned integer. *)
Definition size_max : Z := 2 ^ 64.
Definition size_incr (n : Z) : Z := (n + 1) mod size_max.
Definition size_decr (n : Z) : Z := (n - 1) mod size_max.

Section Engine.
Context {T : Type}.
(** The comparison object [_comp]. *)
Variable comp : T -> T -> bool.

Implicit Types st : RBTree T.
Implicit Types h : gmap N (RBTreeNode T).

(** [p->field] *)
Definition node_at st (p : N) : RBTreeNode T := heap st !!! p.
Notation "st @ p" := (node_at st p) (at level 20).

(** [p->value != NULL] *)
Definition is_real st (p : N) : bool :=
  match value (st @ p) with Some _ => true | None => false end.

(** Assignments [p->field = x]. *)
Definition upd st (p : N) (f : RBTreeNode T -> RBTreeNode T) : RBTree T :=
  mkTree (alter f p (heap st)) (_root st) (_nil st) (_size st).
Definition set_parent st (p q : N) :=
  upd st p (fun n => mkNode (value n) (color n) q (leftChild n) (rightChild n)).
Definition set_left st (p q : N) :=
  upd st p (fun n => mkNode (value n) (color n) (parent n) q (rightChild n)).
Definition set_right st (p q : N) :=
  upd st p (fun n => mkNode (value n) (color n) (parent n) (leftChild n) q).
Definition set_color st (p : N) (c : RBColor) :=
  upd st p (fun n => mkNode (value n) c (parent n) (leftChild n) (rightChild n)).
Definition set_root st (r : N) := mkTree (heap st) r (_nil st) (_size st).
Definition set_size st (n : Z) := mkTree (heap st) (_root st) (_nil st) n.

(** Allocation and release of one node cell. *)
Definition alloc h : N := fresh ({[NULL]} ∪ dom h).
Definition dealloc st (p : N) : RBTree T :=
  mkTree (delete p (heap st)) (_root st) (_nil st) (_size st).

(** [make_nil] *)
Definition make_nil h : N * gmap N (RBTreeNode T) :=
  let res := alloc h in
  (res, <[res := mkNode None BLACK res res res]> h).

(** Modelled from the spec: the constructor [RBTreeNode(val)] is absent; a
    node is created RED with its payload set, its links are null until
    [insert] sets them. *)
Definition make_node st (val : T) : N * RBTree T :=
  let res := alloc (heap st) in
  (res, mkTree (<[res := mkNode (Some val) RED NULL NULL NULL]> (heap st))
               (_root st) (_nil st) (_size st)).

(** Default constructor. *)
Definition RBTree_new : RBTree T :=
  let '(sentinel, h) := make_nil ∅ in mkTree h sentinel sentinel 0.

(** ** Descents along one side *)

(** [while (tmp->leftChild->value != NULL) tmp = tmp->leftChild;] *)
Fixpoint leftmost (fuel : nat) st (tmp : N) : option N :=
  match fuel with
  | O => None
  | S fuel =>
      if is_real st (leftChild (st @ tmp))
      then leftmost fuel st (leftChild (st @ tmp))
      else Some tmp
  end.

(** [while (tmp->rightChild->value != NULL) tmp = tmp->rightChild;] *)
Fixpoint rightmost (fuel : nat) st (tmp : N) : option N :=
  match fuel with
  | O => None
  | S fuel =>
      if is_real st (rightChild (st @ tmp))
      then rightmost fuel st (rightChild (st @ tmp))
      else Some tmp
  end.

Definition get_begin (fuel : nat) st : option N := leftmost fuel st (_root st).
Definition get_end st : N := _nil st.
Definition get_max_value_node (fuel : nat) st : option N :=
  rightmost fuel st (_root st).

Definition empty st : bool := (_size st =? 0).
Definition size st : Z := _size st.

(** ** Family links *)

Definition get_grandparent st (node : N) : N :=
  if bool_decide (node ≠ NULL) && bool_decide (parent (st @ node) ≠ NULL)
  then parent (st @ (parent (st @ node)))
  else NULL.

Definition get_uncle st (node : N) : N :=
  let grand := get_grandparent st node in
  if bool_decide (grand = NULL) then NULL
  else if bool_decide (leftChild (st @ grand) = parent (st @ node))
       then rightChild (st @ grand)
       else leftChild (st @ grand).

Definition get_sibling st (node : N) : N :=
  if bool_decide (node = leftChild (st @ (parent (st @ node))))
  then rightChild (st @ (parent (st @ node)))
  else leftChild (st @ (parent (st @ node))).

(** ** Rotations *)

Definition rotate_left st (node : N) : RBTree T :=
  let child := rightChild (st @ node) in
  let parent_ := parent (st @ node) in
  let st := if is_real st (leftChild (st @ child))
            then set_parent st (leftChild (st @ child)) node else st in
  let st := set_right st node (leftChild (st @ child)) in
  let st := set_parent st node child in
  let st := set_left st child node in
  let st := set_parent st child parent_ in
  if is_real st parent_ then
    if bool_decide (leftChild (st @ parent_) = node)
    then set_left st parent_ child
    else set_right st parent_ child
  else set_root st child.

Definition rotate_right st (node : N) : RBTree T :=
  let child := leftChild (st @ node) in
  let parent_ := parent (st @ node) in
  let st := if is_real st (rightChild (st @ child))
            then set_parent st (rightChild (st @ child)) node else st in
  let st := set_left st node (rightChild (st @ child)) in
  let st := set_parent st node child in
  let st := set_right st child node in
  let st := set_parent st child parent_ in
  if is_real st parent_ then
    if bool_decide (rightChild (st @ parent_) = node)
    then set_right st parent_ child
    else set_left st parent_ child
  else set_root st child.

(** ** Insertion *)

(** [check_hint]: the start of the descent chosen from a position hint. *)
Definition check_hint st (val : T) (hint : N) : option N :=
  match value (st @ hint), value (st @ (_root st)) with
  | Some hv, Some rv =>
      if comp hv rv && comp val hv then Some hint
      else if comp hv rv && comp hv val then Some (_root st)
      else if comp rv hv && comp val hv then Some (_root st)
      else if comp rv hv && comp hv val then Some hint
      else Some (_root st)
  | _, _ => None
  end.

(** [get_position]: descent to the insertion slot; links [node] there. *)
Fixpoint get_position (fuel : nat) st (position node : N)
  : option (RBTree T * (N * bool)) :=
  match fuel with
  | O => None
  | S fuel =>
      match value (st @ position) with
      | None => Some (st, (position, true))
      | Some pv =>
          match value (st @ node) with
          | None => None
          | Some nv =>
              if comp nv pv then
                if negb (is_real st (leftChild (st @ position))) then
                  let st := set_left st position node in
                  let st := set_parent st node position in
                  let st := set_left st node (_nil st) in
                  let st := set_right st node (_nil st) in
                  let st := set_color st node RED in
                  Some (st, (position, true))
                else get_position fuel st (leftChild (st @ position)) node
              else if comp pv nv then
                if negb (is_real st (rightChild (st @ position))) then
                  let st := set_right st position node in
                  let st := set_parent st node position in
                  let st := set_left st node (_nil st) in
                  let st := set_right st node (_nil st) in
                  let st := set_color st node RED in
                  Some (st, (position, true))
                else get_position fuel st (rightChild (st @ position)) node
              else Some (st, (position, false))
          end
      end
  end.

Definition insert_case5 st (node : N) : RBTree T :=
  let grand := get_grandparent st node in
  let st := set_color st (parent (st @ node)) BLACK in
  let st := set_color st grand RED in
  if bool_decide (node = leftChild (st @ (parent (st @ node))))
  then rotate_right st grand
  else rotate_left st grand.

Definition insert_case4 st (node : N) : RBTree T :=
  let grand := get_grandparent st node in
  if bool_decide (node = rightChild (st @ (parent (st @ node))))
     && bool_decide (parent (st @ node) = leftChild (st @ grand))
  then
    let st := rotate_left st (parent (st @ node)) in
    insert_case5 st (leftChild (st @ node))
  else if bool_decide (node = leftChild (st @ (parent (st @ node))))
          && bool_decide (parent (st @ node) = rightChild (st @ grand))
  then
    let st := rotate_right st (parent (st @ node)) in
    insert_case5 st (rightChild (st @ node))
  else insert_case5 st node.

(** [insert_case3] and [insert_case2]; [case1] is the recursive call
    [insert_case1(grand)]. *)
Definition insert_case3 (case1 : RBTree T -> N -> option (RBTree T)) st (node : N)
  : option (RBTree T) :=
  let uncle := get_uncle st node in
  if is_real st uncle && bool_decide (color (st @ uncle) = RED) then
    let st := set_color st (parent (st @ node)) BLACK in
    let st := set_color st uncle BLACK in
    let grand := get_grandparent st node in
    let st := set_color st grand RED in
    case1 st grand
  else Some (insert_case4 st node).

Definition insert_case2 (case1 : RBTree T -> N -> option (RBTree T)) st (node : N)
  : option (RBTree T) :=
  if bool_decide (color (st @ (parent (st @ node))) = RED)
  then insert_case3 case1 st node
  else Some st.

Fixpoint insert_case1 (fuel : nat) st (node : N) : option (RBTree T) :=
  match fuel with
  | O => None
  | S fuel =>
      if is_real st (parent (st @ node))
      then insert_case2 (insert_case1 fuel) st node
      else Some (set_color st node BLACK)
  end.

(** [insert(val, hint)]; the default argument is [hint = NULL]. *)
Definition insert (fuel : nat) st (val : T) (hint : N)
  : option (RBTree T * (N * bool)) :=
  let '(new_node, st) := make_node st val in
  let position := _root st in
  if (_size st =? 0) then
    let st := set_root st new_node in
    let st := set_left st (_root st) (_nil st) in
    let st := set_right st (_root st) (_nil st) in
    let st := set_parent st (_root st) (_nil st) in
    let st := set_color st (_root st) BLACK in
    let st := set_parent st (_nil st) (_root st) in
    let st := set_size st (size_incr (_size st)) in
    Some (st, (_root st, true))
  else
    position ← (if bool_decide (hint ≠ NULL) && is_real st hint
                then check_hint st val hint else Some position);
    '(st, is_valid) ← get_position fuel st position new_node;
    if negb (is_valid.2) then Some (dealloc st new_node, is_valid)
    else
      st ← insert_case1 fuel st new_node;
      let st := set_size st (size_incr (_size st)) in
      m ← get_max_value_node fuel st;
      let st := set_parent st (_nil st) m in
      Some (st, (new_node, true)).

(** ** Deletion *)

(** The relinking part of [replace_erase_node] (after [res] is found):
    [node] and [res] trade places and colors. *)
Definition replace_erase_node_relink st (node res : N) : RBTree T :=
  let tmp_parent := parent (st @ node) in
  let tmp_left := leftChild (st @ node) in
  let tmp_right := rightChild (st @ node) in
  let tmp_color := color (st @ node) in
  let st := set_left st node (leftChild (st @ res)) in
  let st := if is_real st (leftChild (st @ res))
            then set_parent st (leftChild (st @ res)) node else st in
  let st := set_right st node (rightChild (st @ res)) in
  let st := if is_real st (rightChild (st @ res))
            then set_parent st (rightChild (st @ res)) node else st in
  let st := if bool_decide (leftChild (st @ tmp_parent) = node)
            then set_left st tmp_parent res
            else if bool_decide (rightChild (st @ tmp_parent) = node)
                 then set_right st tmp_parent res else st in
  let st :=
    if bool_decide (res = tmp_left) then
      let st := set_parent st tmp_right res in
      let st := set_right st res tmp_right in
      let st := set_parent st node res in
      set_left st res node
    else if bool_decide (res = tmp_right) then
      let st := set_parent st tmp_left res in
      let st := set_left st res tmp_left in
      let st := set_parent st node res in
      set_right st res node
    else
      let st := set_parent st tmp_left res in
      let st := set_left st res tmp_left in
      let st := set_parent st tmp_right res in
      let st := set_right st res tmp_right in
      let st := set_parent st node (parent (st @ res)) in
      set_right st (parent (st @ res)) node in
  let st := set_parent st res tmp_parent in
  let st := if is_real st (parent (st @ res)) then st else set_root st res in
  let st := set_color st node (color (st @ res)) in
  set_color st res tmp_color.

Definition replace_erase_node (fuel : nat) st (node : N) : option (RBTree T * N) :=
  if is_real st (leftChild (st @ node)) then
    res ← rightmost fuel st (leftChild (st @ node));
    Some (replace_erase_node_relink st node res, node)
  else if is_real st (rightChild (st @ node)) then
    res ← leftmost fuel st (rightChild (st @ node));
    Some (replace_erase_node_relink st node res, node)
  else Some (st, node).

Definition replace_node st (node child : N) : RBTree T :=
  let st := set_parent st child (parent (st @ node)) in
  if bool_decide (leftChild (st @ (parent (st @ node))) = node)
  then set_left st (parent (st @ node)) child
  else set_right st (parent (st @ node)) child.

Definition delete_case6 st (node : N) : RBTree T :=
  let sibling := get_sibling st node in
  let st := set_color st sibling (color (st @ (parent (st @ node)))) in
  let st := set_color st (parent (st @ node)) BLACK in
  if bool_decide (node = leftChild (st @ (parent (st @ node)))) then
    let st := set_color st (rightChild (st @ sibling)) BLACK in
    rotate_left st (parent (st @ node))
  else
    let st := set_color st (leftChild (st @ sibling)) BLACK in
    rotate_right st (parent (st @ node)).

Definition delete_case5 st (node : N) : RBTree T :=
  let sibling := get_sibling st node in
  let st :=
    if bool_decide (color (st @ sibling) = BLACK) then
      if bool_decide (node = leftChild (st @ (parent (st @ node))))
         && bool_decide (color (st @ (rightChild (st @ sibling))) = BLACK)
         && bool_decide (color (st @ (leftChild (st @ sibling))) = RED)
      then
        let st := set_color st sibling RED in
        let st := set_color st (leftChild (st @ sibling)) BLACK in
        rotate_right st sibling
      else if bool_decide (node = rightChild (st @ (parent (st @ node))))
              && bool_decide (color (st @ (leftChild (st @ sibling))) = BLACK)
              && bool_decide (color (st @ (rightChild (st @ sibling))) = RED)
      then
        let st := set_color st sibling RED in
        let st := set_color st (rightChild (st @ sibling)) BLACK in
        rotate_left st sibling
      else st
    else st in
  delete_case6 st node.

Definition delete_case4 st (node : N) : RBTree T :=
  let sibling := get_sibling st node in
  if bool_decide (color (st @ (parent (st @ node))) = RED)
     && bool_decide (color (st @ sibling) = BLACK)
     && bool_decide (color (st @ (leftChild (st @ sibling))) = BLACK)
     && bool_decide (color (st @ (rightChild (st @ sibling))) = BLACK)
  then
    let st := set_color st sibling RED in
    set_color st (parent (st @ node)) BLACK
  else delete_case5 st node.

(** [delete_case3] and [delete_case2]; [case1] is the recursive call
    [delete_case1(node->parent)]. *)
Definition delete_case3 (case1 : RBTree T -> N -> option (RBTree T)) st (node : N)
  : option (RBTree T) :=
  let sibling := get_sibling st node in
  if bool_decide (color (st @ (parent (st @ node))) = BLACK)
     && bool_decide (color (st @ sibling) = BLACK)
     && bool_decide (color (st @ (leftChild (st @ sibling))) = BLACK)
     && bool_decide (color (st @ (rightChild (st @ sibling))) = BLACK)
  then
    let st := set_color st sibling RED in
    case1 st (parent (st @ node))
  else Some (delete_case4 st node).

Definition delete_case2 (case1 : RBTree T -> N -> option (RBTree T)) st (node : N)
  : option (RBTree T) :=
  let sibling := get_sibling st node in
  let st :=
    if bool_decide (color (st @ sibling) = RED) then
      let st := set_color st (parent (st @ node)) RED in
      let st := set_color st sibling BLACK in
      if bool_decide (node = leftChild (st @ (parent (st @ node))))
      then rotate_left st (parent (st @ node))
      else rotate_right st (parent (st @ node))
    else st in
  delete_case3 case1 st node.

Fixpoint delete_case1 (fuel : nat) st (node : N) : option (RBTree T) :=
  match fuel with
  | O => None
  | S fuel =>
      if is_real st (parent (st @ node))
      then delete_case2 (delete_case1 fuel) st node
      else Some st
  end.

(** [erase(node)] *)
Definition erase (fuel : nat) st (node : N) : option (RBTree T * Z) :=
  if negb (is_real st node) then Some (st, 0)
  else
    '(st, target) ← replace_erase_node fuel st node;
    let child := if negb (is_real st (rightChild (st @ target)))
                 then leftChild (st @ target) else rightChild (st @ target) in
    let st := replace_node st target child in
    st ← (if bool_decide (color (st @ target) = BLACK) then
            if bool_decide (color (st @ child) = RED)
            then Some (set_color st child BLACK)
            else delete_case1 fuel st child
          else Some st);
    let st := set_size st (size_decr (_size st)) in
    let st := if negb (is_real st (parent (st @ target)))
              then set_root st (_nil st) else st in
    let st := dealloc st target in
    m ← get_max_value_node fuel st;
    let st := set_parent st (_nil st) m in
    Some (st, 1).

(** ** Lookup *)

Fixpoint find_loop (fuel : nat) st (val : T) (res : N) : option N :=
  match fuel with
  | O => None
  | S fuel =>
      match value (st @ res) with
      | None => Some res
      | Some rv =>
          if comp val rv || comp rv val then
            if comp val rv then find_loop fuel st val (leftChild (st @ res))
            else find_loop fuel st val (rightChild (st @ res))
          else Some res
      end
  end.

Definition find (fuel : nat) st (val : T) : option N :=
  if (_size st =? 0) then Some (_nil st) else find_loop fuel st val (_root st).

(** ** clear and copy *)

(** [clear(node)]; the default argument is [node = NULL]. *)
Fixpoint clear (fuel : nat) st (node : N) : option (RBTree T) :=
  match fuel with
  | O => None
  | S fuel =>
      let node := if bool_decide (node = NULL) then _root st else node in
      st ← (if is_real st (leftChild (st @ node)) then
              st ← clear fuel st (leftChild (st @ node));
              Some (set_left st node (_nil st))
            else Some st);
      st ← (if is_real st (rightChild (st @ node)) then
              st ← clear fuel st (rightChild (st @ node));
              Some (set_right st node (_nil st))
            else Some st);
      if is_real st node then
        let st := if bool_decide (node = _root st)
                  then set_root st (_nil st) else st in
        let st := dealloc st node in
        Some (set_size st (size_decr (_size st)))
      else Some st
  end.

(** [copy(node)]: pre-order reinsertion of the nodes of another tree [x]. *)
Fixpoint copy_node (fuel : nat) st (x : RBTree T) (node : N) : option (RBTree T) :=
  match fuel with
  | O => None
  | S fuel =>
      match value (x @ node) with
      | None => Some st
      | Some v =>
          '(st, _) ← insert fuel st v NULL;
          st ← (if is_real x (leftChild (x @ node))
                then copy_node fuel st x (leftChild (x @ node)) else Some st);
          if is_real x (rightChild (x @ node))
          then copy_node fuel st x (rightChild (x @ node)) else Some st
      end
  end.

(** [copy(x)] for a tree [x] that is another object than [*this]. *)
Definition copy (fuel : nat) st (x : RBTree T) : option (RBTree T) :=
  st ← clear fuel st NULL;
  copy_node fuel st x (_root x).

(** ** Ordered iterator *)

(** Modelled from the spec: [RBTreeIterator::operator++] is defined in
    RBTreeIterator.hpp, which is absent.  Advance: if a right child exists,
    descend to its leftmost descendant; otherwise ascend via parent links
    until arriving via a left-child edge, or reaching the sentinel. *)
Fixpoint iter_ascend (fuel : nat) st (node : N) : option N :=
  match fuel with
  | O => None
  | S fuel =>
      let up := parent (st @ node) in
      if is_real st up then
        if bool_decide (node = leftChild (st @ up)) then Some up
        else iter_ascend fuel st up
      else Some up
  end.

Definition iter_next (fuel : nat) st (node : N) : option N :=
  if is_real st (rightChild (st @ node))
  then leftmost fuel st (rightChild (st @ node))
  else iter_ascend fuel st node.

(** The nodes visited from [it] up to the sentinel, in visiting order. *)
Fixpoint iter_range (fuel : nat) st (it : N) : option (list N) :=
  match fuel with
  | O => None
  | S fuel =>
      if bool_decide (it = get_end st) then Some []
      else nx ← iter_next fuel st it;
           rest ← iter_range fuel st nx;
           Some (it :: rest)
  end.

(** [while (it != ite && _comp( *it, val)) it++;] *)
Fixpoint lower_bound_loop (fuel : nat) st (val : T) (it : N) : option N :=
  match fuel with
  | O => None
  | S fuel =>
      if bool_decide (it = get_end st) then Some it
      else match value (st @ it) with
           | None => None
           | Some v =>
               if comp v val
               then nx ← iter_next fuel st it; lower_bound_loop fuel st val nx
               else Some it
           end
  end.

Definition lower_bound (fuel : nat) st (val : T) : option N :=
  it ← get_begin fuel st; lower_bound_loop fuel st val it.

(** [while (it != ite && !_comp(val, *it)) it++;] *)
Fixpoint upper_bound_loop (fuel : nat) st (val : T) (it : N) : option N :=
  match fuel with
  | O => None
  | S fuel =>
      if bool_decide (it = get_end st) then Some it
      else match value (st @ it) with
           | None => None
           | Some v =>
               if negb (comp val v)
               then nx ← iter_next fuel st it; upper_bound_loop fuel st val nx
               else Some it
           end
  end.

Definition upper_bound (fuel : nat) st (val : T) : option N :=
  it ← get_begin fuel st; upper_bound_loop fuel st val it.

End Engine.


(** * ft::map (includes/map.hpp)

    The map owns one tree of key/value pairs, ordered by the keys alone,
    and forwards its member functions to it. *)

Section Map.
Context {Key M : Type}.
(** The key comparison [Compare] and the value [mapped_type()]. *)
Variable key_comp : Key -> Key -> bool.
Variable mapped_default : M.

Implicit Types st : RBTree (Key * M).

(** [value_compare::operator()] *)
Definition value_compare (lhs rhs : Key * M) : bool := key_comp lhs.1 rhs.1.

(** [insert(val)] *)
Definition map_insert (fuel : nat) st (val : Key * M)
  : option (RBTree (Key * M) * (N * bool)) :=
  insert value_compare fuel st val NULL.

(** [insert(position, val)] *)
Definition map_insert_hint (fuel : nat) st (position : N) (val : Key * M)
  : option (RBTree (Key * M) * N) :=
  '(st, res) ← insert value_compare fuel st val position; Some (st, res.1).

(** [insert(first, last)] over the values of an input range. *)
Fixpoint map_insert_range (fuel : nat) st (range : list (Key * M))
  : option (RBTree (Key * M)) :=
  match range with
  | [] => Some st
  | val :: range =>
      '(st, _) ← insert value_compare fuel st val NULL;
      map_insert_range fuel st range
  end.

(** [find(k)] *)
Definition map_find (fuel : nat) st (k : Key) : option N :=
  find value_compare fuel st (k, mapped_default).

(** [count(k)] *)
Definition map_count (fuel : nat) st (k : Key) : option Z :=
  p ← find value_compare fuel st (k, mapped_default);
  Some (if is_real st p then 1 else 0).

(** [erase(position)] *)
Definition map_erase (fuel : nat) st (position : N) : option (RBTree (Key * M)) :=
  '(st, _) ← erase fuel st position; Some st.

(** [erase(k)] *)
Definition map_erase_key (fuel : nat) st (k : Key)
  : option (RBTree (Key * M) * Z) :=
  p ← find value_compare fuel st (k, mapped_default);
  erase fuel st p.

(** [operator[](k)]: the tree after the call and the mapped value the
    returned reference designates. *)
Definition map_subscript (fuel : nat) st (k : Key)
  : option (RBTree (Key * M) * M) :=
  '(st, res) ← insert value_compare fuel st (k, mapped_default) NULL;
  v ← value (node_at st res.1);
  Some (st, v.2).

(** [clear()] *)
Definition map_clear (fuel : nat) st : option (RBTree (Key * M)) :=
  clear fuel st NULL.

(** [operator=(x)] for a map [x] that is another object than [*this]. *)
Definition map_assign (fuel : nat) st (x : RBTree (Key * M))
  : option (RBTree (Key * M)) :=
  copy value_compare fuel st x.

End Map.
(** * Specification-level definitions *)

(** ** Lists of distinct addresses *)

Definition ldisj {A} (l k : list A) : Prop := ∀ x, x ∈ l → x ∉ k.

(** ** The tree a heap represents *)

Section Model.
Context {T : Type}.
Variable comp : T -> T -> bool.

(** Shape, colors, addresses and payloads of the nodes below one link. *)
Inductive tree :=
  | E
  | Tn (c : RBColor) (l : tree) (x : N) (v : T) (r : tree).

(** One step of the path from a subtree up to the root: the parent node
    with its other subtree. *)
Inductive frame :=
  | FL (c : RBColor) (x : N) (v : T) (r : tree)
  | FR (c : RBColor) (l : tree) (x : N) (v : T).

Definition fill (F : frame) (s : tree) : tree :=
  match F with
  | FL c x v r => Tn c s x v r
  | FR c l x v => Tn c l x v s
  end.

Fixpoint plug (C : list frame) (s : tree) : tree :=
  match C with
  | [] => s
  | F :: C => plug C (fill F s)
  end.

Definition fnode (F : frame) : N :=
  match F with FL _ x _ _ | FR _ _ x _ => x end.
Definition fcol (F : frame) : RBColor :=
  match F with FL c _ _ _ | FR c _ _ _ => c end.
Definition fsib (F : frame) : tree :=
  match F with FL _ _ _ r => r | FR _ l _ _ => l end.

Definition rootp (nil : N) (t : tree) : N :=
  match t with E => nil | Tn _ _ x _ _ => x end.
Definition cpar (nil : N) (C : list frame) : N :=
  match C with [] => nil | F :: _ => fnode F end.

(** In-order sequence of the nodes with their payloads. *)
Fixpoint items (t : tree) : list (N * T) :=
  match t with
  | E => []
  | Tn _ l x v r => items l ++ (x, v) :: items r
  end.
Fixpoint nodes (t : tree) : list N :=
  match t with
  | E => []
  | Tn _ l x _ r => nodes l ++ x :: nodes r
  end.
Fixpoint cnodes (C : list frame) : list N :=
  match C with
  | [] => []
  | F :: C => fnode F :: nodes (fsib F) ++ cnodes C
  end.
(** What the in-order sequence has before and after the hole. *)
Fixpoint cpre (C : list frame) : list (N * T) :=
  match C with
  | [] => []
  | FL _ _ _ _ :: C => cpre C
  | FR _ l x v :: C => cpre C ++ items l ++ [(x, v)]
  end.
Fixpoint cpost (C : list frame) : list (N * T) :=
  match C with
  | [] => []
  | FL _ x v r :: C => (x, v) :: items r ++ cpost C
  | FR _ _ _ _ :: C => cpost C
  end.

(** ** Representation in the heap *)

Implicit Types h : gmap N (RBTreeNode T).

Fixpoint rep h (nil par : N) (t : tree) : Prop :=
  match t with
  | E => True
  | Tn c l x v r =>
      h !! x = Some (mkNode (Some v) c par (rootp nil l) (rootp nil r))
      ∧ rep h nil x l ∧ rep h nil x r
  end.

Fixpoint crep h (nil : N) (C : list frame) (p : N) : Prop :=
  match C with
  | [] => True
  | FL c x v r :: C =>
      h !! x = Some (mkNode (Some v) c (cpar nil C) p (rootp nil r))
      ∧ rep h nil x r ∧ crep h nil C x
  | FR c l x v :: C =>
      h !! x = Some (mkNode (Some v) c (cpar nil C) (rootp nil l) p)
      ∧ rep h nil x l ∧ crep h nil C x
  end.

(** A stretch of a path: like [crep], for the frames between a subtree and
    an ancestor [top] that is not the root. *)
Definition cparT (top : N) (C : list frame) : N :=
  match C with [] => top | F :: _ => fnode F end.
Fixpoint ctop (C : list frame) (p : N) : N :=
  match C with [] => p | F :: C => ctop C (fnode F) end.
Fixpoint cseg h (nil top : N) (C : list frame) (p : N) : Prop :=
  match C with
  | [] => True
  | FL c x v r :: C =>
      h !! x = Some (mkNode (Some v) c (cparT top C) p (rootp nil r))
      ∧ rep h nil x r ∧ cseg h nil top C x
  | FR c l x v :: C =>
      h !! x = Some (mkNode (Some v) c (cparT top C) (rootp nil l) p)
      ∧ rep h nil x l ∧ cseg h nil top C x
  end.
(** The frames of a descent that always goes right. *)
Definition is_FR (F : frame) : Prop :=
  match F with FR _ _ _ _ => True | FL _ _ _ _ => False end.

Definition nilcell h (nil : N) : Prop :=
  ∃ np, h !! nil = Some (mkNode None BLACK np nil nil).

(** A cell outside the tree: allocated with a known content, and neither
    a node of the tree nor the sentinel. *)
Definition outcell (st : RBTree T) (L : list N) (pn : N * RBTreeNode T) : Prop :=
  heap st !! pn.1 = Some pn.2 ∧ pn.1 ∉ L ∧ pn.1 ≠ _nil st.

(** The tree object holds [plug C s], seen from the subtree [s]; the cells
    listed in [X] are detached nodes. *)
Record RepX (st : RBTree T) (X : list (N * RBTreeNode T))
    (C : list frame) (s : tree) : Prop := mkRepX {
  rz_root : _root st = rootp (_nil st) (plug C s);
  rz_sub : rep (heap st) (_nil st) (cpar (_nil st) C) s;
  rz_ctx : crep (heap st) (_nil st) C (rootp (_nil st) s);
  rz_nil : nilcell (heap st) (_nil st);
  rz_nodup : NoDup (nodes s ++ cnodes C);
  rz_nil_out : _nil st ∉ (nodes s ++ cnodes C);
  rz_null : heap st !! NULL = None;
  rz_extra : Forall (outcell st (nodes s ++ cnodes C)) X
}.

Definition Rep (st : RBTree T) (t : tree) : Prop := RepX st [] [] t.

(** What a relinking or recoloring step leaves alone. *)
Definition same_frame (st st' : RBTree T) : Prop :=
  _nil st' = _nil st ∧ _size st' = _size st
  ∧ dom (heap st') = dom (heap st)
  ∧ heap st' !! _nil st = heap st !! _nil st.

(** ** The red-black properties on trees and on paths *)

Definition c2n (c : RBColor) : nat := match c with BLACK => 1%nat | RED => 0%nat end.
Definition rootc (t : tree) : RBColor :=
  match t with E => BLACK | Tn c _ _ _ _ => c end.

(** Number of BLACK nodes on the leftmost path below the link. *)
Fixpoint bh (t : tree) : nat :=
  match t with E => 0%nat | Tn c l _ _ _ => (bh l + c2n c)%nat end.
(** Every path down to a sentinel link has the same number of BLACK nodes. *)
Fixpoint bal (t : tree) : Prop :=
  match t with
  | E => True
  | Tn _ l _ _ r => bh l = bh r ∧ bal l ∧ bal r
  end.
(** No RED node has a RED child. *)
Fixpoint nrr (t : tree) : Prop :=
  match t with
  | E => True
  | Tn c l _ _ r => (c = RED → rootc l = BLACK ∧ rootc r = BLACK) ∧ nrr l ∧ nrr r
  end.
Definition rbt (t : tree) : Prop := rootc t = BLACK ∧ bal t ∧ nrr t.

(** The same properties for the part of the tree around a subtree of
    black height [n]. *)
Fixpoint cbal (C : list frame) (n : nat) : Prop :=
  match C with
  | [] => True
  | F :: C => bh (fsib F) = n ∧ bal (fsib F) ∧ cbal C (n + c2n (fcol F))%nat
  end.
Definition cparent_black (C : list frame) : Prop :=
  match C with [] => False | F :: _ => fcol F = BLACK end.
Fixpoint cnrr (C : list frame) : Prop :=
  match C with
  | [] => True
  | F :: C =>
      nrr (fsib F)
      ∧ (fcol F = RED → rootc (fsib F) = BLACK ∧ cparent_black C)
      ∧ cnrr C
  end.
Definition hole_ok (C : list frame) (s : tree) : Prop :=
  match C with
  | [] => rootc s = BLACK
  | F :: _ => fcol F = RED → rootc s = BLACK
  end.

Definition tsize (t : tree) : nat := length (items t).

(** The last and the first node of the in-order sequence below a link
    (the sentinel when there is none). *)
Fixpoint tmax (nil : N) (t : tree) : N :=
  match t with
  | E => nil
  | Tn _ _ x _ r => match r with E => x | Tn _ _ _ _ _ => tmax nil r end
  end.
Fixpoint tmin (nil : N) (t : tree) : N :=
  match t with
  | E => nil
  | Tn _ l x _ _ => match l with E => x | Tn _ _ _ _ _ => tmin nil l end
  end.

(** The descent of [get_position] for a payload [k], from the subtree [s]
    reached along [C]: either the path to the free link where the new node
    goes, or the node that holds an equivalent payload. *)
Fixpoint descend (k : T) (s : tree) (C : list frame) : list frame + N :=
  match s with
  | E => inl C
  | Tn c l x v r =>
      if comp k v then descend k l (FL c x v r :: C)
      else if comp v k then descend k r (FR c l x v :: C)
      else inr x
  end.

(** What a relinking leaves alone when it may write to the sentinel. *)
Definition kept (st st' : RBTree T) : Prop :=
  _nil st' = _nil st ∧ _size st' = _size st ∧ dom (heap st') = dom (heap st).

(** What a recoloring or a rotation below the subtree in focus yields. *)
Definition stepped (X : list (N * RBTreeNode T)) (st st' : RBTree T)
    (C : list frame) (s' : tree) : Prop :=
  RepX st' X C s' ∧ same_frame st st'.

(** The link to a subtree that lost one BLACK node: when the subtree is
    empty, the sentinel's parent field tells where the link is. *)
Definition hole_par (st : RBTree T) (C : list frame) (s : tree) : Prop :=
  s = E → parent (node_at st (_nil st)) = cpar (_nil st) C.

(** The outcome of a rebalancing that started at the subtree [s] along
    [C]: a red-black tree with the same in-order sequence. *)
Definition fixed (X : list (N * RBTreeNode T)) (st : RBTree T)
    (C : list frame) (s : tree) (st' : RBTree T) : Prop :=
  ∃ t', RepX st' X [] t' ∧ rbt t' ∧ items t' = items (plug C s)
        ∧ same_frame st st'.

(** Where the iterator goes from the last node of a subtree: the nearest
    ancestor reached from its left side, or the sentinel. *)
Fixpoint cnext (nil : N) (C : list frame) : N :=
  match C with
  | [] => nil
  | FL _ x _ _ :: _ => x
  | FR _ _ _ _ :: C => cnext nil C
  end.
Definition first_node (nil : N) (l : list (N * T)) : N :=
  match l with [] => nil | (x, _) :: _ => x end.
(** The first node of a sequence whose payload satisfies [p], or the
    sentinel. *)
Fixpoint bound_of (p : T -> bool) (nil : N) (l : list (N * T)) : N :=
  match l with
  | [] => nil
  | (x, v) :: l => if p v then x else bound_of p nil l
  end.

(** The whole state of a tree object that holds [t]. *)
Definition Full (st : RBTree T) (t : tree) : Prop :=
  Rep st t
  ∧ dom (heap st) = {[_nil st]} ∪ list_to_set (nodes t)
  ∧ _size st = Z.of_nat (tsize t)
  ∧ _size st < size_max.

(** A position hint a caller may pass to [insert]: none, the end position,
    or a node of the tree. *)
Definition hint_ok (st : RBTree T) (t : tree) (hint : N) : Prop :=
  hint = NULL ∨ hint = _nil st ∨ hint ∈ nodes t.

(** The part of [insert] that follows the choice of the start position. *)
Definition insert_tail (fuel : nat) (st : RBTree T) (position new_node : N)
  : option (RBTree T * (N * bool)) :=
  '(st, is_valid) ← get_position comp fuel st position new_node;
  if negb (is_valid.2) then Some (dealloc st new_node, is_valid)
  else
    st ← insert_case1 fuel st new_node;
    let st := set_size st (size_incr (_size st)) in
    m ← get_max_value_node fuel st;
    let st := set_parent st (_nil st) m in
    Some (st, (new_node, true)).

(** What [insert] promises for a payload [k]: either a new node [r.1] was
    linked at the free link the descent from the chosen start reached, or
    the descent met an equivalent payload at [r.1] and nothing changed. *)
Definition insert_post (st : RBTree T) (t : tree) (k : T) (hint : N)
    (st' : RBTree T) (r : N * bool) : Prop :=
  (r.2 = true
   ∧ ∃ t' Ch sh C',
       t = plug Ch sh
       ∧ (hint = NULL ∨ hint = _nil st → Ch = [])
       ∧ descend k sh Ch = inl C'
       ∧ Full st' t' ∧ rbt t'
       ∧ items t' = cpre C' ++ (r.1, k) :: cpost C'
       ∧ r.1 ∉ nodes t
       ∧ _nil st' = _nil st
       ∧ parent (node_at st' (_nil st')) = tmax (_nil st') t')
  ∨ (r.2 = false ∧ st' = st
     ∧ ∃ Ch sh, t = plug Ch sh
         ∧ (hint = NULL ∨ hint = _nil st → Ch = [])
         ∧ descend k sh Ch = inr r.1).

(** The part of [erase] that follows the rebalancing: the size, the root of
    a tree that became empty, the release of the node and the sentinel's
    link to the last node. *)
Definition erase_finish (fuel : nat) (st : RBTree T) (target : N)
  : option (RBTree T * Z) :=
  let st := set_size st (size_decr (_size st)) in
  let st := if negb (is_real st (parent (node_at st target)))
            then set_root st (_nil st) else st in
  let st := dealloc st target in
  m ← get_max_value_node fuel st;
  let st := set_parent st (_nil st) m in
  Some (st, 1).

(** The rebalancing step of [erase] once the child has taken the place of
    the target. *)
Definition erase_fixup (fuel : nat) (st : RBTree T) (target child : N)
  : option (RBTree T) :=
  if bool_decide (color (node_at st target) = BLACK) then
    if bool_decide (color (node_at st child) = RED)
    then Some (set_color st child BLACK)
    else delete_case1 fuel st child
  else Some st.

(** The part of [erase] that follows [replace_erase_node]. *)
Definition erase_tail (fuel : nat) (st : RBTree T) (target : N)
  : option (RBTree T * Z) :=
  let child := if negb (is_real st (rightChild (node_at st target)))
               then leftChild (node_at st target)
               else rightChild (node_at st target) in
  let st := replace_node st target child in
  st ← erase_fixup fuel st target child;
  erase_finish fuel st target.

(** A tree object that holds a red-black tree. *)
Definition valid (st : RBTree T) : Prop := ∃ t, Full st t ∧ rbt t.

(** A loop budget that suffices for every member function on [st]. *)
Definition budget (st : RBTree T) : nat := (2 * Z.to_nat (_size st) + 4)%nat.

(** The tree objects that sequences of [insert] and [erase] calls produce
    from the empty tree.  [insert] takes no hint, the end position or a
    node of the tree as its hint; [erase] takes a node of the tree or the
    end position. *)
Inductive Reach : RBTree T → Prop :=
  | Reach_new : Reach RBTree_new
  | Reach_insert st k hint fuel st' r :
      Reach st →
      hint = NULL ∨ hint ∈ dom (heap st) →
      _size st + 1 < size_max →
      (budget st ≤ fuel)%nat →
      insert comp fuel st k hint = Some (st', r) →
      Reach st'
  | Reach_erase st x fuel st' n :
      Reach st →
      x ∈ dom (heap st) →
      (budget st ≤ fuel)%nat →
      erase fuel st x = Some (st', n) →
      Reach st'.

(** [dpath st p n]: some path from [p] down to the sentinel passes through
    [n] BLACK nodes, [p] included. *)
Inductive dpath (st : RBTree T) : N → nat → Prop :=
  | dpath_end : dpath st (_nil st) 0
  | dpath_left p n :
      is_real st p = true →
      dpath st (leftChild (node_at st p)) n →
      dpath st p (n + c2n (color (node_at st p)))
  | dpath_right p n :
      is_real st p = true →
      dpath st (rightChild (node_at st p)) n →
      dpath st p (n + c2n (color (node_at st p))).

(** Some path from below [p] down to the sentinel passes through [n] BLACK
    nodes, [p] excluded. *)
Definition bpaths (st : RBTree T) (p : N) (n : nat) : Prop :=
  dpath st (leftChild (node_at st p)) n ∨ dpath st (rightChild (node_at st p)) n.

(** The five red-black properties, read off the cells of a tree object. *)
Definition red_black (st : RBTree T) : Prop :=
  (∀ p, color (node_at st p) = RED ∨ color (node_at st p) = BLACK)
  ∧ color (node_at st (_root st)) = BLACK
  ∧ color (node_at st (_nil st)) = BLACK
  ∧ (∀ p, p ∈ dom (heap st) → color (node_at st p) = RED →
       color (node_at st (leftChild (node_at st p))) = BLACK
       ∧ color (node_at st (rightChild (node_at st p))) = BLACK)
  ∧ (∀ p, p ∈ dom (heap st) → is_real st p = true →
       ∃ n, bpaths st p n ∧ ∀ m, bpaths st p m → m = n).

(** [x] is the first node of the sequence [l] whose payload satisfies [p],
    or the sentinel when there is none. *)
Definition first_such (p : T -> bool) (nil : N) (l : list (N * T)) (x : N)
  : Prop :=
  (x = nil ∧ ∀ y v, (y, v) ∈ l → p v = false)
  ∨ (∃ k1 v k2, l = k1 ++ (x, v) :: k2 ∧ p v = true
       ∧ ∀ y w, (y, w) ∈ k1 → p w = false).

(** ** Ordered trees *)

(** The payloads in in-order position. *)
Definition payloads (t : tree) : list T := (items t).*2.

(** The in-order payloads increase strictly for the comparison. *)
Definition ordered (t : tree) : Prop :=
  StronglySorted (λ a b, comp a b = true) (payloads t).

(** Neither payload goes before the other. *)
Definition same_key (a b : T) : Prop := comp a b = false ∧ comp b a = false.


(** The tree objects that [insert] calls without a position hint and
    [erase] calls produce from the empty tree. *)
Inductive Built : RBTree T → Prop :=
  | Built_new : Built RBTree_new
  | Built_insert st k fuel st' r :
      Built st →
      _size st + 1 < size_max →
      (budget st ≤ fuel)%nat →
      insert comp fuel st k NULL = Some (st', r) →
      Built st'
  | Built_erase st x fuel st' n :
      Built st →
      x ∈ dom (heap st) →
      (budget st ≤ fuel)%nat →
      erase fuel st x = Some (st', n) →
      Built st'.

(** Where a descent ends, seen as a position: the node it met, or the
    sentinel. *)
Definition descent_end (nil : N) (d : list frame + N) : N :=
  match d with inl _ => nil | inr x => x end.

(** What [clear(node)] leaves of a tree object: the cells listed in [L]
    are released, the other cells are as they were. *)
Definition cleared (st : RBTree T) (L : list N) (st' : RBTree T) : Prop :=
  (∀ q, heap st' !! q = if bool_decide (q ∈ L) then None else heap st !! q)
  ∧ _nil st' = _nil st
  ∧ _root st' = (if bool_decide (_root st ∈ L) then _nil st else _root st)
  ∧ _size st' = Nat.iter (length L) size_decr (_size st).

(** The number of nodes on the longest path from a link down to the
    sentinel. *)
Fixpoint height (t : tree) : nat :=
  match t with
  | E => 0%nat
  | Tn _ l _ _ r => S (Nat.max (height l) (height r))
  end.

End Model.

Arguments rz_root {T st X C s}.
Arguments rz_sub {T st X C s}.
Arguments rz_ctx {T st X C s}.
Arguments rz_nil {T st X C s}.
Arguments rz_nodup {T st X C s}.
Arguments rz_nil_out {T st X C s}.
Arguments rz_null {T st X C s}.
Arguments rz_extra {T st X C s}.

(** ** Scenarios on integer keys *)

Module Scenario.

Definition fuel : nat := 64.

(** [insert(k, hint)] on a tree object, keeping the tree only. *)
Definition ins (k : Z) (hint : N) (st : RBTree Z) : RBTree Z :=
  match insert Z.ltb fuel st k hint with Some (st', _) => st' | None => st end.

(** Insertion of the keys of a list, in order, without hints. *)
Definition build (ks : list Z) : RBTree Z :=
  fold_left (fun st k => ins k NULL st) ks RBTree_new.

Definition key_of (st : RBTree Z) (p : N) : Z := default 0 (value (node_at st p)).

(** The keys met by the iterator from [begin()] to [end()]. *)
Definition keys_in_order (st : RBTree Z) : option (list Z) :=
  it ← get_begin fuel st; l ← iter_range fuel st it; Some (map (key_of st) l).

(** The keys met by a walk over the child links: left subtree, node, right
    subtree. *)
Fixpoint walk (n : nat) (st : RBTree Z) (p : N) : list Z :=
  match n with
  | O => []
  | S n =>
      match value (node_at st p) with
      | None => []
      | Some k =>
          walk n st (leftChild (node_at st p)) ++ k
          :: walk n st (rightChild (node_at st p))
      end
  end.

(** The largest key below a link. *)
Definition max_key (st : RBTree Z) : Z :=
  fold_right Z.max 0 (walk fuel st (_root st)).

(** [erase(x)] on a tree object, keeping the tree only. *)
Definition era (x : N) (st : RBTree Z) : RBTree Z :=
  match erase fuel st x with Some (st', _) => st' | None => st end.

Definition t4 : RBTree Z := build [10; 5; 15; 7].
Definition t4b : RBTree Z := build [10; 5; 15; 12].
Definition t7 : RBTree Z := build [10; 5; 15; 3; 7; 12; 20].
Definition t1357 : RBTree Z := build [1; 3; 5; 7].

(** The trees these objects hold. *)
Definition tr4 : @tree Z :=
  Tn BLACK (Tn BLACK E 3 5 (Tn RED E 5 7 E)) 2 10 (Tn BLACK E 4 15 E).
Definition tr7 : @tree Z :=
  Tn BLACK (Tn BLACK (Tn RED E 5 3 E) 3 5 (Tn RED E 6 7 E)) 2 10
           (Tn BLACK (Tn RED E 7 12 E) 4 15 (Tn RED E 8 20 E)).
Definition tr1357 : @tree Z :=
  Tn BLACK (Tn BLACK E 2 1 E) 3 3 (Tn BLACK E 4 5 (Tn RED E 5 7 E)).

(** A short history: two insertions, the second with the root as hint, and
    the removal of the root. *)
Definition w1 : RBTree Z := ins 10 NULL RBTree_new.
Definition w2 : RBTree Z := ins 5 2 w1.
Definition w3 : RBTree Z := era 2 w2.

(** A map from integers to integers, filled by [insert(val)]. *)
Definition mins (val : Z * Z) (st : RBTree (Z * Z)) : RBTree (Z * Z) :=
  match map_insert Z.ltb fuel st val with Some (st', _) => st' | None => st end.
Definition m3 : RBTree (Z * Z) :=
  mins (3, 30) (mins (2, 20) (mins (1, 10) RBTree_new)).
Definition mr3 : @tree (Z * Z) :=
  Tn BLACK (Tn RED E 2 (1, 10) E) 3 (2, 20) (Tn RED E 4 (3, 30) E).

End Scenario.

(** * Proofs *)

(** ** Lists of distinct addresses *)

Section nd.
Context {A : Type}.
Implicit Types l k : list A.
Lemma nd_app l k : NoDup (l ++ k) ↔ NoDup l ∧ ldisj l k ∧ NoDup k.
Proof. apply NoDup_app. Qed.
Lemma nd_cons x l : NoDup (x :: l) ↔ x ∉ l ∧ NoDup l.
Proof. apply NoDup_cons. Qed.
Lemma nd_nil : NoDup (@nil A) ↔ True.
Proof. split; auto using NoDup_nil_2. Qed.
Lemma ldisj_app_l l1 l2 k : ldisj (l1 ++ l2) k ↔ ldisj l1 k ∧ ldisj l2 k.
Proof. unfold ldisj. setoid_rewrite elem_of_app. naive_solver. Qed.
Lemma ldisj_cons_l x l k : ldisj (x :: l) k ↔ x ∉ k ∧ ldisj l k.
Proof. unfold ldisj. setoid_rewrite elem_of_cons. naive_solver. Qed.
Lemma ldisj_nil_l k : ldisj [] k ↔ True.
Proof. unfold ldisj. split; [done|]. intros _ x Hx. by apply elem_of_nil in Hx. Qed.
Lemma ldisj_app_r l k1 k2 : ldisj l (k1 ++ k2) ↔ ldisj l k1 ∧ ldisj l k2.
Proof. unfold ldisj. setoid_rewrite elem_of_app. naive_solver. Qed.
Lemma ldisj_cons_r x l k : ldisj l (x :: k) ↔ x ∉ l ∧ ldisj l k.
Proof. unfold ldisj. setoid_rewrite elem_of_cons. naive_solver. Qed.
Lemma ldisj_nil_r l : ldisj l [] ↔ True.
Proof. unfold ldisj. split; [done|]. intros _ x _ Hx. by apply elem_of_nil in Hx. Qed.
Lemma ldisj_sym l k : ldisj l k → ldisj k l.
Proof. unfold ldisj. naive_solver. Qed.
Lemma nin_app x l k : x ∉ (l ++ k) ↔ x ∉ l ∧ x ∉ k.
Proof. rewrite elem_of_app. tauto. Qed.
Lemma nin_cons x y l : x ∉ (y :: l) ↔ x ≠ y ∧ x ∉ l.
Proof. rewrite elem_of_cons. tauto. Qed.
Lemma nin_nil x : x ∉ @nil A ↔ True.
Proof. split; [done|]. intros _ H. by apply elem_of_nil in H. Qed.
End nd.

(** [nd_hyp] splits the distinctness facts of the context into facts about
    single addresses and whole subtrees; [nd_goal] proves such a fact from
    them. *)
Ltac nd_all :=
  repeat match goal with
  | H : NoDup (_ ++ _) |- _ => apply nd_app in H; destruct H as (? & ? & ?)
  | H : NoDup (_ :: _) |- _ => apply nd_cons in H; destruct H as (? & ?)
  | H : NoDup [] |- _ => clear H
  | H : ldisj (_ ++ _) _ |- _ => apply ldisj_app_l in H; destruct H as (? & ?)
  | H : ldisj (_ :: _) _ |- _ => apply ldisj_cons_l in H; destruct H as (? & ?)
  | H : ldisj [] _ |- _ => clear H
  | H : ldisj _ (_ ++ _) |- _ => apply ldisj_app_r in H; destruct H as (? & ?)
  | H : ldisj _ (_ :: _) |- _ => apply ldisj_cons_r in H; destruct H as (? & ?)
  | H : ldisj _ [] |- _ => clear H
  | H : _ ∉ (_ ++ _) |- _ => apply nin_app in H; destruct H as (? & ?)
  | H : _ ∉ (_ :: _) |- _ => apply nin_cons in H; destruct H as (? & ?)
  | H : _ ∉ [] |- _ => clear H
  end.
Ltac nd_hyp H := nd_all.
Ltac nd_close :=
  first [ assumption | apply not_eq_sym; assumption
        | apply ldisj_sym; assumption | exact I ].
Ltac nd_split :=
  repeat match goal with
  | |- NoDup (_ ++ _) => apply nd_app; split; [|split]
  | |- NoDup (_ :: _) => apply nd_cons; split
  | |- NoDup [] => apply NoDup_nil_2
  | |- ldisj (_ ++ _) _ => apply ldisj_app_l; split
  | |- ldisj (_ :: _) _ => apply ldisj_cons_l; split
  | |- ldisj [] _ => by apply ldisj_nil_l
  | |- ldisj _ (_ ++ _) => apply ldisj_app_r; split
  | |- ldisj _ (_ :: _) => apply ldisj_cons_r; split
  | |- ldisj _ [] => by apply ldisj_nil_r
  | |- _ ∉ (_ ++ _) => apply nin_app; split
  | |- _ ∉ (_ :: _) => apply nin_cons; split
  | |- _ ∉ [] => by apply nin_nil
  end.
Ltac nd_goal := nd_split; try nd_close.

(** ** Trees and paths *)

Section Abstract.
Context {T : Type}.
Implicit Types s t a b d l r : @tree T.
Implicit Types C : list (@frame T).
Implicit Types h : gmap N (RBTreeNode T).
Implicit Types st : RBTree T.
Context {X : list (N * RBTreeNode T)}.
Local Abbreviation RepZ st C s := (RepX st X C s) (only parsing).
Local Abbreviation RepT st t := (RepX st X [] t) (only parsing).

Lemma items_plug C s : items (plug C s) = cpre C ++ items s ++ cpost C.
Proof.
  revert s. induction C as [|[c x v r|c l x v] C IH]; intros s; simpl.
  - by rewrite app_nil_r.
  - rewrite IH. simpl. by rewrite <- !app_assoc.
  - rewrite IH. simpl. by rewrite <- !app_assoc.
Qed.

Lemma nodes_items t : nodes t = (items t).*1.
Proof.
  induction t as [|c l IHl x v r IHr]; simpl; [done|].
  by rewrite fmap_app, fmap_cons, IHl, IHr.
Qed.

Lemma nodes_plug C s : nodes (plug C s) ≡ₚ nodes s ++ cnodes C.
Proof.
  revert s. induction C as [|[c x v r|c l x v] C IH]; intros s; simpl.
  - by rewrite app_nil_r.
  - rewrite IH. simpl. by rewrite <- !app_assoc.
  - rewrite IH. simpl. solve_Permutation.
Qed.

Lemma rootp_plug_cons nil F C s s' :
  rootp nil (plug (F :: C) s) = rootp nil (plug (F :: C) s').
Proof.
  revert F s s'. induction C as [|G C IH]; intros F s s'.
  - by destruct F.
  - simpl. apply (IH G).
Qed.

Lemma rootp_plug_FL nil C c s s' x v r :
  rootp nil (plug C (Tn c s x v r)) = rootp nil (plug C (Tn c s' x v r)).
Proof. apply (rootp_plug_cons nil (FL c x v r) C s s'). Qed.

Lemma rootp_plug_FR nil C c s s' x v l :
  rootp nil (plug C (Tn c l x v s)) = rootp nil (plug C (Tn c l x v s')).
Proof. apply (rootp_plug_cons nil (FR c l x v) C s s'). Qed.

Lemma outcell_perm st (L L' : list N) pn :
  (∀ p, p ∉ L → p ∉ L') → outcell st L pn → outcell st L' pn.
Proof. intros HL (? & ? & ?). split; [done|]. split; auto. Qed.

Lemma RepZ_up {st F C s} : RepZ st (F :: C) s → RepZ st C (fill F s).
Proof.
  intros [Hr Hs Hc Hn Hd Ho Hz Hx]. destruct F as [c x v r|c l x v]; simpl in *.
  - destruct Hc as (Hx' & Hr' & Hc). constructor; simpl; auto.
    + nd_all. nd_goal.
    + nd_all. nd_goal.
    + eapply Forall_impl; [exact Hx|]. intros pn. apply outcell_perm.
      intros p Hp. nd_all. nd_goal.
  - destruct Hc as (Hx' & Hr' & Hc). constructor; simpl; auto.
    + nd_all. nd_goal.
    + nd_all. nd_goal.
    + eapply Forall_impl; [exact Hx|]. intros pn. apply outcell_perm.
      intros p Hp. nd_all. nd_goal.
Qed.

Lemma RepZ_down {st F C s} : RepZ st C (fill F s) → RepZ st (F :: C) s.
Proof.
  intros [Hr Hs Hc Hn Hd Ho Hz Hx]. destruct F as [c x v r|c l x v]; simpl in *.
  - destruct Hs as (Hx' & Hs & Hr'). constructor; simpl; auto.
    + nd_all. nd_goal.
    + nd_all. nd_goal.
    + eapply Forall_impl; [exact Hx|]. intros pn. apply outcell_perm.
      intros p Hp. nd_all. nd_goal.
  - destruct Hs as (Hx' & Hl & Hs). constructor; simpl; auto.
    + nd_all. nd_goal.
    + nd_all. nd_goal.
    + eapply Forall_impl; [exact Hx|]. intros pn. apply outcell_perm.
      intros p Hp. nd_all. nd_goal.
Qed.

Lemma RepZ_plug {st C s} : RepZ st C s → RepT st (plug C s).
Proof.
  revert s. induction C as [|F C IH]; intros s H; [done|].
  simpl. apply IH. by apply RepZ_up.
Qed.

Lemma Rep_unplug {st C s} : RepT st (plug C s) → RepZ st C s.
Proof.
  revert s. induction C as [|F C IH]; intros s H; [done|].
  apply RepZ_down, IH, H.
Qed.

(** Writes outside a subtree do not disturb its representation. *)
Lemma rep_alter_frame h nil par t p f :
  p ∉ nodes t → rep h nil par t → rep (alter f p h) nil par t.
Proof.
  revert par. induction t as [|c l IHl x v r IHr]; intros par Hp; simpl; [done|].
  simpl in Hp. nd_hyp Hp. intros (Hx & Hl & Hr).
  rewrite lookup_alter_ne by done. auto.
Qed.

Lemma crep_alter_frame h nil C q p f :
  p ∉ cnodes C → crep h nil C q → crep (alter f p h) nil C q.
Proof.
  revert q. induction C as [|[c x v r|c l x v] C IH]; intros q Hp; simpl; [done| |].
  - simpl in Hp. nd_hyp Hp. intros (Hx & Hr & Hc).
    rewrite lookup_alter_ne by done. auto using rep_alter_frame.
  - simpl in Hp. nd_hyp Hp. intros (Hx & Hr & Hc).
    rewrite lookup_alter_ne by done. auto using rep_alter_frame.
Qed.

(** The root of a subtree may be given another parent. *)
Lemma rootp_ne nil t x : x ≠ nil → x ∉ nodes t → rootp nil t ≠ x.
Proof.
  destruct t as [|c l z v r]; simpl; [congruence|].
  intros _ Hx. nd_all. congruence.
Qed.

Lemma rep_nodes_Some h nil par t x :
  rep h nil par t → x ∈ nodes t → ∃ v c q pl pr, h !! x = Some (mkNode (Some v) c q pl pr).
Proof.
  revert par. induction t as [|c l IHl y v r IHr]; intros par; simpl.
  - by intros _ ?%elem_of_nil.
  - intros (Hy & Hl & Hr). rewrite elem_of_app, elem_of_cons.
    intros [Hx|[->|Hx]]; eauto 10.
Qed.

Lemma crep_nodes_Some h nil C p x :
  crep h nil C p → x ∈ cnodes C → ∃ v c q pl pr, h !! x = Some (mkNode (Some v) c q pl pr).
Proof.
  revert p. induction C as [|[c y v r|c l y v] C IH]; intros p; simpl.
  - by intros _ ?%elem_of_nil.
  - intros (Hy & Hr & Hc). rewrite elem_of_cons, elem_of_app.
    intros [->|[Hx|Hx]]; eauto 10 using rep_nodes_Some.
  - intros (Hy & Hr & Hc). rewrite elem_of_cons, elem_of_app.
    intros [->|[Hx|Hx]]; eauto 10 using rep_nodes_Some.
Qed.

Lemma RepZ_nodes_Some {st C s} x :
  RepZ st C s → x ∈ nodes s ++ cnodes C →
  ∃ v c q pl pr, heap st !! x = Some (mkNode (Some v) c q pl pr).
Proof.
  intros [_ Hs Hc _ _ _ _ _]. rewrite elem_of_app.
  intros [?|?]; eauto using rep_nodes_Some, crep_nodes_Some.
Qed.

Lemma rep_insert_frame h nil par t p n :
  p ∉ nodes t → rep h nil par t → rep (<[p := n]> h) nil par t.
Proof.
  revert par. induction t as [|c l IHl x v r IHr]; intros par Hp; cbn [rep]; [done|].
  cbn [nodes] in Hp. nd_all. intros (Hx & Hl & Hr).
  rewrite lookup_insert_ne by done. auto.
Qed.

Lemma crep_insert_frame h nil C q p n :
  p ∉ cnodes C → crep h nil C q → crep (<[p := n]> h) nil C q.
Proof.
  revert q. induction C as [|[c x v r|c l x v] C IH]; intros q Hp; cbn [crep]; [done| |].
  - cbn [cnodes fnode fsib] in Hp. nd_all. intros (Hx & Hr & Hc).
    rewrite lookup_insert_ne by done. auto using rep_insert_frame.
  - cbn [cnodes fnode fsib] in Hp. nd_all. intros (Hx & Hr & Hc).
    rewrite lookup_insert_ne by done. auto using rep_insert_frame.
Qed.

Lemma rep_delete_frame h nil par t p :
  p ∉ nodes t → rep h nil par t → rep (delete p h) nil par t.
Proof.
  revert par. induction t as [|c l IHl x v r IHr]; intros par Hp; cbn [rep]; [done|].
  cbn [nodes] in Hp. nd_all. intros (Hx & Hl & Hr).
  rewrite lookup_delete_ne by done. auto.
Qed.

Lemma RepZ_set_size {st C s} n : RepZ st C s → RepZ (set_size st n) C s.
Proof. intros [? ? ? ? ? ? ? ?]. by constructor. Qed.

(** *** Stretches of a path *)

Lemma cpar_app nil (D C : list (@frame T)) : cpar nil (D ++ C) = cparT (cpar nil C) D.
Proof. by destruct D. Qed.

Lemma cnodes_app (D C : list (@frame T)) : cnodes (D ++ C) = cnodes D ++ cnodes C.
Proof.
  induction D as [|F D IH]; [done|]. simpl. by rewrite IH, <- app_assoc.
Qed.

Lemma crep_app h nil (D C : list (@frame T)) p :
  crep h nil (D ++ C) p ↔ cseg h nil (cpar nil C) D p ∧ crep h nil C (ctop D p).
Proof.
  revert p. induction D as [|F D IH]; intros p; simpl; [tauto|].
  destruct F as [c x v r|c l x v]; rewrite IH, cpar_app; tauto.
Qed.

Lemma cseg_alter_frame h nil top (D : list (@frame T)) p q f :
  q ∉ cnodes D → cseg h nil top D p → cseg (alter f q h) nil top D p.
Proof.
  revert p. induction D as [|F D IH]; intros p; [done|].
  destruct F as [c x v r|c l x v]; cbn [cnodes cseg fnode fsib];
    intros Hq (Hx & Hr & Hc); nd_all;
    (split; [by rewrite lookup_alter_ne|]);
    (split; [by apply rep_alter_frame|by apply IH]).
Qed.

Lemma ctop_snoc (D : list (@frame T)) F p : ctop (D ++ [F]) p = fnode F.
Proof. revert p. induction D as [|G D IH]; intros p; simpl; auto. Qed.

(** *** Red-black properties through a path *)

Lemma cbal_eq C n m : n = m → cbal C n → cbal C m.
Proof. by intros ->. Qed.

Lemma color_cases (c : RBColor) : c = RED ∨ c = BLACK.
Proof. destruct c; auto. Qed.

Lemma rbt_plug C s :
  rbt (plug C s) ↔ bal s ∧ cbal C (bh s) ∧ nrr s ∧ cnrr C ∧ hole_ok C s.
Proof.
  revert s. induction C as [|F C IH]; intros s.
  - unfold rbt; simpl. tauto.
  - simpl plug. rewrite IH. clear IH.
    destruct F as [c x v r|c l x v]; simpl.
    + destruct C as [|G C]; simpl.
      * destruct c; intuition (try congruence).
      * destruct c, (fcol G); intuition (try congruence).
    + split.
      * intros ((E1 & ? & ?) & Hc & (? & ? & ?) & ? & Hh).
        rewrite E1 in Hc.
        destruct C as [|G C]; simpl in *.
        -- destruct c; intuition (try congruence).
        -- destruct c, (fcol G); intuition (try congruence).
      * intros (? & (E1 & ? & Hc) & ? & (? & ? & ?) & Hh).
        rewrite <- E1 in Hc.
        destruct C as [|G C]; simpl in *.
        -- destruct c; intuition (try congruence).
        -- destruct c, (fcol G); intuition (try congruence).
Qed.

Lemma hole_ok_black C s : rootc s = BLACK → hole_ok C s.
Proof. destruct C; simpl; auto. Qed.

Lemma items_plug_eq C s s' : items s = items s' → items (plug C s) = items (plug C s').
Proof. intros H. by rewrite !items_plug, H. Qed.

Lemma tsize_Tn c l x v r : tsize (Tn c l x v r) = S (tsize l + tsize r).
Proof. unfold tsize; simpl. rewrite length_app. simpl. lia. Qed.

Lemma plug_app C1 C2 s : plug (C1 ++ C2) s = plug C2 (plug C1 s).
Proof. revert s. induction C1 as [|F C1 IH]; intros s; simpl; auto. Qed.

Lemma nodes_focus t x :
  x ∈ nodes t → ∃ C c l v r, t = plug C (Tn c l x v r).
Proof.
  induction t as [|c l IHl y v r IHr]; simpl; [by intros ?%elem_of_nil|].
  rewrite elem_of_app, elem_of_cons. intros [Hx|[->|Hx]].
  - destruct (IHl Hx) as (C & c' & l' & v' & r' & ->).
    exists (C ++ [FL c y v r]), c', l', v', r'. by rewrite plug_app.
  - by exists [], c, l, v, r.
  - destruct (IHr Hx) as (C & c' & l' & v' & r' & ->).
    exists (C ++ [FR c l y v]), c', l', v', r'. by rewrite plug_app.
Qed.

Lemma tsize_plug C s : (length C + tsize s ≤ tsize (plug C s))%nat.
Proof.
  revert s. induction C as [|F C IH]; intros s; [simpl; lia|].
  specialize (IH (fill F s)). cbn [plug length].
  destruct F; cbn [fill] in *; rewrite tsize_Tn in IH; lia.
Qed.

Lemma tsize_nodes t : length (nodes t) = tsize t.
Proof. unfold tsize. by rewrite nodes_items, length_fmap. Qed.

Lemma rootp_in nil t : t ≠ E → rootp nil t ∈ nodes t.
Proof.
  destruct t as [|c l x v r]; [done|]. intros _. simpl.
  rewrite elem_of_app, elem_of_cons. auto.
Qed.

Lemma tmax_in nil t : t ≠ E → tmax nil t ∈ nodes t.
Proof.
  induction t as [|c l _ x v r IHr]; [done|]. intros _. simpl.
  rewrite elem_of_app, elem_of_cons.
  destruct r as [|cr rl y vr rr]; [auto|]. right; right. by apply IHr.
Qed.

Lemma tmin_in nil t : t ≠ E → tmin nil t ∈ nodes t.
Proof.
  induction t as [|c l IHl x v r _]; [done|]. intros _. simpl.
  rewrite elem_of_app, elem_of_cons.
  destruct l as [|cr rl y vr rr]; [auto|]. left. by apply IHl.
Qed.

End Abstract.

Section Descend.
Context {T : Type}.
Variable comp : T -> T -> bool.
Implicit Types s t : @tree T.
Implicit Types C : list (@frame T).

Lemma descend_inl k s C C' :
  descend comp k s C = inl C' → plug C' E = plug C s.
Proof.
  revert C. induction s as [|c l IHl x v r IHr]; intros C; simpl.
  - by intros [= ->].
  - destruct (comp k v); [apply IHl|].
    destruct (comp v k); [apply IHr|done].
Qed.

Lemma descend_inr k s C x :
  descend comp k s C = inr x →
  ∃ v, (x, v) ∈ items s ∧ comp k v = false ∧ comp v k = false.
Proof.
  revert C. induction s as [|c l IHl y v r IHr]; intros C; simpl; [done|].
  destruct (comp k v) eqn:E1.
  { intros H. destruct (IHl _ H) as (w & Hw & ?). exists w.
    rewrite elem_of_app. auto. }
  destruct (comp v k) eqn:E2.
  { intros H. destruct (IHr _ H) as (w & Hw & ?). exists w.
    rewrite elem_of_app, elem_of_cons. auto. }
  intros [= <-]. exists v. rewrite elem_of_app, elem_of_cons. auto.
Qed.

End Descend.

(** ** Reading and writing known cells *)

Section Cells.
Context {T : Type}.
Implicit Types st : RBTree T.

Lemma node_at_cell st p n : heap st !! p = Some n → node_at st p = n.
Proof. intros H. unfold node_at. by apply lookup_total_correct. Qed.

Lemma cell_upd_eq st p f n :
  heap st !! p = Some n → heap (upd st p f) !! p = Some (f n).
Proof. intros H. unfold upd; simpl. by rewrite lookup_alter_eq, H. Qed.

Lemma cell_upd_ne st p f x n :
  p ≠ x → heap st !! x = Some n → heap (upd st p f) !! x = Some n.
Proof. intros Hne H. unfold upd; simpl. by rewrite lookup_alter_ne. Qed.

Lemma is_real_cell_gen st p n :
  heap st !! p = Some n →
  is_real st p = match value n with Some _ => true | None => false end.
Proof. intros H. unfold is_real. by rewrite (node_at_cell _ _ _ H). Qed.

Lemma none_upd st p f x :
  heap st !! x = None → heap (upd st p f) !! x = None.
Proof. intros H. unfold upd; simpl. by apply lookup_alter_None. Qed.

Lemma dom_upd st p f : dom (heap (upd st p f)) = dom (heap st).
Proof. unfold upd; simpl. apply dom_alter_L. Qed.

Lemma rep_upd_frame st nil par (t : @tree T) p f :
  p ∉ nodes t → rep (heap st) nil par t → rep (heap (upd st p f)) nil par t.
Proof. apply rep_alter_frame. Qed.

Lemma crep_upd_frame st nil (C : list (@frame T)) q p f :
  p ∉ cnodes C → crep (heap st) nil C q → crep (heap (upd st p f)) nil C q.
Proof. apply crep_alter_frame. Qed.

Lemma cseg_upd_frame st nil top (D : list (@frame T)) q p f :
  p ∉ cnodes D → cseg (heap st) nil top D q → cseg (heap (upd st p f)) nil top D q.
Proof. apply cseg_alter_frame. Qed.

End Cells.

Arguments set_parent : simpl never.
Arguments set_left : simpl never.
Arguments set_right : simpl never.
Arguments set_color : simpl never.
Arguments set_root : simpl never.
Arguments set_size : simpl never.
Arguments upd : simpl never.
Arguments node_at : simpl never.

Ltac ne_solve :=
  first [ nd_close
        | apply rootp_ne; nd_close
        | apply not_eq_sym; apply rootp_ne; nd_close ].

(** [cell] finds the record of a cell after a sequence of assignments. *)
Ltac cell :=
  lazymatch goal with
  | |- heap (set_root ?st ?r) !! ?x = _ =>
      change (heap (set_root st r) !! x) with (heap st !! x); cell
  | |- heap (set_size ?st ?r) !! ?x = _ =>
      change (heap (set_size st r) !! x) with (heap st !! x); cell
  | |- heap (set_parent ?st ?p _) !! ?x = _ =>
      first [ apply cell_upd_ne; [nd_close | cell] | apply cell_upd_eq; cell ]
  | |- heap (set_left ?st ?p _) !! ?x = _ =>
      first [ apply cell_upd_ne; [nd_close | cell] | apply cell_upd_eq; cell ]
  | |- heap (set_right ?st ?p _) !! ?x = _ =>
      first [ apply cell_upd_ne; [nd_close | cell] | apply cell_upd_eq; cell ]
  | |- heap (set_color ?st ?p _) !! ?x = _ =>
      first [ apply cell_upd_ne; [nd_close | cell] | apply cell_upd_eq; cell ]
  | |- _ => eassumption
  end.

Ltac proj_simpl := cbn [value color parent leftChild rightChild] in *.

(** [hread] replaces every field read of a known cell by its value. *)
Ltac hread1 :=
  match goal with
  | |- context [node_at ?ST ?p] =>
      let H := fresh "Hcell" in
      eassert (heap ST !! p = Some _) as H by cell;
      rewrite (node_at_cell ST p _ H); clear H;
      cbn [value color parent leftChild rightChild]
  end.
Ltac bdec :=
  repeat match goal with
  | |- context [bool_decide (?p = ?q)] =>
      first [ rewrite (bool_decide_eq_true_2 (p = q)) by (reflexivity || assumption)
            | rewrite (bool_decide_eq_false_2 (p = q))
                by first [ ne_solve | discriminate ] ]
  | |- context [bool_decide (?p ≠ ?q)] =>
      first [ rewrite (bool_decide_eq_true_2 (p ≠ q)) by nd_close
            | rewrite (bool_decide_eq_false_2 (p ≠ q)) by (intros ?; congruence) ]
  end.
Ltac hread :=
  cbn [andb orb negb];
  repeat first [ hread1 | progress bdec | progress cbn [andb orb negb] ].

(** Frames: the part of the heap a sequence of assignments did not touch. *)
Ltac frame :=
  lazymatch goal with
  | |- rep (heap (set_root ?st ?r)) ?n ?p ?t =>
      change (rep (heap st) n p t); frame
  | |- rep (heap (set_size ?st ?r)) ?n ?p ?t =>
      change (rep (heap st) n p t); frame
  | |- rep (heap (set_parent _ _ _)) _ _ _ => apply rep_upd_frame; [nd_close | frame]
  | |- rep (heap (set_left _ _ _)) _ _ _ => apply rep_upd_frame; [nd_close | frame]
  | |- rep (heap (set_right _ _ _)) _ _ _ => apply rep_upd_frame; [nd_close | frame]
  | |- rep (heap (set_color _ _ _)) _ _ _ => apply rep_upd_frame; [nd_close | frame]
  | |- crep (heap (set_root ?st ?r)) ?n ?C ?p =>
      change (crep (heap st) n C p); frame
  | |- crep (heap (set_size ?st ?r)) ?n ?C ?p =>
      change (crep (heap st) n C p); frame
  | |- crep (heap (set_parent _ _ _)) _ _ _ => apply crep_upd_frame; [nd_close | frame]
  | |- crep (heap (set_left _ _ _)) _ _ _ => apply crep_upd_frame; [nd_close | frame]
  | |- crep (heap (set_right _ _ _)) _ _ _ => apply crep_upd_frame; [nd_close | frame]
  | |- crep (heap (set_color _ _ _)) _ _ _ => apply crep_upd_frame; [nd_close | frame]
  | |- cseg (heap (set_root ?st ?r)) ?n ?t ?C ?p =>
      change (cseg (heap st) n t C p); frame
  | |- cseg (heap (set_size ?st ?r)) ?n ?t ?C ?p =>
      change (cseg (heap st) n t C p); frame
  | |- cseg (heap (set_parent _ _ _)) _ _ _ _ => apply cseg_upd_frame; [nd_close | frame]
  | |- cseg (heap (set_left _ _ _)) _ _ _ _ => apply cseg_upd_frame; [nd_close | frame]
  | |- cseg (heap (set_right _ _ _)) _ _ _ _ => apply cseg_upd_frame; [nd_close | frame]
  | |- cseg (heap (set_color _ _ _)) _ _ _ _ => apply cseg_upd_frame; [nd_close | frame]
  | |- _ => assumption
  end.

(** A cell goal with the expected record given. *)
Ltac cell_goal :=
  lazymatch goal with
  | |- heap ?ST !! ?x = Some _ =>
      let H := fresh "Hcell" in
      eassert (heap ST !! x = Some _) as H by cell;
      cbn [value color parent leftChild rightChild] in H;
      exact H
  end.

Ltac dom_goal :=
  unfold set_parent, set_left, set_right, set_color, set_root, set_size, upd;
  simpl; rewrite ?dom_alter_L; try reflexivity.

(** [_nil], [_root] and [_size] after a sequence of assignments. *)
Ltac meta_norm :=
  repeat match goal with
  | |- context [_nil ?ST] =>
      lazymatch ST with
      | set_parent ?s _ _ => change (_nil ST) with (_nil s)
      | set_left ?s _ _ => change (_nil ST) with (_nil s)
      | set_right ?s _ _ => change (_nil ST) with (_nil s)
      | set_color ?s _ _ => change (_nil ST) with (_nil s)
      | set_root ?s _ => change (_nil ST) with (_nil s)
      | set_size ?s _ => change (_nil ST) with (_nil s)
      end
  | |- context [_size ?ST] =>
      lazymatch ST with
      | set_parent ?s _ _ => change (_size ST) with (_size s)
      | set_left ?s _ _ => change (_size ST) with (_size s)
      | set_right ?s _ _ => change (_size ST) with (_size s)
      | set_color ?s _ _ => change (_size ST) with (_size s)
      | set_root ?s _ => change (_size ST) with (_size s)
      | set_size ?s ?n => change (_size ST) with n
      end
  | |- context [_root ?ST] =>
      lazymatch ST with
      | set_parent ?s _ _ => change (_root ST) with (_root s)
      | set_left ?s _ _ => change (_root ST) with (_root s)
      | set_right ?s _ _ => change (_root ST) with (_root s)
      | set_color ?s _ _ => change (_root ST) with (_root s)
      | set_root ?s ?r => change (_root ST) with r
      | set_size ?s _ => change (_root ST) with (_root s)
      end
  end.

Ltac none_goal :=
  lazymatch goal with
  | |- heap (set_root ?st ?r) !! ?x = None =>
      change (heap st !! x = None); none_goal
  | |- heap (set_size ?st ?r) !! ?x = None =>
      change (heap st !! x = None); none_goal
  | |- heap (set_parent _ _ _) !! _ = None => apply none_upd; none_goal
  | |- heap (set_left _ _ _) !! _ = None => apply none_upd; none_goal
  | |- heap (set_right _ _ _) !! _ = None => apply none_upd; none_goal
  | |- heap (set_color _ _ _) !! _ = None => apply none_upd; none_goal
  | |- _ => assumption
  end.

(** The detached cells stay as they are. *)
Ltac extra_goal :=
  lazymatch goal with
  | |- Forall _ [] => apply Forall_nil_2
  | |- Forall _ (_ :: _) =>
      repeat (apply Forall_cons; split; [|]);
      cbn [fst snd nodes cnodes fnode fsib];
      repeat match goal with
      | |- Forall _ [] => apply Forall_nil_2
      | |- outcell _ _ _ =>
          split; [cbn [fst snd]; cell_goal
                 |split; cbn [fst snd]; meta_norm; [nd_goal|nd_close]]
      | |- Forall _ ?X => is_var X; fail
      end
  | Hx : Forall (outcell _ _) ?X |- Forall (outcell _ _) ?X =>
      let pn := fresh "pn" in
      let Hp := fresh "Hp" in
      let Ho := fresh "Ho" in
      let Hn := fresh "Hn" in
      eapply Forall_impl; [exact Hx|];
      intros pn (Hp & Ho & Hn);
      cbn [nodes cnodes fnode fsib] in Ho; nd_all;
      split; [cell_goal
             |split; [cbn [nodes cnodes fnode fsib]; nd_goal
                     |meta_norm; nd_close]]
  end.

(** The pieces of a [RepZ] goal on an explicit final state. *)
Ltac repz_goal :=
  constructor; meta_norm;
  [ first [ simpl; congruence
          | simpl; etrans; [eassumption|];
            first [ apply rootp_plug_FL | apply rootp_plug_FR ]
          | idtac ]
  | cbn [rep rootp cpar fnode]; repeat split; first [ cell_goal | frame | idtac ]
  | cbn [crep rootp cpar fnode]; repeat split; first [ cell_goal | frame | idtac ]
  | eexists; cell_goal
  | cbn [nodes cnodes fnode fsib]; nd_goal
  | cbn [nodes cnodes fnode fsib]; nd_goal
  | none_goal
  | extra_goal ].

(** [rz_open H] lists what a [RepZ] fact says about the nodes in sight. *)
Ltac rz_open H :=
  let Hroot := fresh "Hroot" in
  let Hsub := fresh "Hsub" in
  let Hctx := fresh "Hctx" in
  let np := fresh "np" in
  let Hnil := fresh "Hnil" in
  let Hnd := fresh "Hnd" in
  let Hout := fresh "Hout" in
  let Hnull := fresh "Hnull" in
  let Hextra := fresh "Hextra" in
  destruct H as [Hroot Hsub Hctx [np Hnil] Hnd Hout Hnull Hextra];
  cbn [rep crep rootp cpar fnode fsib nodes cnodes plug fill]
    in Hroot, Hsub, Hctx, Hnd, Hout, Hextra;
  repeat match goal with
  | Hx : Forall _ (_ :: _) |- _ =>
      apply Forall_cons in Hx; destruct Hx as [(? & ? & ?) Hx];
      cbn [fst snd] in *
  | Hx : Forall _ [] |- _ => clear Hx
  end;
  destruct_and?; nd_all;
  repeat match goal with
  | Hc : heap ?st !! ?x = Some _, Hn : heap ?st !! NULL = None |- _ =>
      lazymatch goal with
      | _ : x ≠ NULL |- _ => fail
      | _ => assert (x ≠ NULL) by (intros ?; congruence)
      end
  end.

(** [rz_cells R] lists the cells of the nodes in sight only. *)
Ltac rz_cells R :=
  let R' := fresh "R" in
  let Hsub := fresh "Hsub" in
  let Hctx := fresh "Hctx" in
  let np := fresh "np" in
  let Hnil := fresh "Hnil" in
  let Hnull := fresh "Hnull" in
  pose proof R as R';
  let Hextra := fresh "Hextra" in
  destruct R' as [_ Hsub Hctx [np Hnil] _ _ Hnull Hextra];
  cbn [rep crep rootp cpar fnode fsib] in Hsub, Hctx;
  repeat match goal with
  | Hx : Forall _ (_ :: _) |- _ =>
      apply Forall_cons in Hx; destruct Hx as [(? & _ & _) Hx];
      cbn [fst snd] in *
  | Hx : Forall _ [] |- _ => clear Hx
  end;
  try clear Hextra;
  destruct_and?.

(** The sentinel is the same in every state of a chain of steps. *)
Ltac nil_norm :=
  repeat match goal with
  | F : same_frame ?a ?b |- _ => progress (rewrite (proj1 F) in * )
  end.

(** [hrd] replaces the reads of cells listed in the context. *)
Ltac hrd1 :=
  match goal with
  | Hc : heap ?ST !! ?p = Some _ |- context [node_at ?ST ?p] =>
      rewrite !(node_at_cell ST p _ Hc);
      cbn [value color parent leftChild rightChild]
  | Hc : heap ?ST !! ?p = Some _ |- context [is_real ?ST ?p] =>
      rewrite !(is_real_cell_gen ST p _ Hc);
      cbn [value color parent leftChild rightChild]
  end.
Ltac hrd :=
  cbn [andb orb negb];
  repeat first [ hrd1 | progress bdec | progress cbn [andb orb negb] ].

(** Side conditions on colors and black heights. *)
Ltac rb_hyps :=
  cbn [bal nrr bh cbal cnrr rootc c2n fsib fcol hole_ok cparent_black plug fill] in *;
  repeat match goal with
  | H : _ ∧ _ |- _ => destruct H
  | H : RED = RED → _ |- _ => specialize (H eq_refl)
  | H : BLACK = BLACK → _ |- _ => specialize (H eq_refl)
  | H : BLACK = RED → _ |- _ => clear H
  | H : RED = BLACK → _ |- _ => clear H
  | H : True |- _ => clear H
  | H : False |- _ => destruct H
  | H : RED = BLACK |- _ => discriminate H
  | H : BLACK = RED |- _ => discriminate H
  end.
Ltac rb_goal :=
  repeat match goal with
  | |- _ ∧ _ => split
  | |- _ → _ => intros ?
  | |- True => exact I
  end;
  rb_hyps;
  try first [ reflexivity | assumption | lia | congruence
            | eapply cbal_eq; [|eassumption]; lia ].
Ltac rb_clean :=
  repeat match goal with
  | H : heap _ !! _ = _ |- _ => clear H
  | H : rep _ _ _ _ |- _ => clear H
  | H : crep _ _ _ _ |- _ => clear H
  | H : RepX _ _ _ _ |- _ => clear H
  | H : Forall _ _ |- _ => clear H
  | H : same_frame _ _ |- _ => clear H
  | H : NoDup _ |- _ => clear H
  | H : ldisj _ _ |- _ => clear H
  | H : _ ∉ _ |- _ => clear H
  | H : @eq N _ _ |- _ => clear H
  | H : not (@eq N _ _) |- _ => clear H
  | H : ∀ _, _ |- _ => clear H
  end.
Ltac rb_crush := rb_clean; rb_hyps; rb_goal.

Ltac same_frame_goal :=
  repeat split; meta_norm; try reflexivity;
  [ dom_goal
  | etrans; [ cell | symmetry; eassumption ] ].

(** One assignment at a time: the bound expression is evaluated before it
    is substituted. *)
Ltac let_step :=
  lazymatch goal with
  | |- (let x := ?e in @?b x) = _ =>
      let H := fresh "Hlet" in
      eassert (e = _) as H by (try unfold is_real; hread; reflexivity);
      etrans; [exact (f_equal b H)|]; clear H; cbv beta
  end.
Ltac let_run := repeat let_step; try unfold is_real; hread; reflexivity.

Ltac dom_chain :=
  repeat lazymatch goal with
  | |- dom (heap (set_root ?s _)) = ?r => change (dom (heap s) = r)
  | |- dom (heap (set_size ?s _)) = ?r => change (dom (heap s) = r)
  | |- dom (heap (set_parent ?s _ _)) = _ => etrans; [apply (dom_upd s)|]
  | |- dom (heap (set_left ?s _ _)) = _ => etrans; [apply (dom_upd s)|]
  | |- dom (heap (set_right ?s _ _)) = _ => etrans; [apply (dom_upd s)|]
  | |- dom (heap (set_color ?s _ _)) = _ => etrans; [apply (dom_upd s)|]
  end;
  reflexivity.
Ltac kept_goal := repeat split; meta_norm; try reflexivity; dom_chain.
(** ** The member functions on represented trees *)

Section Refine.
Context {T : Type}.
Variable comp : T -> T -> bool.
Implicit Types st : RBTree T.
Implicit Types h : gmap N (RBTreeNode T).
Implicit Types s t a b d l r : @tree T.
Implicit Types C : list (@frame T).
Context {X : list (N * RBTreeNode T)}.
Local Abbreviation RepZ st C s := (RepX st X C s) (only parsing).
Local Abbreviation RepT st t := (RepX st X [] t) (only parsing).

Lemma same_frame_refl st : same_frame st st.
Proof. by repeat split. Qed.

Lemma same_frame_trans st1 st2 st3 :
  same_frame st1 st2 → same_frame st2 st3 → same_frame st1 st3.
Proof.
  intros (A1 & A2 & A3 & A4) (B1 & B2 & B3 & B4). repeat split; congruence.
Qed.

Lemma rotate_left_spec {st C c a x v c' b y w d} :
  RepZ st C (Tn c a x v (Tn c' b y w d)) →
  RepZ (rotate_left st x) C (Tn c' (Tn c a x v b) y w d)
  ∧ same_frame st (rotate_left st x).
Proof.
  intros [Hr Hs Hc [np Hn] Hd Ho Hz Hx].
  destruct b as [|cb bl z vb br]; destruct C as [|[cg g vg gr|cg gl g vg] C];
    simpl in Hr, Hs, Hc, Hd, Ho, Hx; destruct_and?; nd_all;
    unfold rotate_left, is_real; hread.
  all: split; [repz_goal | same_frame_goal].
Qed.

Lemma rotate_right_spec {st C c a x v c' b y w d} :
  RepZ st C (Tn c (Tn c' a y w b) x v d) →
  RepZ (rotate_right st x) C (Tn c' a y w (Tn c b x v d))
  ∧ same_frame st (rotate_right st x).
Proof.
  intros [Hr Hs Hc [np Hn] Hd Ho Hz Hx].
  destruct b as [|cb bl z vb br]; destruct C as [|[cg g vg gr|cg gl g vg] C];
    simpl in Hr, Hs, Hc, Hd, Ho, Hx; destruct_and?; nd_all;
    unfold rotate_right, is_real; hread.
  all: split; [repz_goal | same_frame_goal].
Qed.

Lemma set_color_spec c' {st C c a x v b} :
  RepZ st C (Tn c a x v b) →
  RepZ (set_color st x c') C (Tn c' a x v b)
  ∧ same_frame st (set_color st x c').
Proof.
  intros [Hr Hs Hc [np Hn] Hd Ho Hz Hx].
  destruct C as [|[cg g vg gr|cg gl g vg] C];
    simpl in Hr, Hs, Hc, Hd, Ho, Hx; destruct_and?; nd_all.
  all: split; [repz_goal | same_frame_goal].
Qed.

(** Recoloring and rotating below the subtree in focus. *)
Local Abbreviation steps st st' C s' := (stepped X st st' C s') (only parsing).

Lemma set_color_L c' {st C c cl ll y vl lr x v r} :
  RepZ st C (Tn c (Tn cl ll y vl lr) x v r) →
  steps st (set_color st y c') C (Tn c (Tn c' ll y vl lr) x v r).
Proof.
  intros H. apply (RepZ_down (F:=FL c x v r)) in H.
  destruct (set_color_spec c' H) as [H1 F1]. split; [|done].
  by apply (RepZ_up (F:=FL c x v r)) in H1.
Qed.

Lemma set_color_R c' {st C c l x v cr rl y vr rr} :
  RepZ st C (Tn c l x v (Tn cr rl y vr rr)) →
  steps st (set_color st y c') C (Tn c l x v (Tn c' rl y vr rr)).
Proof.
  intros H. apply (RepZ_down (F:=FR c l x v)) in H.
  destruct (set_color_spec c' H) as [H1 F1]. split; [|done].
  by apply (RepZ_up (F:=FR c l x v)) in H1.
Qed.

Lemma rotate_left_L {st C c0 x0 v0 r0 c a x v c' b y w d} :
  RepZ st C (Tn c0 (Tn c a x v (Tn c' b y w d)) x0 v0 r0) →
  steps st (rotate_left st x) C (Tn c0 (Tn c' (Tn c a x v b) y w d) x0 v0 r0).
Proof.
  intros H. apply (RepZ_down (F:=FL c0 x0 v0 r0)) in H.
  destruct (rotate_left_spec H) as [H1 F1]. split; [|done].
  by apply (RepZ_up (F:=FL c0 x0 v0 r0)) in H1.
Qed.

Lemma rotate_left_R {st C c0 l0 x0 v0 c a x v c' b y w d} :
  RepZ st C (Tn c0 l0 x0 v0 (Tn c a x v (Tn c' b y w d))) →
  steps st (rotate_left st x) C (Tn c0 l0 x0 v0 (Tn c' (Tn c a x v b) y w d)).
Proof.
  intros H. apply (RepZ_down (F:=FR c0 l0 x0 v0)) in H.
  destruct (rotate_left_spec H) as [H1 F1]. split; [|done].
  by apply (RepZ_up (F:=FR c0 l0 x0 v0)) in H1.
Qed.

Lemma rotate_right_L {st C c0 x0 v0 r0 c a x v c' b y w d} :
  RepZ st C (Tn c0 (Tn c (Tn c' a y w b) x v d) x0 v0 r0) →
  steps st (rotate_right st x) C (Tn c0 (Tn c' a y w (Tn c b x v d)) x0 v0 r0).
Proof.
  intros H. apply (RepZ_down (F:=FL c0 x0 v0 r0)) in H.
  destruct (rotate_right_spec H) as [H1 F1]. split; [|done].
  by apply (RepZ_up (F:=FL c0 x0 v0 r0)) in H1.
Qed.

Lemma rotate_right_R {st C c0 l0 x0 v0 c a x v c' b y w d} :
  RepZ st C (Tn c0 l0 x0 v0 (Tn c (Tn c' a y w b) x v d)) →
  steps st (rotate_right st x) C (Tn c0 l0 x0 v0 (Tn c' a y w (Tn c b x v d))).
Proof.
  intros H. apply (RepZ_down (F:=FR c0 l0 x0 v0)) in H.
  destruct (rotate_right_spec H) as [H1 F1]. split; [|done].
  by apply (RepZ_up (F:=FR c0 l0 x0 v0)) in H1.
Qed.

(** *** Descents along one side *)

Lemma is_real_nil st (np : N) :
  heap st !! _nil st = Some (mkNode None BLACK np (_nil st) (_nil st)) →
  is_real st (_nil st) = false.
Proof. intros H. unfold is_real. by rewrite (node_at_cell _ _ _ H). Qed.

Lemma rightmost_spec st par s fuel :
  nilcell (heap st) (_nil st) →
  rep (heap st) (_nil st) par s →
  (tsize s < fuel)%nat →
  rightmost fuel st (rootp (_nil st) s) = Some (tmax (_nil st) s).
Proof.
  intros [np Hn]. revert par fuel.
  induction s as [|c l _ x v r IHr]; intros par fuel Hs Hf.
  - destruct fuel as [|fuel]; [lia|]. simpl.
    hread. by rewrite (is_real_nil _ _ Hn).
  - destruct fuel as [|fuel]; [lia|]. rewrite tsize_Tn in Hf.
    simpl in Hs. destruct Hs as (Hx & Hl & Hr).
    cbn [rightmost rootp tmax]. hread.
    destruct r as [|cr rl y vr rr].
    + cbn [rootp]. by rewrite (is_real_nil _ _ Hn).
    + specialize (IHr x fuel Hr ltac:(lia)).
      simpl in Hr. destruct Hr as (Hy & _). cbn [rootp] in *.
      unfold is_real. hread. exact IHr.
Qed.

Lemma leftmost_spec st par s fuel :
  nilcell (heap st) (_nil st) →
  rep (heap st) (_nil st) par s →
  (tsize s < fuel)%nat →
  leftmost fuel st (rootp (_nil st) s) = Some (tmin (_nil st) s).
Proof.
  intros [np Hn]. revert par fuel.
  induction s as [|c l IHl x v r _]; intros par fuel Hs Hf.
  - destruct fuel as [|fuel]; [lia|]. simpl.
    hread. by rewrite (is_real_nil _ _ Hn).
  - destruct fuel as [|fuel]; [lia|]. rewrite tsize_Tn in Hf.
    simpl in Hs. destruct Hs as (Hx & Hl & Hr).
    cbn [leftmost rootp tmin]. hread.
    destruct l as [|cr rl y vr rr].
    + cbn [rootp]. by rewrite (is_real_nil _ _ Hn).
    + specialize (IHl x fuel Hl ltac:(lia)).
      simpl in Hl. destruct Hl as (Hy & _). cbn [rootp] in *.
      unfold is_real. hread. exact IHl.
Qed.

(** *** The descent of [get_position] *)

Lemma get_position_spec k new nn fuel : ∀ s C st,
  (tsize s < fuel)%nat → s ≠ E →
  RepX st [] C s →
  heap st !! new = Some nn → value nn = Some k →
  new ∉ (nodes s ++ cnodes C) → new ≠ _nil st →
  match descend comp k s C with
  | inl C' =>
      ∃ st', get_position comp fuel st (rootp (_nil st) s) new
             = Some (st', (cpar (_nil st) C', true))
        ∧ RepX st' [] C' (Tn RED E new k E) ∧ same_frame st st'
  | inr x =>
      get_position comp fuel st (rootp (_nil st) s) new = Some (st, (x, false))
  end.
Proof.
  destruct nn as [nv nc npar nl nr]. simpl.
  induction fuel as [|fuel IH]; intros s C st Hf Hs H Hnew Hval Hfresh Hnn; [lia|].
  subst nv.
  destruct s as [|c l x v r]; [done|]. clear Hs.
  rewrite tsize_Tn in Hf.
  cbn [get_position descend rootp].
  destruct (comp k v) eqn:Ekv; [|destruct (comp v k) eqn:Evk].
  - destruct l as [|cl ll y vl lr].
    + cbn [nodes cnodes] in Hfresh. pose proof H as H'. rz_open H'.
      hread. rewrite Ekv.
      cbn [rootp descend]. rewrite (is_real_nil _ _ Hnil). cbn [negb].
      eexists. split; [reflexivity|]. meta_norm.
      split; [repz_goal | same_frame_goal].
    + specialize (IH (Tn cl ll y vl lr) (FL c x v r :: C) st ltac:(lia) ltac:(done)
                     (RepZ_down (F:=FL c x v r) H) Hnew eq_refl).
      cbn [nodes cnodes] in Hfresh. pose proof H as H'. rz_open H'.
      hread. rewrite Ekv. unfold is_real. hread. cbn [negb].
      apply IH; [|done]. cbn [nodes cnodes fnode fsib]. nd_goal.
  - destruct r as [|cr rl y vr rr].
    + cbn [nodes cnodes] in Hfresh. pose proof H as H'. rz_open H'.
      hread. rewrite Ekv, Evk.
      cbn [rootp descend]. rewrite (is_real_nil _ _ Hnil). cbn [negb].
      eexists. split; [reflexivity|]. meta_norm.
      split; [repz_goal | same_frame_goal].
    + specialize (IH (Tn cr rl y vr rr) (FR c l x v :: C) st ltac:(lia) ltac:(done)
                     (RepZ_down (F:=FR c l x v) H) Hnew eq_refl).
      cbn [nodes cnodes] in Hfresh. pose proof H as H'. rz_open H'.
      hread. rewrite Ekv, Evk. unfold is_real. hread. cbn [negb].
      apply IH; [|done]. cbn [nodes cnodes fnode fsib]. nd_goal.
  - pose proof H as H'. rz_open H'. hread. by rewrite Ekv, Evk.
Qed.

(** *** Rebalancing after an insertion *)

Lemma is_real_cell st (p : N) (v : T) c (q pl pr : N) :
  heap st !! p = Some (mkNode (Some v) c q pl pr) → is_real st p = true.
Proof. intros H. unfold is_real. by rewrite (node_at_cell _ _ _ H). Qed.

Ltac ins_run :=
  nil_norm;
  unfold insert_case2; hrd;
  unfold insert_case3, get_uncle, get_grandparent; hrd;
  try (unfold insert_case4, get_grandparent; hrd;
       unfold insert_case5, get_grandparent; hrd).

Ltac items_goal :=
  cbn [plug fill]; apply items_plug_eq; simpl;
  repeat (progress (rewrite <- ?app_assoc; simpl)); reflexivity.

Ltac fin R :=
  eexists _, _; split; [reflexivity|];
  split; [apply (RepZ_plug R)|];
  split; [apply rbt_plug; rb_crush; try (apply hole_ok_black; reflexivity)|];
  split; [items_goal | eauto using same_frame_trans].

Ltac ins_rec IH R :=
  let st' := fresh "st'" in
  let t' := fresh "t'" in
  let Hrun := fresh "Hrun" in
  let HRep := fresh "HRep" in
  let Hrbt := fresh "Hrbt" in
  let Hit := fresh "Hit" in
  let Hfr := fresh "Hfr" in
  lazymatch type of R with
  | RepZ _ ?C _ =>
      destruct (IH C _ _ _ _ _ ltac:(simpl in *; lia) R)
        as (st' & t' & Hrun & HRep & Hrbt & Hit & Hfr); [rb_crush ..|]
  end;
  exists st', t'; split; [exact Hrun|]; split; [done|]; split; [done|];
  split; [rewrite Hit; items_goal | eauto using same_frame_trans].

Lemma insert_case1_spec fuel : ∀ C st l x v r,
  (length C < fuel)%nat →
  RepZ st C (Tn RED l x v r) →
  bal (Tn RED l x v r) → cbal C (bh (Tn RED l x v r)) →
  nrr (Tn RED l x v r) → cnrr C →
  ∃ st' t', insert_case1 fuel st x = Some st' ∧ RepT st' t' ∧ rbt t'
    ∧ items t' = items (plug C (Tn RED l x v r)) ∧ same_frame st st'.
Proof.
  induction fuel as [|fuel IH]; intros C st l x v r Hf H Hb Hcb Hn Hcn;
    [simpl in Hf; lia|].
  cbn [insert_case1].
  destruct C as [|F C].
  { pose proof H as H'. rz_open H'. hrd.
    destruct (set_color_spec BLACK H) as [R1 F1].
    eexists _, _. split; [reflexivity|]. split; [exact R1|].
    split; [|split; [reflexivity|exact F1]].
    unfold rbt. rb_crush. }
  destruct (color_cases (fcol F)) as [EF|EF].
  2:{ eexists st, _. split; [|split; [apply (RepZ_plug H)|]].
      - destruct F as [cP P vP sP|cP sP P vP]; simpl in EF; subst cP;
          pose proof H as H'; rz_open H'; hrd;
          unfold insert_case2; hrd; reflexivity.
      - split; [|split; [reflexivity|apply same_frame_refl]].
        apply rbt_plug. destruct F; simpl in EF; subst; rb_crush. }
  destruct C as [|G C]; [destruct F; simpl in EF; subst; rb_crush|].
  assert (fcol G = BLACK) as EG by (destruct F; simpl in EF; subst; rb_crush).
  simpl in Hf.
  pose proof (RepZ_up (RepZ_up H)) as Hg.
  destruct F as [cP P vP sP|cP sP P vP]; destruct G as [cG g vg U|cG U g vg];
    simpl in EF, EG; subst cP cG; cbn [fill] in Hg;
    destruct U as [|[|] ul u vu ur].
  (* x left of P, P left of g *)
  - pose proof H as H'. rz_open H'.
    destruct (set_color_L BLACK Hg) as [R1 F1].
    destruct (set_color_spec RED R1) as [R2 F2].
    destruct (rotate_right_spec R2) as [R3 F3].
    rz_cells R1.
    rz_cells R2.
    ins_run.
    fin R3.
  - pose proof H as H'. rz_open H'.
    destruct (set_color_L BLACK Hg) as [R1 F1].
    destruct (set_color_R BLACK R1) as [R2 F2].
    destruct (set_color_spec RED R2) as [R3 F3].
    rz_cells R1.
    rz_cells R2.
    rz_cells R3.
    ins_run.
    ins_rec IH R3.
  - pose proof H as H'. rz_open H'.
    destruct (set_color_L BLACK Hg) as [R1 F1].
    destruct (set_color_spec RED R1) as [R2 F2].
    destruct (rotate_right_spec R2) as [R3 F3].
    rz_cells R1.
    rz_cells R2.
    ins_run.
    fin R3.
  (* x left of P, P right of g *)
  - pose proof H as H'. rz_open H'.
    destruct (rotate_right_R Hg) as [R1 F1].
    destruct (set_color_R BLACK R1) as [R2 F2].
    destruct (set_color_spec RED R2) as [R3 F3].
    destruct (rotate_left_spec R3) as [R4 F4].
    rz_cells R1.
    rz_cells R2.
    rz_cells R3.
    ins_run.
    fin R4.
  - pose proof H as H'. rz_open H'.
    destruct (set_color_R BLACK Hg) as [R1 F1].
    destruct (set_color_L BLACK R1) as [R2 F2].
    destruct (set_color_spec RED R2) as [R3 F3].
    rz_cells R1.
    rz_cells R2.
    rz_cells R3.
    ins_run.
    ins_rec IH R3.
  - pose proof H as H'. rz_open H'.
    destruct (rotate_right_R Hg) as [R1 F1].
    destruct (set_color_R BLACK R1) as [R2 F2].
    destruct (set_color_spec RED R2) as [R3 F3].
    destruct (rotate_left_spec R3) as [R4 F4].
    rz_cells R1.
    rz_cells R2.
    rz_cells R3.
    ins_run.
    fin R4.
  (* x right of P, P left of g *)
  - pose proof H as H'. rz_open H'.
    destruct (rotate_left_L Hg) as [R1 F1].
    destruct (set_color_L BLACK R1) as [R2 F2].
    destruct (set_color_spec RED R2) as [R3 F3].
    destruct (rotate_right_spec R3) as [R4 F4].
    rz_cells R1.
    rz_cells R2.
    rz_cells R3.
    ins_run.
    fin R4.
  - pose proof H as H'. rz_open H'.
    destruct (set_color_L BLACK Hg) as [R1 F1].
    destruct (set_color_R BLACK R1) as [R2 F2].
    destruct (set_color_spec RED R2) as [R3 F3].
    rz_cells R1.
    rz_cells R2.
    rz_cells R3.
    ins_run.
    ins_rec IH R3.
  - pose proof H as H'. rz_open H'.
    destruct (rotate_left_L Hg) as [R1 F1].
    destruct (set_color_L BLACK R1) as [R2 F2].
    destruct (set_color_spec RED R2) as [R3 F3].
    destruct (rotate_right_spec R3) as [R4 F4].
    rz_cells R1.
    rz_cells R2.
    rz_cells R3.
    ins_run.
    fin R4.
  (* x right of P, P right of g *)
  - pose proof H as H'. rz_open H'.
    destruct (set_color_R BLACK Hg) as [R1 F1].
    destruct (set_color_spec RED R1) as [R2 F2].
    destruct (rotate_left_spec R2) as [R3 F3].
    rz_cells R1.
    rz_cells R2.
    ins_run.
    fin R3.
  - pose proof H as H'. rz_open H'.
    destruct (set_color_R BLACK Hg) as [R1 F1].
    destruct (set_color_L BLACK R1) as [R2 F2].
    destruct (set_color_spec RED R2) as [R3 F3].
    rz_cells R1.
    rz_cells R2.
    rz_cells R3.
    ins_run.
    ins_rec IH R3.
  - pose proof H as H'. rz_open H'.
    destruct (set_color_R BLACK Hg) as [R1 F1].
    destruct (set_color_spec RED R1) as [R2 F2].
    destruct (rotate_left_spec R2) as [R3 F3].
    rz_cells R1.
    rz_cells R2.
    ins_run.
    fin R3.
Qed.

(** *** Insertion *)

Lemma alloc_fresh (h : gmap N (RBTreeNode T)) : h !! alloc h = None ∧ alloc h ≠ NULL.
Proof.
  unfold alloc.
  pose proof (is_fresh ({[NULL]} ∪ dom h)) as Hf.
  split.
  - apply not_elem_of_dom. set_solver.
  - set_solver.
Qed.

Lemma RepZ_set_nil_parent {st C s} m :
  RepZ st C s → RepZ (set_parent st (_nil st) m) C s
  ∧ dom (heap (set_parent st (_nil st) m)) = dom (heap st).
Proof.
  intros H. rz_open H. split; [repz_goal | dom_goal].
Qed.

End Refine.
(** ** Insertion as a whole *)

Section Insert.
Context {T : Type}.
Variable comp : T -> T -> bool.
Implicit Types st : RBTree T.
Implicit Types s t : @tree T.
Implicit Types C : list (@frame T).

Lemma RepZ_alloc {st C s} p n :
  RepX st [] C s → heap st !! p = None → p ≠ NULL →
  RepX (mkTree (<[p := n]> (heap st)) (_root st) (_nil st) (_size st)) [] C s.
Proof.
  intros H Hp Hz.
  assert (p ∉ nodes s ++ cnodes C) as Hout.
  { intros Hin. destruct (RepZ_nodes_Some _ H Hin) as (?&?&?&?&?&?). congruence. }
  destruct H as [Hr Hs Hc [np Hn] Hd Ho Hnull _].
  constructor; cbn [heap _root _nil _size]; auto.
  - nd_all. by apply rep_insert_frame.
  - nd_all. by apply crep_insert_frame.
  - exists np. rewrite lookup_insert_ne; [done|congruence].
  - by rewrite lookup_insert_ne.
Qed.


Lemma check_hint_cases st (k : T) hint hv rv :
  value (node_at st hint) = Some hv →
  value (node_at st (_root st)) = Some rv →
  ∃ p, check_hint comp st k hint = Some p ∧ (p = hint ∨ p = _root st).
Proof.
  intros Hh Hr. unfold check_hint. rewrite Hh, Hr.
  repeat match goal with
  | |- context [if ?b then _ else _] => destruct b
  end; eauto.
Qed.

Lemma insert_unfold fuel st (k : T) hint :
  insert comp fuel st k hint =
  let new_node := alloc (heap st) in
  let st0 := (make_node st k).2 in
  if (_size st0 =? 0) then
    let st := set_root st0 new_node in
    let st := set_left st (_root st) (_nil st) in
    let st := set_right st (_root st) (_nil st) in
    let st := set_parent st (_root st) (_nil st) in
    let st := set_color st (_root st) BLACK in
    let st := set_parent st (_nil st) (_root st) in
    let st := set_size st (size_incr (_size st)) in
    Some (st, (_root st, true))
  else
    position ← (if bool_decide (hint ≠ NULL) && is_real st0 hint
                then check_hint comp st0 k hint else Some (_root st0));
    insert_tail comp fuel st0 position new_node.
Proof. reflexivity. Qed.

Lemma nodes_plug_notin C s (x : N) :
  x ∉ nodes (plug C s) → x ∉ (nodes s ++ cnodes C).
Proof. by rewrite nodes_plug. Qed.

Lemma insert_tail_spec st0 t (k : T) new nn Ch sh fuel :
  RepX st0 [] Ch sh → t = plug Ch sh → sh ≠ E → rbt t →
  heap st0 !! new = Some nn → value nn = Some k →
  new ∉ nodes t → new ≠ _nil st0 →
  (tsize t + 2 ≤ fuel)%nat →
  match descend comp k sh Ch with
  | inl C' =>
      ∃ st' t', insert_tail comp fuel st0 (rootp (_nil st0) sh) new
                = Some (st', (new, true))
        ∧ Rep st' t' ∧ rbt t'
        ∧ items t' = cpre C' ++ (new, k) :: cpost C'
        ∧ _nil st' = _nil st0 ∧ dom (heap st') = dom (heap st0)
        ∧ _size st' = size_incr (_size st0)
        ∧ parent (node_at st' (_nil st')) = tmax (_nil st') t'
  | inr x =>
      insert_tail comp fuel st0 (rootp (_nil st0) sh) new
      = Some (dealloc st0 new, (x, false))
  end.
Proof.
  intros H -> Hsh Hrb Hnew Hval Hfresh Hnn Hfuel.
  pose proof (tsize_plug Ch sh) as Hsz.
  pose proof (get_position_spec comp k new nn fuel sh Ch st0 ltac:(lia) Hsh H
                Hnew Hval (nodes_plug_notin _ _ _ Hfresh) Hnn) as Hpos.
  destruct (descend comp k sh Ch) as [C'|x] eqn:Ed.
  2:{ unfold insert_tail. rewrite Hpos. reflexivity. }
  destruct Hpos as (st1 & Hrun1 & R1 & F1).
  apply descend_inl in Ed.
  pose proof (tsize_plug C' E) as Hsz'. rewrite Ed in Hsz'.
  rewrite <- Ed in Hrb. apply rbt_plug in Hrb.
  destruct (insert_case1_spec fuel C' st1 E new k E ltac:(lia) R1)
    as (st2 & t' & Hrun2 & R2 & Hrbt & Hit & F2); [rb_crush ..|].
  assert (tsize t' = S (tsize (plug Ch sh))) as Hsz2.
  { unfold tsize. rewrite Hit, <- Ed, !items_plug.
    repeat (progress (rewrite ?length_app; cbn [length app items])). lia. }
  pose proof (RepZ_set_size (size_incr (_size st2)) R2) as R3.
  destruct (RepZ_set_nil_parent (tmax (_nil st2) t') R3) as [R4 D4].
  exists (set_parent (set_size st2 (size_incr (_size st2))) (_nil st2) (tmax (_nil st2) t')), t'.
  split.
  { unfold insert_tail. rewrite Hrun1. cbn [mbind option_bind snd negb].
    rewrite Hrun2. cbn [mbind option_bind].
    unfold get_max_value_node.
    pose proof (rz_root R3) as Hroot. cbn [plug] in Hroot.
    rewrite Hroot.
    rewrite (rightmost_spec (set_size st2 (size_incr (_size st2))) _ t' fuel
               (rz_nil R3) (rz_sub R3) ltac:(lia)).
    reflexivity. }
  split; [exact R4|]. split; [done|].
  split; [by rewrite Hit, items_plug|].
  destruct F1 as (A1 & A2 & A3 & A4), F2 as (B1 & B2 & B3 & B4).
  split; [meta_norm; congruence|].
  split; [etrans; [exact D4|]; etrans; [exact B3|exact A3]|].
  split; [meta_norm; congruence|].
  destruct (rz_nil R3) as [np Hnil].
  meta_norm. hread. meta_norm. reflexivity.
Qed.

Lemma list_to_set_middle (l1 l2 : list N) (x : N) :
  (list_to_set (l1 ++ x :: l2) : gset N) = {[x]} ∪ list_to_set (l1 ++ l2).
Proof. rewrite !list_to_set_app_L, list_to_set_cons. set_solver. Qed.

Lemma dealloc_make_node st (k : T) :
  heap st !! alloc (heap st) = None →
  dealloc (make_node st k).2 (alloc (heap st)) = st.
Proof.
  intros H. unfold dealloc, make_node. cbn [snd heap _root _nil _size].
  rewrite delete_insert_eq, delete_id by done. by destruct st.
Qed.

Lemma Full_fresh st t :
  Full st t →
  heap st !! alloc (heap st) = None ∧ alloc (heap st) ≠ NULL
  ∧ alloc (heap st) ∉ nodes t ∧ alloc (heap st) ≠ _nil st.
Proof.
  intros (HR & Hdom & Hsz & Hmax).
  destruct (alloc_fresh (heap st)) as [Hn Hz].
  split; [done|]. split; [done|]. split.
  - intros Hin.
    destruct (RepZ_nodes_Some (alloc (heap st)) HR) as (?&?&?&?&?&?);
      [rewrite elem_of_app; auto|congruence].
  - intros Heq. destruct (rz_nil HR) as [np Hnil]. congruence.
Qed.

Lemma insert_at st t (k : T) hint fuel Ch sh :
  Full st t → rbt t → t = plug Ch sh → sh ≠ E →
  (hint = NULL ∨ hint = _nil st → Ch = []) →
  _size st + 1 < size_max → (tsize t + 2 ≤ fuel)%nat →
  ∃ st' r,
    insert_tail comp fuel (make_node st k).2 (rootp (_nil st) sh) (alloc (heap st))
    = Some (st', r)
    ∧ insert_post comp st t k hint st' r.
Proof.
  intros HF Hrb Ht Hsh Hh Hsz Hfuel.
  destruct (Full_fresh _ _ HF) as (Hnone & Hnz & Hnin & Hnn).
  destruct HF as (HR & Hdom & Hsize & Hmax).
  set (new := alloc (heap st)) in *.
  set (st0 := (make_node st k).2).
  assert (RepX st0 [] Ch sh) as R0.
  { apply Rep_unplug. rewrite <- Ht.
    apply (RepZ_alloc new _ HR Hnone Hnz). }
  assert (heap st0 !! new = Some (mkNode (Some k) RED NULL NULL NULL)) as Hcell.
  { unfold st0, make_node. cbn [snd heap]. apply lookup_insert_eq. }
  pose proof (insert_tail_spec st0 t k new _ Ch sh fuel R0 Ht Hsh Hrb Hcell
                eq_refl Hnin Hnn Hfuel) as Hspec.
  change (_nil st0) with (_nil st) in Hspec.
  destruct (descend comp k sh Ch) as [C'|x] eqn:Ed.
  - destruct Hspec as (st' & t' & Hrun & R' & Hrbt & Hit & En & Ed' & Es & Hp).
    exists st', (new, true). split; [exact Hrun|].
    left. split; [done|]. exists t', Ch, sh, C'.
    split; [done|]. split; [done|]. split; [done|].
    assert (tsize t' = S (tsize t)) as Hsz2.
    { unfold tsize. rewrite Hit, Ht, <- (descend_inl comp _ _ _ _ Ed), items_plug.
      repeat (progress (rewrite ?length_app; cbn [length app items])). lia. }
    cbn [fst].
    split; [|split; [done|]; split; [done|]; split; [done|]; split; [done|]; done].
    split; [exact R'|]. split; [|split].
    + rewrite Ed', En. unfold st0, make_node. cbn [snd heap].
      rewrite dom_insert_L, Hdom.
      rewrite (nodes_items t'), Hit, fmap_app, fmap_cons, list_to_set_middle.
      rewrite <- fmap_app. cbn [fst].
      replace ((cpre C' ++ cpost C').*1) with (nodes t); [set_solver|].
      rewrite nodes_items, Ht, <- (descend_inl comp _ _ _ _ Ed), items_plug.
      done.
    + rewrite Es. change (_size st0) with (_size st).
      unfold size_incr. rewrite Z.mod_small; [lia|]. unfold size_max in *. lia.
    + rewrite Es. change (_size st0) with (_size st).
      unfold size_incr. rewrite Z.mod_small; unfold size_max in *; lia.
  - exists st, (x, false). split.
    + rewrite Hspec. unfold st0, new. by rewrite dealloc_make_node.
    + right. split; [done|]. split; [done|]. by exists Ch, sh.
Qed.

Lemma node_at_make_node st (k : T) p :
  p ≠ alloc (heap st) → node_at (make_node st k).2 p = node_at st p.
Proof.
  intros Hp. unfold node_at, make_node. cbn [snd heap].
  by rewrite lookup_total_insert_ne.
Qed.

Lemma is_real_make_node st (k : T) p :
  p ≠ alloc (heap st) → is_real (make_node st k).2 p = is_real st p.
Proof. intros Hp. unfold is_real. by rewrite node_at_make_node. Qed.

Lemma insert_empty st (k : T) hint fuel :
  Full st E → _size st + 1 < size_max →
  ∃ st' r, insert comp fuel st k hint = Some (st', r)
    ∧ insert_post comp st E k hint st' r.
Proof.
  intros HF Hsz.
  destruct (Full_fresh _ _ HF) as (Hnone & Hnz & Hnin & Hnn).
  destruct HF as (HR & Hdom & Hsize & Hmax).
  rewrite insert_unfold. cbv zeta.
  change (_size (make_node st k).2) with (_size st).
  rewrite Hsize. cbn [tsize items length Z.of_nat Z.eqb].
  set (new := alloc (heap st)) in *.
  set (st0 := (make_node st k).2).
  assert (RepX st0 [] [] E) as R0 by apply (RepZ_alloc new _ HR Hnone Hnz).
  assert (heap st0 !! new = Some (mkNode (Some k) RED NULL NULL NULL)) as Hcell.
  { unfold st0, make_node. cbn [snd heap]. apply lookup_insert_eq. }
  assert (_nil st0 = _nil st) as En by reflexivity.
  assert (_size st0 = _size st) as Es by reflexivity.
  assert (dom (heap st0) = {[new]} ∪ dom (heap st)) as Ed.
  { unfold st0, make_node. cbn [snd heap]. apply dom_insert_L. }
  change (_nil st) with (_nil st0) in Hnn.
  clearbody st0. rz_open R0.
  eexists _, _. split; [reflexivity|]. meta_norm.
  left. split; [done|]. exists (Tn BLACK E new k E), [], E, [].
  split; [done|]. split; [done|]. split; [done|]. cbn [fst cpre cpost app].
  split; [|split; [unfold rbt; rb_crush|]; split; [done|]; split; [done|];
           split; [meta_norm; congruence|]].
  - split; [|split; [|split]]; meta_norm.
    + repz_goal.
    + dom_goal. rewrite Ed, Hdom, En. simpl. set_solver.
    + rewrite Es, Hsize. reflexivity.
    + rewrite Es, Hsize. reflexivity.
  - meta_norm. hread. reflexivity.
Qed.

Lemma insert_spec st t (k : T) hint fuel :
  Full st t → rbt t → hint_ok st t hint →
  _size st + 1 < size_max → (tsize t + 2 ≤ fuel)%nat →
  ∃ st' r, insert comp fuel st k hint = Some (st', r)
    ∧ insert_post comp st t k hint st' r.
Proof.
  intros HF Hrb Hh Hsz Hfuel.
  destruct t as [|c l x v r]; [by apply insert_empty|].
  destruct (Full_fresh _ _ HF) as (Hnone & Hnz & Hnin & Hnn).
  pose proof HF as (HR & Hdom & Hsize & Hmax).
  rewrite insert_unfold. cbv zeta.
  change (_size (make_node st k).2) with (_size st).
  change (_root (make_node st k).2) with (_root st).
  rewrite (proj2 (Z.eqb_neq _ 0)) by (rewrite Hsize, tsize_Tn; lia).
  pose proof (rz_root HR) as Hroot. cbn [plug rootp] in Hroot.
  assert (x ≠ alloc (heap st)) as Hxn.
  { intros ->. apply Hnin. apply (rootp_in 0%N (Tn c l (alloc (heap st)) v r)). done. }
  assert (∀ p, p ∈ nodes (Tn c l x v r) →
            p ≠ alloc (heap st) ∧ p ≠ NULL ∧ p ≠ _nil st
            ∧ ∃ pv, value (node_at st p) = Some pv) as Hnode.
  { intros p Hp.
    destruct (RepZ_nodes_Some p HR) as (pv&?&?&?&?&Hc);
      [rewrite elem_of_app; auto|].
    destruct (rz_nil HR) as [np Hnil].
    pose proof (rz_null HR).
    repeat split; try congruence.
    exists pv. by rewrite (node_at_cell _ _ _ Hc). }
  assert (∃ st' res,
    insert_tail comp fuel (make_node st k).2 (_root st) (alloc (heap st))
    = Some (st', res)
    ∧ insert_post comp st (Tn c l x v r) k hint st' res) as Hroot_case.
  { rewrite Hroot.
    destruct (insert_at st (Tn c l x v r) k hint fuel [] (Tn c l x v r))
      as (st' & r' & Hrun & Hpost); auto. eauto. }
  destruct Hh as [->|[->|Hin]].
  - rewrite bool_decide_eq_false_2 by (intros Hf; by apply Hf). exact Hroot_case.
  - replace (is_real (make_node st k).2 (_nil st)) with false.
    2:{ rewrite is_real_make_node by done.
        destruct (rz_nil HR) as [np Hnil]. symmetry.
        by apply (is_real_cell_gen _ _ _ Hnil). }
    rewrite andb_false_r. exact Hroot_case.
  - destruct (Hnode _ Hin) as (Hha & Hhz & Hhn & hv & Hhv).
    destruct (Hnode x) as (_ & _ & _ & rv & Hrv).
    { apply (rootp_in 0%N (Tn c l x v r)). done. }
    rewrite bool_decide_eq_true_2 by done.
    rewrite is_real_make_node by done. unfold is_real at 1. rewrite Hhv.
    cbn [andb].
    destruct (check_hint_cases (make_node st k).2 k hint hv rv)
      as (p & Hp & Hcase).
    { by rewrite node_at_make_node. }
    { change (_root (make_node st k).2) with (_root st).
      rewrite Hroot. rewrite node_at_make_node; [exact Hrv|exact Hxn]. }
    rewrite Hp. cbn [mbind option_bind].
    change (_root (make_node st k).2) with (_root st) in Hcase.
    destruct Hcase as [->| ->]; [|exact Hroot_case].
    destruct (nodes_focus _ _ Hin) as (Ch & ch & lh & vh & rh & Et).
    destruct (insert_at st (Tn c l x v r) k hint fuel Ch (Tn ch lh hint vh rh))
      as (st' & r' & Hrun & Hpost); auto.
    { intros [?|?]; congruence. }
    eauto.
Qed.

End Insert.
(** ** Rebalancing after the removal of a BLACK node *)

Section Delete.
Context {T : Type}.
Implicit Types st : RBTree T.
Implicit Types s t a b d l r : @tree T.
Implicit Types C : list (@frame T).
Context {X : list (N * RBTreeNode T)}.
Local Abbreviation RepZ st C s := (RepX st X C s) (only parsing).
Local Abbreviation RepT st t := (RepX st X [] t) (only parsing).
Local Abbreviation steps st st' C s' := (stepped X st st' C s') (only parsing).

Lemma set_color_RL c' {st C c l x v cr cy a y w b z vz d} :
  RepZ st C (Tn c l x v (Tn cr (Tn cy a y w b) z vz d)) →
  steps st (set_color st y c') C (Tn c l x v (Tn cr (Tn c' a y w b) z vz d)).
Proof.
  intros H. apply (RepZ_down (F:=FR c l x v)) in H.
  destruct (set_color_L c' H) as [H1 F1]. split; [|done].
  by apply (RepZ_up (F:=FR c l x v)) in H1.
Qed.

Lemma set_color_RR c' {st C c l x v cr a z vz cy b y w d} :
  RepZ st C (Tn c l x v (Tn cr a z vz (Tn cy b y w d))) →
  steps st (set_color st y c') C (Tn c l x v (Tn cr a z vz (Tn c' b y w d))).
Proof.
  intros H. apply (RepZ_down (F:=FR c l x v)) in H.
  destruct (set_color_R c' H) as [H1 F1]. split; [|done].
  by apply (RepZ_up (F:=FR c l x v)) in H1.
Qed.

Lemma set_color_LL c' {st C c x v r cl cy a y w b z vz d} :
  RepZ st C (Tn c (Tn cl (Tn cy a y w b) z vz d) x v r) →
  steps st (set_color st y c') C (Tn c (Tn cl (Tn c' a y w b) z vz d) x v r).
Proof.
  intros H. apply (RepZ_down (F:=FL c x v r)) in H.
  destruct (set_color_L c' H) as [H1 F1]. split; [|done].
  by apply (RepZ_up (F:=FL c x v r)) in H1.
Qed.

Lemma set_color_LR c' {st C c x v r cl a z vz cy b y w d} :
  RepZ st C (Tn c (Tn cl a z vz (Tn cy b y w d)) x v r) →
  steps st (set_color st y c') C (Tn c (Tn cl a z vz (Tn c' b y w d)) x v r).
Proof.
  intros H. apply (RepZ_down (F:=FL c x v r)) in H.
  destruct (set_color_R c' H) as [H1 F1]. split; [|done].
  by apply (RepZ_up (F:=FL c x v r)) in H1.
Qed.

Lemma rootc_read st nil par t np :
  rep (heap st) nil par t →
  heap st !! nil = Some (mkNode None BLACK np nil nil) →
  color (node_at st (rootp nil t)) = rootc t.
Proof.
  destruct t as [|c l x v r]; cbn [rep rootp rootc]; intros H Hn.
  - by rewrite (node_at_cell _ _ _ Hn).
  - destruct H as (Hc & _ & _). by rewrite (node_at_cell _ _ _ Hc).
Qed.

Lemma hole_parent_read st nil par s np :
  rep (heap st) nil par s →
  heap st !! nil = Some (mkNode None BLACK np nil nil) →
  (s = E → np = par) →
  parent (node_at st (rootp nil s)) = par.
Proof.
  destruct s as [|c l x v r]; cbn [rep rootp]; intros H Hn Hh.
  - rewrite (node_at_cell _ _ _ Hn). cbn. by apply Hh.
  - destruct H as (Hc & _ & _). by rewrite (node_at_cell _ _ _ Hc).
Qed.

Lemma hole_par_cell st C s np :
  hole_par st C s →
  heap st !! _nil st = Some (mkNode None BLACK np (_nil st) (_nil st)) →
  s = E → np = cpar (_nil st) C.
Proof.
  intros Hh Hn Hs. specialize (Hh Hs).
  by rewrite (node_at_cell _ _ _ Hn) in Hh.
Qed.

Lemma hole_par_frame st st' C C' s :
  same_frame st st' → cpar (_nil st) C' = cpar (_nil st) C →
  hole_par st C s → hole_par st' C' s.
Proof.
  intros (E1 & _ & _ & E4) Hc Hh Hs. specialize (Hh Hs).
  unfold node_at in *. rewrite E1.
  rewrite (lookup_total_alt (heap st')), E4, <- lookup_total_alt. congruence.
Qed.

Lemma nil_cell_same st st' (n np np' p1 p2 p3 p4 : N) :
  same_frame st st' → _nil st = n →
  heap st !! n = Some (mkNode None BLACK np p1 p2) →
  heap st' !! n = Some (mkNode None BLACK np' p3 p4) →
  np' = np.
Proof. intros (_ & _ & _ & E4) <- Ha Hb. congruence. Qed.

(** The sentinel's cell is the same in every state of a chain of steps. *)
Ltac nil_eq :=
  repeat (etrans;
    [match goal with
     | F : same_frame _ ?x |- _nil ?y = _ => constr_eq x y; exact (proj1 F)
     end|]);
  exact eq_refl.
Ltac nil_same :=
  repeat match goal with
  | F : same_frame ?a ?b |- _ =>
      match goal with
      | Ha : heap ?a' !! ?n = Some (mkNode None BLACK ?npa _ _) |- _ =>
          constr_eq a a';
          match goal with
          | Hb : heap ?b' !! ?n' = Some (mkNode None BLACK ?npb _ _) |- _ =>
              constr_eq b b'; constr_eq n n';
              is_var npb;
              tryif constr_eq npa npb then fail else idtac;
              let Hq := fresh "Hq" in
              assert (npb = npa) as Hq
                by (apply (nil_cell_same a b n _ _ _ _ _ _ F ltac:(nil_eq) Ha Hb));
              subst npb
          end
      end
  end.

(** Reads of listed cells, of the link in focus and of the color below a
    link. *)
Ltac rd1 :=
  match goal with
  | |- context [node_at ?ST ?p] =>
      match goal with
      | Hc : heap ?ST' !! ?p' = Some _ |- _ =>
          constr_eq ST ST'; constr_eq p p';
          rewrite !(node_at_cell ST p _ Hc);
          cbn [value color parent leftChild rightChild]
      end
  | |- context [is_real ?ST ?p] =>
      match goal with
      | Hc : heap ?ST' !! ?p' = Some _ |- _ =>
          constr_eq ST ST'; constr_eq p p';
          rewrite !(is_real_cell_gen ST p _ Hc);
          cbn [value color parent leftChild rightChild]
      end
  | |- context [parent (node_at ?ST (rootp ?nil ?s))] =>
      match goal with
      | Hr : rep (heap ?ST') ?nil' ?par ?s' |- _ =>
          constr_eq ST ST'; constr_eq s s'; constr_eq nil nil';
          match goal with
          | Hn : heap ?ST'' !! ?nil'' = Some _ |- _ =>
              constr_eq ST ST''; constr_eq nil nil'';
              match goal with
              | Hh : ?s'' = E → _ = ?par' |- _ =>
                  constr_eq s s''; constr_eq par par';
                  rewrite !(hole_parent_read ST nil par s _ Hr Hn Hh)
              end
          end
      end
  | |- context [color (node_at ?ST (rootp ?nil ?t))] =>
      match goal with
      | Hr : rep (heap ?ST') ?nil' _ ?t' |- _ =>
          constr_eq ST ST'; constr_eq t t'; constr_eq nil nil';
          match goal with
          | Hn : heap ?ST'' !! ?nil'' = Some _ |- _ =>
              constr_eq ST ST''; constr_eq nil nil'';
              rewrite !(rootc_read ST nil _ t _ Hr Hn)
          end
      end
  end.
Ltac hrdd :=
  cbn [andb orb negb];
  repeat first [ rd1 | progress bdec
               | progress cbn [andb orb negb]
               | progress rewrite ?andb_false_r, ?andb_true_r ].

#[local] Opaque rotate_left rotate_right.

Ltac del_run :=
  nil_norm; nil_same;
  unfold delete_case3, get_sibling; hrdd;
  try (unfold delete_case4, get_sibling; hrdd;
       try (unfold delete_case5, get_sibling; hrdd;
            unfold delete_case6, get_sibling; hrdd)).

Ltac items_goal :=
  cbn [plug fill]; apply items_plug_eq; simpl;
  repeat (progress (rewrite <- ?app_assoc; simpl)); reflexivity.

Lemma hole_ok_cnrr C c l x v r :
  (c = RED → cparent_black C) → hole_ok C (Tn c l x v r).
Proof.
  destruct C as [|F C]; cbn [hole_ok cparent_black rootc]; destruct c;
    intuition congruence.
Qed.

Ltac sf_chain :=
  lazymatch goal with
  | |- same_frame ?a ?b =>
      tryif first [is_evar a | is_evar b] then fail else idtac
  end;
  repeat (eapply same_frame_trans;
    [match goal with
     | F : same_frame ?a _ |- same_frame ?a' _ => constr_eq a a'; exact F
     end|]);
  apply same_frame_refl.

Ltac dfin R :=
  eexists; split; [reflexivity|];
  unfold fixed; eexists; split; [apply (RepZ_plug R)|];
  split; [apply rbt_plug; rb_crush;
          try (apply hole_ok_black; reflexivity);
          try (apply hole_ok_cnrr; intros ->; rb_hyps; assumption)|];
  split; [items_goal | sf_chain].

Ltac dopen H Hh :=
  let H' := fresh "H" in
  let Hhc := fresh "Hhc" in
  pose proof H as H'; rz_open H';
  match goal with
  | Hnil : heap _ !! _nil _ = Some _ |- _ =>
      pose proof (hole_par_cell _ _ _ _ Hh Hnil) as Hhc;
      cbn [cpar fnode] in Hhc
  end.

Lemma delete_case3_L case1 {st C cP s P vP sl Q vQ sr} :
  RepZ st C (Tn cP s P vP (Tn BLACK sl Q vQ sr)) →
  hole_par st (FL cP P vP (Tn BLACK sl Q vQ sr) :: C) s →
  bal s → nrr s →
  cbal (FL cP P vP (Tn BLACK sl Q vQ sr) :: C) (S (bh s)) →
  cnrr (FL cP P vP (Tn BLACK sl Q vQ sr) :: C) →
  (cP = BLACK → rootc sl = BLACK → rootc sr = BLACK →
   ∀ st1, RepZ st1 C (Tn BLACK s P vP (Tn RED sl Q vQ sr)) →
     ∃ st', case1 st1 P = Some st'
       ∧ fixed X st1 C (Tn BLACK s P vP (Tn RED sl Q vQ sr)) st') →
  ∃ st', delete_case3 case1 st (rootp (_nil st) s) = Some st'
    ∧ fixed X st C (Tn cP s P vP (Tn BLACK sl Q vQ sr)) st'.
Proof.
  intros H Hh Hb Hn Hcb Hcn Hrec.
  destruct (color_cases (rootc sr)) as [Er|Er].
  { (* the far nephew is RED *)
    destruct sr as [|cR srl R vR srr]; [discriminate|].
    cbn [rootc] in Er. subst cR.
    dopen H Hh.
    destruct (set_color_R cP H) as [R1 F1].
    destruct (set_color_spec BLACK R1) as [R2 F2].
    destruct (set_color_RR BLACK R2) as [R3 F3].
    destruct (rotate_left_spec R3) as [R4 F4].
    rz_cells R1. rz_cells R2. rz_cells R3.
    del_run.
    dfin R4. }
  destruct (color_cases (rootc sl)) as [El|El].
  { (* the near nephew is RED, the far one BLACK *)
    destruct sl as [|cL sll L vL slr]; [discriminate|].
    cbn [rootc] in El. subst cL.
    dopen H Hh.
    destruct (set_color_R RED H) as [R1 F1].
    destruct (set_color_RL BLACK R1) as [R2 F2].
    destruct (rotate_right_R R2) as [R3 F3].
    destruct (set_color_R cP R3) as [R4 F4].
    destruct (set_color_spec BLACK R4) as [R5 F5].
    destruct (set_color_RR BLACK R5) as [R6 F6].
    destruct (rotate_left_spec R6) as [R7 F7].
    rz_cells R1. rz_cells R2. rz_cells R3. rz_cells R4. rz_cells R5.
    rz_cells R6.
    del_run.
    dfin R7. }
  destruct (color_cases cP) as [EP|EP]; subst cP.
  - (* both nephews BLACK below a RED parent *)
    dopen H Hh.
    destruct (set_color_R RED H) as [R1 F1].
    destruct (set_color_spec BLACK R1) as [R2 F2].
    rz_cells R1.
    del_run.
    dfin R2.
  - (* both nephews BLACK below a BLACK parent *)
    dopen H Hh.
    destruct (set_color_R RED H) as [R1 F1].
    rz_cells R1.
    del_run.
    destruct (Hrec eq_refl El Er _ R1) as (st' & Hrun & t' & HR & Hrbt & Hit & Hfr).
    exists st'. split; [exact Hrun|].
    exists t'. split; [exact HR|]. split; [exact Hrbt|].
    split; [rewrite Hit; items_goal | sf_chain].
Qed.

Lemma delete_case3_R case1 {st C cP s P vP sl Q vQ sr} :
  RepZ st C (Tn cP (Tn BLACK sl Q vQ sr) P vP s) →
  hole_par st (FR cP (Tn BLACK sl Q vQ sr) P vP :: C) s →
  bal s → nrr s →
  cbal (FR cP (Tn BLACK sl Q vQ sr) P vP :: C) (S (bh s)) →
  cnrr (FR cP (Tn BLACK sl Q vQ sr) P vP :: C) →
  (cP = BLACK → rootc sl = BLACK → rootc sr = BLACK →
   ∀ st1, RepZ st1 C (Tn BLACK (Tn RED sl Q vQ sr) P vP s) →
     ∃ st', case1 st1 P = Some st'
       ∧ fixed X st1 C (Tn BLACK (Tn RED sl Q vQ sr) P vP s) st') →
  ∃ st', delete_case3 case1 st (rootp (_nil st) s) = Some st'
    ∧ fixed X st C (Tn cP (Tn BLACK sl Q vQ sr) P vP s) st'.
Proof.
  intros H Hh Hb Hn Hcb Hcn Hrec.
  destruct (color_cases (rootc sl)) as [El|El].
  { (* the far nephew is RED *)
    destruct sl as [|cL sll L vL slr]; [discriminate|].
    cbn [rootc] in El. subst cL.
    dopen H Hh.
    destruct (set_color_L cP H) as [R1 F1].
    destruct (set_color_spec BLACK R1) as [R2 F2].
    destruct (set_color_LL BLACK R2) as [R3 F3].
    destruct (rotate_right_spec R3) as [R4 F4].
    rz_cells R1. rz_cells R2. rz_cells R3.
    del_run.
    dfin R4. }
  destruct (color_cases (rootc sr)) as [Er|Er].
  { (* the near nephew is RED, the far one BLACK *)
    destruct sr as [|cR srl R vR srr]; [discriminate|].
    cbn [rootc] in Er. subst cR.
    dopen H Hh.
    destruct (set_color_L RED H) as [R1 F1].
    destruct (set_color_LR BLACK R1) as [R2 F2].
    destruct (rotate_left_L R2) as [R3 F3].
    destruct (set_color_L cP R3) as [R4 F4].
    destruct (set_color_spec BLACK R4) as [R5 F5].
    destruct (set_color_LL BLACK R5) as [R6 F6].
    destruct (rotate_right_spec R6) as [R7 F7].
    rz_cells R1. rz_cells R2. rz_cells R3. rz_cells R4. rz_cells R5.
    rz_cells R6.
    del_run.
    dfin R7. }
  destruct (color_cases cP) as [EP|EP]; subst cP.
  - (* both nephews BLACK below a RED parent *)
    dopen H Hh.
    destruct (set_color_L RED H) as [R1 F1].
    destruct (set_color_spec BLACK R1) as [R2 F2].
    rz_cells R1.
    del_run.
    dfin R2.
  - (* both nephews BLACK below a BLACK parent *)
    dopen H Hh.
    destruct (set_color_L RED H) as [R1 F1].
    rz_cells R1.
    del_run.
    destruct (Hrec eq_refl El Er _ R1) as (st' & Hrun & t' & HR & Hrbt & Hit & Hfr).
    exists st'. split; [exact Hrun|].
    exists t'. split; [exact HR|]. split; [exact Hrbt|].
    split; [rewrite Hit; items_goal | sf_chain].
Qed.

Lemma fixed_from {st st0 C C0 s s0 st'} :
  fixed X st0 C0 s0 st' → same_frame st st0 →
  items (plug C0 s0) = items (plug C s) → fixed X st C s st'.
Proof.
  intros (t' & HR & Hrbt & Hit & Hfr) F0 Hi.
  exists t'. split; [done|]. split; [done|].
  split; [congruence | eauto using same_frame_trans].
Qed.

Lemma delete_case1_spec fuel : ∀ C st s,
  (length C < fuel)%nat →
  RepZ st C s → hole_par st C s →
  rootc s = BLACK → bal s → nrr s → cbal C (S (bh s)) → cnrr C →
  ∃ st', delete_case1 fuel st (rootp (_nil st) s) = Some st'
    ∧ fixed X st C s st'.
Proof.
  induction fuel as [|fuel IH]; intros C st s Hf H Hh Hc Hb Hn Hcb Hcn;
    [simpl in Hf; lia|].
  cbn [delete_case1].
  destruct C as [|F C].
  { dopen H Hh. hrdd.
    exists st. split; [reflexivity|]. exists s. split; [exact H|].
    split; [by unfold rbt|]. split; [reflexivity|apply same_frame_refl]. }
  cbn [length] in Hf.
  assert (∀ st1 s1, RepZ st1 C s1 → s1 ≠ E → rootc s1 = BLACK → bal s1 →
            nrr s1 → cbal C (S (bh s1)) → cnrr C →
            ∃ st', delete_case1 fuel st1 (rootp (_nil st1) s1) = Some st'
              ∧ fixed X st1 C s1 st') as IH'.
  { intros st1 s1 R1 Hne ? ? ? ? ?. (apply IH; auto; [lia|]). by intros ?. }
  clear IH.
  (destruct F as [cP P vP sib|cP sib P vP];
    (destruct sib as [|cQ sl Q vQ sr]; [rb_crush|]);
    pose proof (RepZ_up H) as Hp; cbn [fill] in Hp;
    destruct cQ).
  - (* hole on the left, RED sibling *)
    assert (cP = BLACK) as -> by (destruct cP; [rb_crush|done]).
    (destruct sl as [|[|] sll L vL slr]; [rb_crush| rb_crush |]).
    dopen H Hh.
    destruct (set_color_spec RED Hp) as [R1 F1].
    destruct (set_color_R BLACK R1) as [R2 F2].
    destruct (rotate_left_spec R2) as [R3 F3].
    pose proof (RepZ_down (F:=FL BLACK Q vQ sr)
                  (s:=Tn RED s P vP (Tn BLACK sll L vL slr)) R3) as R4.
    (rz_cells R1; rz_cells R2).
    (nil_norm; nil_same).
    (unfold delete_case2, get_sibling; hrdd).
    lazymatch type of R4 with
    | RepX ?s3 _ _ _ => assert (same_frame st s3) as F0 by sf_chain
    end.
    pose proof (hole_par_frame _ _ _ _ _ F0 eq_refl Hh) as Hh4.
    edestruct (delete_case3_L (delete_case1 fuel) R4 Hh4 Hb Hn)
      as (st' & Hrun & Hfix); [rb_crush | rb_crush | intros [=] |].
    rewrite (proj1 F0) in Hrun.
    exists st'. split; [exact Hrun|].
    apply (fixed_from Hfix); [exact F0|]. items_goal.
  - (* hole on the left, BLACK sibling *)
    dopen H Hh.
    unfold delete_case2, get_sibling; hrdd.
    apply (delete_case3_L (delete_case1 fuel) Hp Hh Hb Hn Hcb Hcn).
    intros -> El Er st1 R1.
    apply (IH' st1 _ R1); [done|rb_crush ..].
  - (* hole on the right, RED sibling *)
    assert (cP = BLACK) as -> by (destruct cP; [rb_crush|done]).
    destruct sr as [|[|] srl R vR srr]; [rb_crush| rb_crush |].
    dopen H Hh.
    destruct (set_color_spec RED Hp) as [R1 F1].
    destruct (set_color_L BLACK R1) as [R2 F2].
    destruct (rotate_right_spec R2) as [R3 F3].
    pose proof (RepZ_down (F:=FR BLACK sl Q vQ)
                  (s:=Tn RED (Tn BLACK srl R vR srr) P vP s) R3) as R4.
    rz_cells R1. rz_cells R2.
    nil_norm; nil_same.
    unfold delete_case2, get_sibling; hrdd.
    lazymatch type of R4 with
    | RepX ?s3 _ _ _ => assert (same_frame st s3) as F0 by sf_chain
    end.
    pose proof (hole_par_frame _ _ _ _ _ F0 eq_refl Hh) as Hh4.
    edestruct (delete_case3_R (delete_case1 fuel) R4 Hh4 Hb Hn)
      as (st' & Hrun & Hfix); [rb_crush | rb_crush | intros [=] |].
    rewrite (proj1 F0) in Hrun.
    exists st'. split; [exact Hrun|].
    apply (fixed_from Hfix); [exact F0|]. items_goal.
  - (* hole on the right, BLACK sibling *)
    dopen H Hh.
    unfold delete_case2, get_sibling; hrdd.
    apply (delete_case3_R (delete_case1 fuel) Hp Hh Hb Hn Hcb Hcn).
    intros -> El Er st1 R1.
    apply (IH' st1 _ R1); [done|rb_crush ..].
Qed.

End Delete.
(** ** Trading places with the in-order neighbour *)

Section Relink.
Context {T : Type}.
Implicit Types st : RBTree T.
Implicit Types s t a b d l r : @tree T.
Implicit Types C D : list (@frame T).


Ltac relink_run :=
  lazymatch goal with
  | |- context [replace_erase_node_relink ?st ?x ?y] =>
      let Heq := fresh "Heq" in
      eassert (replace_erase_node_relink st x y = _) as Heq
        by (cbv beta delta [replace_erase_node_relink]; let_run);
      rewrite Heq; clear Heq
  end.

Lemma relink_near {st C c cy a x v y w r} :
  RepX st [] (FL c x v r :: C) (Tn cy a y w E) →
  RepX (replace_erase_node_relink st x y) [] (FL c y w r :: C) (Tn cy a x v E)
  ∧ kept st (replace_erase_node_relink st x y).
Proof.
  intros H.
  destruct a as [|ca al z vz ar]; destruct r as [|cr rl u vu rr];
    destruct C as [|[cg g vg gr|cg gl g vg] C];
    rz_open H; relink_run; (split; [repz_goal | kept_goal]).
Qed.

Lemma relink_right {st C c cy x v y w} :
  RepX st [] (FR c E x v :: C) (Tn cy E y w E) →
  RepX (replace_erase_node_relink st x y) [] (FR c E y w :: C) (Tn cy E x v E)
  ∧ kept st (replace_erase_node_relink st x y).
Proof.
  intros H.
  destruct C as [|[cg g vg gr|cg gl g vg] C];
    rz_open H; relink_run; (split; [repz_goal | kept_goal]).
Qed.

Lemma relink_far1 {st C c cy a x v y w r c1 l1 p1 v1} :
  RepX st [] (FR c1 l1 p1 v1 :: FL c x v r :: C) (Tn cy a y w E) →
  RepX (replace_erase_node_relink st x y) []
    (FR c1 l1 p1 v1 :: FL c y w r :: C) (Tn cy a x v E)
  ∧ kept st (replace_erase_node_relink st x y).
Proof.
  intros H.
  destruct a as [|ca al z vz ar]; destruct r as [|cr rl u vu rr];
    destruct C as [|[cg g vg gr|cg gl g vg] C];
    rz_open H; relink_run; (split; [repz_goal | kept_goal]).
Qed.

Lemma RepX_seg st D C s :
  RepX st [] (D ++ C) s ↔
  _root st = rootp (_nil st) (plug C (plug D s))
  ∧ rep (heap st) (_nil st) (cparT (cpar (_nil st) C) D) s
  ∧ cseg (heap st) (_nil st) (cpar (_nil st) C) D (rootp (_nil st) s)
  ∧ crep (heap st) (_nil st) C (ctop D (rootp (_nil st) s))
  ∧ nilcell (heap st) (_nil st)
  ∧ NoDup (nodes s ++ cnodes D ++ cnodes C)
  ∧ _nil st ∉ (nodes s ++ cnodes D ++ cnodes C)
  ∧ heap st !! NULL = None.
Proof.
  split.
  - intros [Hr Hs Hc Hn Hd Ho Hz _].
    rewrite plug_app in Hr. rewrite cpar_app in Hs.
    apply crep_app in Hc. rewrite cnodes_app in Hd, Ho. tauto.
  - intros (Hr & Hs & Hg & Hc & Hn & Hd & Ho & Hz).
    constructor; rewrite ?plug_app, ?cpar_app, ?cnodes_app; auto.
    by apply crep_app.
Qed.

Ltac seg_goal :=
  cbn [rep cseg crep rootp cpar cparT ctop fnode fsib nodes cnodes];
  repeat split; meta_norm;
  first [ cell_goal | frame | eexists; cell_goal | none_goal | nd_goal ].

Lemma relink_far {st C c cy a x v y w r c1 l1 p1 v1 Dm cn ln pn vn} :
  RepX st [] ((FR c1 l1 p1 v1 :: Dm) ++ FR cn ln pn vn :: FL c x v r :: C)
    (Tn cy a y w E) →
  RepX (replace_erase_node_relink st x y) []
    ((FR c1 l1 p1 v1 :: Dm) ++ FR cn ln pn vn :: FL c y w r :: C)
    (Tn cy a x v E)
  ∧ kept st (replace_erase_node_relink st x y).
Proof.
  intros H. apply RepX_seg in H.
  destruct H as (Hroot & Hsub & Hseg & Hctx & [np Hnil] & Hnd & Hout & Hnull).
  destruct a as [|ca al z vz ar]; destruct r as [|cr rl u vu rr];
    destruct C as [|[cg g vg gr|cg gl g vg] C];
    cbn [rep cseg crep rootp cpar cparT ctop fnode fsib nodes cnodes]
      in Hsub, Hseg, Hctx, Hnd, Hout;
    destruct_and?; nd_all; relink_run.
  all: split; [apply RepX_seg; seg_goal | kept_goal].
  all: try (cbn [plug fill rootp]; reflexivity).
  all: etrans; [exact Hroot|]; cbn [plug fill];
    first [ apply rootp_plug_FL | apply rootp_plug_FR ].
Qed.

End Relink.
(** ** Removal as a whole *)

Section Erase.
Context {T : Type}.
Implicit Types st : RBTree T.
Implicit Types s t a b d l r : @tree T.
Implicit Types C D : list (@frame T).

Lemma erase_unfold fuel st (node : N) :
  erase fuel st node =
  if negb (is_real st node) then Some (st, 0)
  else '(st, target) ← replace_erase_node fuel st node;
       erase_tail fuel st target.
Proof. reflexivity. Qed.

Lemma RepX_dealloc {st t x n} :
  RepX st [(x, n)] [] t → RepX (dealloc st x) [] [] t.
Proof.
  intros [Hr Hs _ [np Hn] Hd Ho Hz Hx].
  apply Forall_cons in Hx. destruct Hx as [(Hc & Hout & Hne) _].
  cbn [fst snd] in *. rewrite app_nil_r in Hout.
  constructor; cbn [heap _root _nil dealloc crep]; auto.
  - by apply rep_delete_frame.
  - exists np. by rewrite lookup_delete_ne.
  - by apply lookup_delete_None; right.
Qed.

Lemma erase_finish_spec fuel st t (x : N) xc :
  RepX st [(x, xc)] [] t → parent xc ∈ nodes t → (tsize t < fuel)%nat →
  ∃ st', erase_finish fuel st x = Some (st', 1)
    ∧ Rep st' t
    ∧ _nil st' = _nil st
    ∧ _size st' = size_decr (_size st)
    ∧ dom (heap st') = dom (heap st) ∖ {[x]}
    ∧ parent (node_at st' (_nil st')) = tmax (_nil st') t.
Proof.
  intros H Hp Hf.
  destruct (RepZ_nodes_Some (parent xc) H) as (pv & pc & pq & pl & pr & Hpc);
    [by rewrite app_nil_r|].
  pose proof (RepZ_set_size (size_decr (_size st)) H) as R1.
  pose proof (RepX_dealloc R1) as R2.
  destruct (RepZ_set_nil_parent
              (tmax (_nil st) t) R2) as [R3 D3].
  pose proof (rz_extra H) as Hx. apply Forall_cons in Hx.
  destruct Hx as [(Hc & _ & _) _]. cbn [fst snd] in Hc.
  eexists. split.
  { unfold erase_finish.
    change (node_at (set_size st (size_decr (_size st))) x) with (node_at st x).
    rewrite (node_at_cell _ _ _ Hc).
    change (is_real (set_size st (size_decr (_size st))) (parent xc))
      with (is_real st (parent xc)).
    rewrite (is_real_cell_gen _ _ _ Hpc). cbn [value negb].
    unfold get_max_value_node.
    pose proof (rz_root R2) as Hroot. cbn [plug] in Hroot. rewrite Hroot.
    rewrite (rightmost_spec _ _ t fuel (rz_nil R2) (rz_sub R2) Hf).
    reflexivity. }
  split; [exact R3|]. split; [reflexivity|]. split; [reflexivity|].
  split.
  { etrans; [apply D3|]. cbn [heap dealloc set_size]. by rewrite dom_delete_L. }
  destruct (rz_nil R2) as [np Hnil].
  change (_nil (set_parent (dealloc (set_size st (size_decr (_size st))) x)
            (_nil (dealloc (set_size st (size_decr (_size st))) x))
            (tmax (_nil st) t))) with (_nil st) in *.
  change (_nil (dealloc (set_size st (size_decr (_size st))) x))
    with (_nil st) in *.
  hread. reflexivity.
Qed.


Lemma replace_node_spec {st F C cx a x v} :
  RepX st [] (F :: C) (Tn cx a x v E) →
  RepX (replace_node st x (rootp (_nil st) a))
    [(x, mkNode (Some v) cx (fnode F) (rootp (_nil st) a) (_nil st))]
    (F :: C) a
  ∧ kept st (replace_node st x (rootp (_nil st) a))
  ∧ hole_par (replace_node st x (rootp (_nil st) a)) (F :: C) a.
Proof.
  intros H.
  destruct F as [cP P vP sib|cP sib P vP]; destruct a as [|ca al z vz ar];
    rz_open H; cbn [rootp fnode].
  all: lazymatch goal with
       | |- context [replace_node ?s ?p ?q] =>
           let Heq := fresh "Heq" in
           eassert (replace_node s p q = _) as Heq
             by (cbv beta delta [replace_node]; let_run);
           rewrite Heq; clear Heq
       end.
  all: split; [repz_goal | split; [kept_goal|]].
  all: intros Ha; try discriminate Ha; meta_norm;
    cbn [cpar fnode]; hread; reflexivity.
Qed.

Lemma erase_fixup_spec fuel {st F C cx a x v xc} :
  RepX st [(x, xc)] (F :: C) a → color xc = cx →
  hole_par st (F :: C) a →
  rbt (plug (F :: C) (Tn cx a x v E)) →
  (length (F :: C) < fuel)%nat →
  ∃ st', erase_fixup fuel st x (rootp (_nil st) a) = Some st'
    ∧ fixed [(x, xc)] st (F :: C) a st'.
Proof.
  intros H Hcx Hh Hrb Hf. apply rbt_plug in Hrb.
  destruct Hrb as (Hb & Hcb & Hn & Hcn & Hok).
  pose proof (rz_extra H) as Hx. apply Forall_cons in Hx.
  destruct Hx as [(Hc & _ & _) _]. cbn [fst snd] in Hc.
  destruct (rz_nil H) as [np Hnil].
  unfold erase_fixup.
  rewrite (node_at_cell _ _ _ Hc), Hcx.
  rewrite (rootc_read _ _ _ _ _ (rz_sub H) Hnil).
  destruct cx.
  { rewrite bool_decide_eq_false_2 by discriminate.
    exists st. split; [reflexivity|].
    exists (plug (F :: C) a). split; [apply (RepZ_plug H)|].
    split; [|split; [reflexivity|apply same_frame_refl]].
    apply rbt_plug. destruct F as [[|] ? ? ?|[|] ? ? ?]; rb_crush. }
  rewrite bool_decide_eq_true_2 by reflexivity.
  destruct (color_cases (rootc a)) as [Ea|Ea]; rewrite Ea.
  - rewrite bool_decide_eq_true_2 by reflexivity.
    destruct a as [|ca al z vz ar]; [discriminate|].
    cbn [rootc] in Ea. subst ca. cbn [rootp].
    destruct (set_color_spec BLACK H) as [R1 F1].
    eexists. split; [reflexivity|].
    eexists. split; [apply (RepZ_plug R1)|].
    split; [|split; [|exact F1]].
    + apply rbt_plug. destruct F as [[|] ? ? ?|[|] ? ? ?]; rb_crush.
    + by rewrite !items_plug.
  - rewrite bool_decide_eq_false_2 by discriminate.
    apply delete_case1_spec; auto; solve [rb_crush].
Qed.

Lemma fnode_in_plug F C s : fnode F ∈ nodes (plug (F :: C) s).
Proof.
  rewrite nodes_plug. cbn [cnodes]. rewrite elem_of_app, elem_of_cons. auto.
Qed.

Lemma tsize_plug_lt C c l x v r :
  (tsize (plug C l) < tsize (plug C (Tn c l x v r)))%nat.
Proof.
  unfold tsize. rewrite !items_plug. cbn [items].
  repeat (rewrite ?length_app; cbn [length]). lia.
Qed.

Lemma erase_tail_spec fuel {st F C cx a x v} :
  RepX st [] (F :: C) (Tn cx a x v E) →
  rbt (plug (F :: C) (Tn cx a x v E)) →
  (tsize (plug (F :: C) (Tn cx a x v E)) < fuel)%nat →
  ∃ st' t', erase_tail fuel st x = Some (st', 1)
    ∧ Rep st' t' ∧ rbt t' ∧ items t' = items (plug (F :: C) a)
    ∧ _nil st' = _nil st ∧ _size st' = size_decr (_size st)
    ∧ dom (heap st') = dom (heap st) ∖ {[x]}
    ∧ parent (node_at st' (_nil st')) = tmax (_nil st') t'.
Proof.
  intros H Hrb Hf.
  destruct (replace_node_spec H) as (R1 & (K1 & K2 & K3) & Hh1).
  pose proof (rz_sub H) as Hs. cbn [rep rootp] in Hs. destruct Hs as (Hxc & _ & _).
  destruct (rz_nil H) as [np Hnil].
  pose proof (tsize_plug (F :: C) (Tn cx a x v E)) as Hlen.
  rewrite tsize_Tn in Hlen.
  destruct (erase_fixup_spec fuel R1 eq_refl Hh1 Hrb ltac:(lia))
    as (st2 & Hrun2 & t2 & R2 & Hrbt2 & Hit2 & (F1 & F2 & F3 & F4)).
  rewrite K1 in Hrun2.
  assert (fnode F ∈ nodes t2) as Hp.
  { rewrite nodes_items, Hit2, <- nodes_items. apply fnode_in_plug. }
  assert (tsize t2 < fuel)%nat as Hf2.
  { pose proof (tsize_plug_lt (F :: C) cx a x v E) as Hlt.
    unfold tsize in *. rewrite Hit2. lia. }
  destruct (erase_finish_spec fuel st2 t2 x _ R2 Hp Hf2)
    as (st' & Hrun3 & R3 & E1 & E2 & E3 & E4).
  exists st', t2. split.
  { unfold erase_tail. rewrite (node_at_cell _ _ _ Hxc).
    cbn [rightChild leftChild]. rewrite (is_real_nil _ _ Hnil). cbn [negb].
    rewrite Hrun2. exact Hrun3. }
  split; [exact R3|]. split; [exact Hrbt2|]. split; [exact Hit2|].
  split; [congruence|]. split; [congruence|]. split; [|exact E4].
  rewrite E3, F3, K3. reflexivity.
Qed.

Lemma node_at_dealloc st (x p : N) :
  p ≠ x → node_at (dealloc st x) p = node_at st p.
Proof.
  intros Hp. unfold node_at, dealloc. cbn [heap].
  by rewrite lookup_total_delete_ne.
Qed.

Lemma erase_tail_root fuel {st cx x v} :
  RepX st [] [] (Tn cx E x v E) → (1 ≤ fuel)%nat →
  ∃ st', erase_tail fuel st x = Some (st', 1)
    ∧ Rep st' E
    ∧ _nil st' = _nil st ∧ _size st' = size_decr (_size st)
    ∧ dom (heap st') = dom (heap st) ∖ {[x]}
    ∧ parent (node_at st' (_nil st')) = _nil st'.
Proof.
  intros H Hf. destruct fuel as [|fuel]; [lia|].
  rz_open H.
  set (st1 := set_right (set_parent st (_nil st) (_nil st)) (_nil st) (_nil st)).
  assert (replace_node st x (_nil st) = st1) as E1
    by (cbv beta delta [replace_node]; let_run).
  assert (erase_fixup (S fuel) st1 x (_nil st) = Some st1) as E2.
  { unfold erase_fixup, st1. hread.
    destruct cx; cbn [delete_case1]; unfold is_real; hread; reflexivity. }
  set (st2 := set_root (set_size st1 (size_decr (_size st))) (_nil st)).
  assert (heap st2 !! _nil st =
          Some (mkNode None BLACK (_nil st) (_nil st) (_nil st))) as Hn2
    by (unfold st2, st1; cell_goal).
  assert (erase_finish (S fuel) st1 x
          = Some (set_parent (dealloc st2 x) (_nil st) (_nil st), 1)) as E3.
  { unfold erase_finish, get_max_value_node, st1. cbn [rightmost].
    unfold is_real. hread. meta_norm. fold st1. fold st2.
    change (_root (dealloc st2 x)) with (_nil st).
    rewrite !(node_at_dealloc st2 x (_nil st)) by done.
    rewrite (node_at_cell _ _ _ Hn2). cbn [rightChild].
    rewrite !(node_at_dealloc st2 x (_nil st)) by done.
    rewrite (node_at_cell _ _ _ Hn2). reflexivity. }
  assert (heap (set_parent (dealloc st2 x) (_nil st) (_nil st)) !! _nil st =
          Some (mkNode None BLACK (_nil st) (_nil st) (_nil st))) as Hn3.
  { unfold set_parent, upd. cbn [heap dealloc _nil].
    rewrite lookup_alter_eq, lookup_delete_ne by done.
    by rewrite Hn2. }
  eexists. split.
  { unfold erase_tail. unfold is_real. hread. rewrite E1, E2. exact E3. }
  split.
  { constructor; cbn [rep crep plug rootp nodes cnodes app]; auto.
    - by exists (_nil st).
    - apply NoDup_nil_2.
    - by intros ?%elem_of_nil.
    - unfold set_parent, upd. cbn [heap dealloc].
      apply lookup_alter_None. rewrite lookup_delete_ne by done.
      unfold st2, st1. none_goal. }
  split; [reflexivity|]. split; [reflexivity|]. split.
  { unfold set_parent, upd. cbn [heap dealloc].
    rewrite dom_alter_L, dom_delete_L. f_equal. unfold st2, st1. dom_chain. }
  change (_nil (set_parent (dealloc st2 x) (_nil st) (_nil st))) with (_nil st).
  by rewrite (node_at_cell _ _ _ Hn3).
Qed.

(** *** The in-order neighbour *)

Lemma tmax_spine nil l :
  l ≠ E → ∃ D cy a y w,
    Forall is_FR D ∧ l = plug D (Tn cy a y w E) ∧ tmax nil l = y.
Proof.
  induction l as [|c l1 _ x v r IHr]; [done|]. intros _.
  destruct r as [|cr rl z vz rr].
  - by exists [], c, l1, x, v.
  - destruct IHr as (D & cy & a & y & w & HD & Heq & Hy); [done|].
    exists (D ++ [FR c l1 x v]), cy, a, y, w.
    split; [apply Forall_app; split; [done|by repeat constructor]|].
    split; [by rewrite plug_app, <- Heq|exact Hy].
Qed.

Lemma RepX_unplug_app {st X D C s} :
  RepX st X C (plug D s) → RepX st X (D ++ C) s.
Proof.
  revert s. induction D as [|F D IH]; intros s H; [done|].
  cbn [plug] in H. apply RepZ_down, IH, H.
Qed.

Lemma snoc_cases {A} (k : list A) : k = [] ∨ ∃ (k' : list A) z, k = k' ++ [z].
Proof.
  induction k as [|z k IH] using rev_ind; [by left|right; eauto].
Qed.

Lemma relink_left {st C c cy a x v y w r D} :
  Forall is_FR D →
  RepX st [] (D ++ FL c x v r :: C) (Tn cy a y w E) →
  RepX (replace_erase_node_relink st x y) [] (D ++ FL c y w r :: C)
    (Tn cy a x v E)
  ∧ kept st (replace_erase_node_relink st x y).
Proof.
  intros HD H. destruct D as [|[|c1 l1 p1 v1] D'].
  - apply (relink_near H).
  - by apply Forall_cons in HD as [[] _].
  - apply Forall_cons in HD as [_ HD].
    destruct (snoc_cases D') as [->|(Dm & [|cn ln pn vn] & ->)].
    + apply (relink_far1 H).
    + by apply Forall_app in HD as [_ [[] _]%Forall_cons].
    + assert (∀ Z, (FR c1 l1 p1 v1 :: Dm ++ [FR cn ln pn vn]) ++ Z
                   = (FR c1 l1 p1 v1 :: Dm) ++ FR cn ln pn vn :: Z) as Heq
        by (intros Z; cbn [app]; by rewrite <- app_assoc).
      rewrite !Heq in H |- *. apply (relink_far H).
Qed.

Lemma is_real_root st par l :
  rep (heap st) (_nil st) par l → l ≠ E → is_real st (rootp (_nil st) l) = true.
Proof.
  destruct l as [|c l1 x v r]; [done|]. cbn [rep rootp].
  intros (Hx & _ & _) _. by rewrite (is_real_cell_gen _ _ _ Hx).
Qed.

Lemma replace_erase_node_left fuel {st C c l x v r} :
  RepX st [] C (Tn c l x v r) → l ≠ E → (tsize l < fuel)%nat →
  ∃ D cy a y w, Forall is_FR D ∧ l = plug D (Tn cy a y w E)
    ∧ ∃ st', replace_erase_node fuel st x = Some (st', x)
      ∧ RepX st' [] (D ++ FL c y w r :: C) (Tn cy a x v E)
      ∧ kept st st'.
Proof.
  intros H Hl Hf.
  destruct (tmax_spine (_nil st) l Hl) as (D & cy & a & y & w & HD & El & Hy).
  exists D, cy, a, y, w. split; [done|]. split; [done|].
  pose proof (rz_sub H) as Hs. cbn [rep] in Hs. destruct Hs as (Hx & Hrl & _).
  pose proof (RepZ_down (F:=FL c x v r) (s:=l) H) as H1.
  rewrite El in H1. apply RepX_unplug_app in H1.
  destruct (relink_left HD H1) as [R K].
  exists (replace_erase_node_relink st x y). split; [|done].
  unfold replace_erase_node. rewrite (node_at_cell _ _ _ Hx). cbn [leftChild].
  rewrite (is_real_root _ _ _ Hrl Hl).
  rewrite (rightmost_spec st x l fuel (rz_nil H) Hrl Hf), Hy. reflexivity.
Qed.

Lemma replace_erase_node_right fuel {st C c cy x v y w} :
  RepX st [] C (Tn c E x v (Tn cy E y w E)) → (2 ≤ fuel)%nat →
  ∃ st', replace_erase_node fuel st x = Some (st', x)
    ∧ RepX st' [] (FR c E y w :: C) (Tn cy E x v E)
    ∧ kept st st'.
Proof.
  intros H Hf.
  pose proof (rz_sub H) as Hs. cbn [rep rootp] in Hs.
  destruct Hs as (Hx & _ & Hy & _).
  destruct (rz_nil H) as [np Hnil].
  pose proof (RepZ_down (F:=FR c E x v) (s:=Tn cy E y w E) H) as H1.
  destruct (relink_right H1) as [R K].
  exists (replace_erase_node_relink st x y). split; [|done].
  unfold replace_erase_node. rewrite (node_at_cell _ _ _ Hx).
  cbn [leftChild rightChild]. rewrite (is_real_nil _ _ Hnil).
  rewrite (is_real_cell_gen _ _ _ Hy). cbn [value].
  destruct fuel as [|fuel]; [lia|]. cbn [leftmost].
  rewrite (node_at_cell _ _ _ Hy). cbn [leftChild].
  by rewrite (is_real_nil _ _ Hnil).
Qed.

Lemma replace_erase_node_leaf fuel {st C c x v} :
  RepX st [] C (Tn c E x v E) → replace_erase_node fuel st x = Some (st, x).
Proof.
  intros H.
  pose proof (rz_sub H) as Hs. cbn [rep rootp] in Hs. destruct Hs as (Hx & _).
  destruct (rz_nil H) as [np Hnil].
  unfold replace_erase_node. rewrite (node_at_cell _ _ _ Hx).
  cbn [leftChild rightChild]. by rewrite (is_real_nil _ _ Hnil).
Qed.

(** *** Colors and order after the trade *)

Lemma cbal_swap D F F' C n :
  fsib F = fsib F' → fcol F = fcol F' →
  cbal (D ++ F :: C) n → cbal (D ++ F' :: C) n.
Proof.
  intros Hs Hc. revert n. induction D as [|G D IH]; intros n; cbn [app cbal].
  - by rewrite Hs, Hc.
  - intros (? & ? & ?). auto.
Qed.

Lemma cparent_black_swap D F F' C :
  fcol F = fcol F' → cparent_black (D ++ F :: C) → cparent_black (D ++ F' :: C).
Proof. destruct D; cbn [app cparent_black]; congruence. Qed.

Lemma cnrr_swap D F F' C :
  fsib F = fsib F' → fcol F = fcol F' →
  cnrr (D ++ F :: C) → cnrr (D ++ F' :: C).
Proof.
  intros Hs Hc. induction D as [|G D IH]; cbn [app cnrr].
  - by rewrite Hs, Hc.
  - intros (? & Hg & ?). split; [done|]. split; [|auto].
    intros Hr. destruct (Hg Hr). eauto using cparent_black_swap.
Qed.

Lemma hole_ok_swap D F F' C s s' :
  fcol F = fcol F' → rootc s = rootc s' →
  hole_ok (D ++ F :: C) s → hole_ok (D ++ F' :: C) s'.
Proof.
  intros Hc Hr. destruct D; cbn [app hole_ok]; intros H ?;
    rewrite <- Hr; apply H; congruence.
Qed.

Lemma rbt_swap D F F' C cy a b x v y w :
  fsib F = fsib F' → fcol F = fcol F' →
  rbt (plug (D ++ F :: C) (Tn cy a y w b)) →
  rbt (plug (D ++ F' :: C) (Tn cy a x v b)).
Proof.
  intros Hs Hc. rewrite !rbt_plug. cbn [bal nrr bh].
  intros (? & ? & ? & ? & ?).
  eauto 10 using cbal_swap, cnrr_swap, hole_ok_swap.
Qed.

Lemma cpre_app D C : cpre (D ++ C) = cpre C ++ cpre D.
Proof.
  induction D as [|[c x v r|c l x v] D IH]; cbn [app cpre].
  - by rewrite app_nil_r.
  - done.
  - by rewrite IH, <- app_assoc.
Qed.

Lemma cpost_app D C : cpost (D ++ C) = cpost D ++ cpost C.
Proof.
  induction D as [|[c x v r|c l x v] D IH]; cbn [app cpost]; [done| |done].
  by rewrite IH, <- app_assoc.
Qed.

Lemma cpost_FR D : Forall is_FR D → cpost D = [].
Proof.
  induction 1 as [|[c x v r|c l x v] D HF _ IH]; cbn [cpost]; [done| |done].
  destruct HF.
Qed.

(** *** [erase] *)

Lemma size_decr_pos (n : nat) :
  Z.of_nat (S n) < size_max → size_decr (Z.of_nat (S n)) = Z.of_nat n.
Proof.
  intros H. unfold size_decr. rewrite Z.mod_small; unfold size_max in *; lia.
Qed.

Lemma erase_core fuel st t (x : N) (v : T) st1 C1 cx a k1 k2 :
  Full st t →
  replace_erase_node fuel st x = Some (st1, x) → kept st st1 →
  RepX st1 [] C1 (Tn cx a x v E) → rbt (plug C1 (Tn cx a x v E)) →
  (C1 = [] → a = E) →
  items t = k1 ++ (x, v) :: k2 → items (plug C1 a) = k1 ++ k2 →
  (tsize t + 2 ≤ fuel)%nat →
  ∃ st' t', erase fuel st x = Some (st', 1) ∧ Full st' t' ∧ rbt t'
    ∧ items t' = k1 ++ k2
    ∧ _nil st' = _nil st
    ∧ parent (node_at st' (_nil st')) = tmax (_nil st') t'.
Proof.
  intros (HR & Hdom & Hsize & Hmax) Hrun (K1 & K2 & K3) R1 Hrb Ha Hit Hit1 Hf.
  assert (x ∈ nodes t) as Hx.
  { rewrite nodes_items, Hit, fmap_app, fmap_cons, elem_of_app, elem_of_cons.
    auto. }
  destruct (RepZ_nodes_Some x HR) as (xv & xc & xq & xl & xr & Hxc);
    [by rewrite app_nil_r|].
  assert (tsize t = S (length (k1 ++ k2))) as Ht.
  { unfold tsize. rewrite Hit, !length_app. cbn [length]. lia. }
  assert (tsize (plug C1 (Tn cx a x v E)) = tsize t) as Ht1.
  { pose proof (f_equal length Hit1) as Hl. rewrite Ht. unfold tsize.
    rewrite items_plug in Hl |- *. cbn [items]. revert Hl.
    repeat (rewrite ?length_app; cbn [length]). lia. }
  assert (x ∉ (k1 ++ k2).*1 ∧ x ≠ _nil st) as [Hxn Hxnil].
  { pose proof (rz_nodup HR) as Hnd. pose proof (rz_nil_out HR) as Hout.
    rewrite app_nil_r in Hnd, Hout. rewrite nodes_items, Hit in Hnd, Hout.
    rewrite fmap_app, fmap_cons in Hnd, Hout. cbn [fst] in Hnd, Hout.
    apply NoDup_app in Hnd as (N1 & N2 & N3). apply NoDup_cons in N3 as [N3 N4].
    split.
    - rewrite fmap_app, elem_of_app. intros [Hin|Hin]; [|done].
      apply (N2 _ Hin). apply elem_of_cons. auto.
    - intros ->. apply Hout. rewrite elem_of_app, elem_of_cons. auto. }
  assert (∃ st' t', erase_tail fuel st1 x = Some (st', 1)
    ∧ Rep st' t' ∧ rbt t' ∧ items t' = k1 ++ k2
    ∧ _nil st' = _nil st1 ∧ _size st' = size_decr (_size st1)
    ∧ dom (heap st') = dom (heap st1) ∖ {[x]}
    ∧ parent (node_at st' (_nil st')) = tmax (_nil st') t')
    as (st' & t' & Hrun' & R' & Hrbt' & Hit' & E1 & E2 & E3 & E4).
  { destruct C1 as [|F C1].
    - rewrite (Ha eq_refl) in R1, Hit1.
      destruct (erase_tail_root fuel R1 ltac:(lia))
        as (st' & Hrun' & R' & E1 & E2 & E3 & E4).
      exists st', E. split; [done|]. split; [done|]. split; [by unfold rbt|].
      split; [by rewrite <- Hit1|]. auto.
    - destruct (erase_tail_spec fuel R1 Hrb ltac:(lia))
        as (st' & t' & Hrun' & R' & Hrbt' & Hit' & E1 & E2 & E3 & E4).
      exists st', t'. split; [done|]. split; [done|]. split; [done|].
      split; [congruence|]. auto. }
  exists st', t'. split.
  { rewrite erase_unfold, (is_real_cell_gen _ _ _ Hxc). cbn [value negb].
    rewrite Hrun. exact Hrun'. }
  split; [|split; [done|]; split; [done|]; split; [congruence|done]].
  assert (tsize t' = length (k1 ++ k2)) as Ht' by (unfold tsize; by rewrite Hit').
  split; [done|]. split; [|split].
  - rewrite E3, K3, Hdom, E1, K1.
    rewrite (nodes_items t'), Hit', (nodes_items t), Hit.
    rewrite !fmap_app, fmap_cons, !list_to_set_app_L, list_to_set_cons.
    cbn [fst]. rewrite fmap_app, elem_of_app in Hxn.
    apply set_eq. intros p.
    rewrite elem_of_difference, !elem_of_union, !elem_of_singleton,
      !elem_of_list_to_set.
    split; [intros [[?|[?|[?|?]]] ?]; tauto|].
    intros [Hp|[Hp|Hp]]; (split; [tauto|]); intros Hpx; subst p;
      [congruence|tauto|tauto].
  - rewrite E2, K2, Hsize, Ht, Ht'. apply size_decr_pos. lia.
  - rewrite E2, K2, Hsize, Ht. rewrite size_decr_pos by lia. lia.
Qed.

Lemma erase_nil fuel st t :
  Rep st t → erase fuel st (_nil st) = Some (st, 0).
Proof.
  intros HR. destruct (rz_nil HR) as [np Hnil].
  by rewrite erase_unfold, (is_real_nil _ _ Hnil).
Qed.

Lemma black_bh0 s : rootc s = BLACK → bh s = 0%nat → s = E.
Proof. destruct s as [|[|] ? ? ? ?]; cbn [rootc bh c2n]; [done|done|lia]. Qed.

Lemma kept_refl st : kept st st.
Proof. by repeat split. Qed.

Lemma erase_spec fuel st t (x : N) :
  Full st t → rbt t → x ∈ nodes t → (tsize t + 2 ≤ fuel)%nat →
  ∃ st' t' k1 v k2, erase fuel st x = Some (st', 1) ∧ Full st' t' ∧ rbt t'
    ∧ items t = k1 ++ (x, v) :: k2 ∧ items t' = k1 ++ k2
    ∧ _nil st' = _nil st
    ∧ parent (node_at st' (_nil st')) = tmax (_nil st') t'.
Proof.
  intros HF Hrb Hx Hf.
  destruct (nodes_focus _ _ Hx) as (C & c & l & v & r & Et).
  pose proof HF as (HR & _).
  assert (RepX st [] C (Tn c l x v r)) as H0
    by (apply Rep_unplug; rewrite <- Et; exact HR).
  pose proof (tsize_plug C (Tn c l x v r)) as Hsz.
  rewrite <- Et, tsize_Tn in Hsz.
  assert (∀ st1 C1 cx a k1 k2,
    replace_erase_node fuel st x = Some (st1, x) → kept st st1 →
    RepX st1 [] C1 (Tn cx a x v E) → rbt (plug C1 (Tn cx a x v E)) →
    (C1 = [] → a = E) →
    items t = k1 ++ (x, v) :: k2 → items (plug C1 a) = k1 ++ k2 →
    ∃ st' t' k1 v k2, erase fuel st x = Some (st', 1) ∧ Full st' t' ∧ rbt t'
      ∧ items t = k1 ++ (x, v) :: k2 ∧ items t' = k1 ++ k2
      ∧ _nil st' = _nil st
      ∧ parent (node_at st' (_nil st')) = tmax (_nil st') t') as Hcore.
  { intros st1 C1 cx a k1 k2 Hrun K R1 Hrb1 Ha Hit Hit1.
    destruct (erase_core fuel st t x v st1 C1 cx a k1 k2 HF Hrun K R1 Hrb1 Ha
                Hit Hit1 Hf) as (st' & t' & ? & ? & ? & ? & ? & ?).
    exists st', t', k1, v, k2. auto 10. }
  assert (l = E ∨ l ≠ E) as [->|Hl] by (destruct l; [by left|by right]).
  - assert (bh r = 0%nat ∧ nrr r ∧ bal r) as (Hbr & Hnr & Hblr).
    { rewrite Et in Hrb. apply rbt_plug in Hrb.
      destruct Hrb as (Hb & _ & Hn & _). cbn [bal nrr bh] in Hb, Hn.
      destruct Hb as (Hb & _ & ?), Hn as (_ & _ & ?). auto. }
    destruct r as [|cr rl y w rr].
    + apply (Hcore st C c E (cpre C) (cpost C)).
      * apply (replace_erase_node_leaf fuel H0).
      * apply kept_refl.
      * exact H0.
      * by rewrite <- Et.
      * done.
      * by rewrite Et, items_plug.
      * by rewrite items_plug.
    + cbn [bh bal nrr] in Hbr, Hnr, Hblr.
      destruct cr; [|cbn [c2n] in Hbr; lia].
      destruct Hnr as (Hroots & _ & _). destruct (Hroots eq_refl) as [Hl1 Hr1].
      destruct Hblr as (Hbb & _ & _).
      assert (rl = E) as -> by (apply black_bh0; [done|cbn [c2n] in Hbr; lia]).
      assert (rr = E) as -> by (apply black_bh0; [done|cbn [c2n bh] in *; lia]).
      destruct (replace_erase_node_right fuel H0 ltac:(lia))
        as (st1 & Hrun & R1 & K).
      apply (Hcore st1 (FR c E y w :: C) RED E (cpre C) ((y, w) :: cpost C)).
      * exact Hrun.
      * exact K.
      * exact R1.
      * rewrite Et in Hrb.
        apply (rbt_swap [] (FR c E x v) (FR c E y w) C RED E E x v y w
                 eq_refl eq_refl Hrb).
      * done.
      * by rewrite Et, items_plug.
      * rewrite items_plug. cbn [cpre cpost items app].
        by rewrite <- !app_assoc.
  - assert (tsize l < fuel)%nat as Hfl by lia.
    destruct (replace_erase_node_left fuel H0 Hl Hfl)
      as (D & cy & a & y & w & HD & El & st1 & Hrun & R1 & K).
    assert (t = plug (D ++ FL c x v r :: C) (Tn cy a y w E)) as Et'
      by (rewrite plug_app, <- El; exact Et).
    apply (Hcore st1 (D ++ FL c y w r :: C) cy a
             (cpre C ++ cpre D ++ items a ++ [(y, w)]) (items r ++ cpost C)).
    + exact Hrun.
    + exact K.
    + exact R1.
    + rewrite Et' in Hrb.
      apply (rbt_swap D (FL c x v r) (FL c y w r) C cy a E x v y w
               eq_refl eq_refl Hrb).
    + intros HD0. destruct D; discriminate HD0.
    + rewrite Et', items_plug, cpre_app, cpost_app, (cpost_FR D HD).
      cbn [cpre cpost items app]. by rewrite <- !app_assoc.
    + rewrite items_plug, cpre_app, cpost_app, (cpost_FR D HD).
      cbn [cpre cpost items app]. by rewrite <- !app_assoc.
Qed.

End Erase.
(** ** The ordered iterator and the bounds *)

Section Iter.
Context {T : Type}.
Variable comp : T -> T -> bool.
Implicit Types st : RBTree T.
Implicit Types s t a b d l r : @tree T.
Implicit Types C D : list (@frame T).

Lemma first_node_app nil (k1 k2 : list (N * T)) :
  k1 ≠ [] → first_node nil (k1 ++ k2) = first_node nil k1.
Proof. by destruct k1. Qed.

Lemma items_nonempty c l x (v : T) r : items (Tn c l x v r) ≠ [].
Proof. cbn [items]. by destruct (items l). Qed.

Lemma tmin_first nil s : tmin nil s = first_node nil (items s).
Proof.
  induction s as [|c l IHl x v r _]; [done|]. cbn [tmin items].
  destruct l as [|cl ll y w lr]; [done|].
  rewrite IHl. symmetry. apply first_node_app, items_nonempty.
Qed.

Lemma cnext_first nil C : cnext nil C = first_node nil (cpost C).
Proof. induction C as [|[c x v r|c l x v] C IH]; cbn [cnext cpost]; auto. Qed.

Lemma iter_ascend_spec st fuel : ∀ C s,
  RepX st [] C s → s ≠ E → (length C < fuel)%nat →
  iter_ascend fuel st (rootp (_nil st) s) = Some (cnext (_nil st) C).
Proof.
  induction fuel as [|fuel IH]; intros C s H Hs Hf; [lia|].
  destruct s as [|c l x v r]; [done|].
  destruct C as [|[cP P vP sib|cP sib P vP] C].
  - rz_open H. cbn [iter_ascend rootp cnext]. unfold is_real. hread. reflexivity.
  - pose proof H as H'. rz_open H'. cbn [iter_ascend rootp cnext].
    unfold is_real. hread. reflexivity.
  - pose proof H as H'. rz_open H'. cbn [iter_ascend rootp cnext].
    unfold is_real. hread.
    apply (IH C (Tn cP sib P vP (Tn c l x v r)) (RepZ_up H)); [done|].
    cbn [length] in Hf. lia.
Qed.

Lemma iter_next_focus st fuel C c l x v r :
  RepX st [] C (Tn c l x v r) →
  (length C + tsize r < fuel)%nat →
  iter_next fuel st x = Some (first_node (_nil st) (items r ++ cpost C)).
Proof.
  intros H Hf.
  pose proof (rz_sub H) as Hs. cbn [rep] in Hs. destruct Hs as (Hx & _ & Hr).
  destruct (rz_nil H) as [np Hnil].
  unfold iter_next. rewrite (node_at_cell _ _ _ Hx). cbn [rightChild].
  destruct r as [|cr rl y w rr].
  - cbn [rootp items app]. rewrite (is_real_nil _ _ Hnil).
    rewrite <- cnext_first.
    apply (iter_ascend_spec st fuel C (Tn c l x v E) H); [done|lia].
  - rewrite (is_real_root _ _ _ Hr) by done.
    rewrite (leftmost_spec st x _ fuel (rz_nil H) Hr) by lia.
    rewrite tmin_first. f_equal. symmetry.
    apply first_node_app, items_nonempty.
Qed.

Lemma items_split_unique (k1 k2 k1' k2' : list (N * T)) x v v' :
  NoDup ((k1 ++ (x, v) :: k2).*1) →
  k1 ++ (x, v) :: k2 = k1' ++ (x, v') :: k2' →
  k1 = k1' ∧ v = v' ∧ k2 = k2'.
Proof.
  revert k1'. induction k1 as [|[y w] k1 IH]; intros k1' Hnd Heq.
  - destruct k1' as [|[y' w'] k1'].
    + by simplify_eq.
    + cbn in Heq. simplify_eq. cbn in Hnd.
      apply NoDup_cons in Hnd as [Hnin _]. exfalso. apply Hnin.
      rewrite fmap_app, fmap_cons, elem_of_app, elem_of_cons. auto.
  - destruct k1' as [|[y' w'] k1'].
    + cbn in Heq. simplify_eq. cbn in Hnd.
      apply NoDup_cons in Hnd as [Hnin _]. exfalso. apply Hnin.
      rewrite fmap_app, fmap_cons, elem_of_app, elem_of_cons. auto.
    + cbn in Heq. simplify_eq. cbn in Hnd.
      apply NoDup_cons in Hnd as [_ Hnd].
      destruct (IH k1' Hnd) as (? & ? & ?); [done|]. by subst.
Qed.

Lemma Rep_focus st t k1 x v k2 :
  Rep st t → items t = k1 ++ (x, v) :: k2 →
  ∃ C c l r, t = plug C (Tn c l x v r)
    ∧ k1 = cpre C ++ items l ∧ k2 = items r ++ cpost C.
Proof.
  intros HR Hit.
  assert (x ∈ nodes t) as Hx.
  { rewrite nodes_items, Hit, fmap_app, fmap_cons, elem_of_app, elem_of_cons.
    auto. }
  destruct (nodes_focus _ _ Hx) as (C & c & l & v' & r & Et).
  pose proof (rz_nodup HR) as Hnd. rewrite app_nil_r, nodes_items, Hit in Hnd.
  rewrite Et, items_plug in Hit. cbn [items] in Hit.
  rewrite <- !app_assoc, (app_assoc (cpre C)) in Hit. cbn [app] in Hit.
  symmetry in Hit.
  destruct (items_split_unique _ _ _ _ _ _ _ Hnd Hit) as (E1 & E2 & E3).
  subst v'. by exists C, c, l, r.
Qed.

Lemma iter_next_spec st t fuel k1 x v k2 :
  Rep st t → items t = k1 ++ (x, v) :: k2 → (tsize t < fuel)%nat →
  iter_next fuel st x = Some (first_node (_nil st) k2).
Proof.
  intros HR Hit Hf.
  destruct (Rep_focus _ _ _ _ _ _ HR Hit) as (C & c & l & r & Et & _ & ->).
  pose proof (tsize_plug C (Tn c l x v r)) as Hsz.
  rewrite <- Et, tsize_Tn in Hsz.
  apply (iter_next_focus st fuel C c l x v r); [|lia].
  apply Rep_unplug. by rewrite <- Et.
Qed.

Lemma get_begin_spec st t fuel :
  Rep st t → (tsize t < fuel)%nat →
  get_begin fuel st = Some (first_node (_nil st) (items t)).
Proof.
  intros HR Hf. unfold get_begin.
  pose proof (rz_root HR) as Hroot. cbn [plug] in Hroot. rewrite Hroot.
  rewrite (leftmost_spec st _ t fuel (rz_nil HR) (rz_sub HR) Hf).
  by rewrite tmin_first.
Qed.

Lemma Rep_value st t x v :
  Rep st t → (x, v) ∈ items t → heap st !! x ≠ None ∧ value (node_at st x) = Some v.
Proof.
  intros HR Hin. apply list_elem_of_split in Hin as (k1 & k2 & Hit).
  destruct (Rep_focus _ _ _ _ _ _ HR Hit) as (C & c & l & r & Et & _).
  rewrite Et in HR. apply Rep_unplug in HR.
  pose proof (rz_sub HR) as Hs. cbn [rep] in Hs. destruct Hs as (Hx & _).
  rewrite (node_at_cell _ _ _ Hx). by rewrite Hx.
Qed.

Lemma Rep_first_ne_nil st t k1 k2 :
  Rep st t → items t = k1 ++ k2 → k2 ≠ [] → first_node (_nil st) k2 ≠ _nil st.
Proof.
  intros HR Hit Hk. destruct k2 as [|[x v] k2]; [done|]. cbn [first_node].
  intros ->. apply (rz_nil_out HR).
  rewrite app_nil_r, nodes_items, Hit, fmap_app, fmap_cons, elem_of_app,
    elem_of_cons. auto.
Qed.

(** The scan of [lower_bound] and [upper_bound]: [go] tells whether the
    iterator advances past a payload. *)
Lemma bound_loop_spec (go : T → bool) (loop : nat → RBTree T → N → option N) st t :
  (∀ fuel it, loop (S fuel) st it =
     if bool_decide (it = get_end st) then Some it
     else match value (node_at st it) with
          | None => None
          | Some v => if go v
                      then nx ← iter_next fuel st it; loop fuel st nx
                      else Some it
          end) →
  Rep st t →
  ∀ k2 k1 fuel, items t = k1 ++ k2 →
    (tsize t + length k2 < fuel)%nat →
    loop fuel st (first_node (_nil st) k2)
    = Some (bound_of (λ v, negb (go v)) (_nil st) k2).
Proof.
  intros Hloop HR. induction k2 as [|[x v] k2 IH]; intros k1 fuel Hit Hf.
  - destruct fuel as [|fuel]; [lia|]. rewrite Hloop. cbn [first_node bound_of].
    unfold get_end. by rewrite bool_decide_eq_true_2.
  - destruct fuel as [|fuel]; [cbn in Hf; lia|]. rewrite Hloop.
    cbn [first_node bound_of length] in *.
    unfold get_end. rewrite bool_decide_eq_false_2
      by (apply (Rep_first_ne_nil st t k1 ((x, v) :: k2) HR Hit); done).
    destruct (Rep_value st t x v HR) as [_ Hv].
    { rewrite Hit, elem_of_app, elem_of_cons. auto. }
    rewrite Hv. destruct (go v); cbn [negb]; [|done].
    rewrite (iter_next_spec st t fuel k1 x v k2 HR Hit) by lia.
    cbn [mbind option_bind].
    apply (IH (k1 ++ [(x, v)])); [by rewrite <- app_assoc|lia].
Qed.

Lemma lower_bound_spec st t (k : T) fuel :
  Rep st t → (2 * tsize t + 1 < fuel)%nat →
  lower_bound comp fuel st k
  = Some (bound_of (λ v, negb (comp v k)) (_nil st) (items t)).
Proof.
  intros HR Hf. unfold lower_bound.
  rewrite (get_begin_spec st t fuel HR) by lia. cbn [mbind option_bind].
  rewrite (bound_loop_spec (λ v, comp v k)
             (λ fuel st it, lower_bound_loop comp fuel st k it) st t
             ltac:(reflexivity) HR (items t) [] fuel eq_refl)
    by (unfold tsize in *; lia).
  reflexivity.
Qed.

Lemma upper_bound_spec st t (k : T) fuel :
  Rep st t → (2 * tsize t + 1 < fuel)%nat →
  upper_bound comp fuel st k
  = Some (bound_of (λ v, comp k v) (_nil st) (items t)).
Proof.
  intros HR Hf. unfold upper_bound.
  rewrite (get_begin_spec st t fuel HR) by lia. cbn [mbind option_bind].
  rewrite (bound_loop_spec (λ v, negb (comp k v))
             (λ fuel st it, upper_bound_loop comp fuel st k it) st t
             ltac:(reflexivity) HR (items t) [] fuel eq_refl)
    by (unfold tsize in *; lia).
  f_equal. induction (items t) as [|[x v] l IH]; cbn [bound_of]; [done|].
  rewrite negb_involutive. by rewrite IH.
Qed.

End Iter.
(** ** Every reachable tree object holds a red-black tree *)

Section Reach.
Context {T : Type}.
Variable comp : T -> T -> bool.
Implicit Types st : RBTree T.
Implicit Types s t a b d l r : @tree T.
Implicit Types C D : list (@frame T).

Lemma Full_new : Full (@RBTree_new T) E.
Proof.
  assert (alloc (∅ : gmap N (RBTreeNode T)) ≠ NULL) as Hne
    by apply alloc_fresh.
  unfold RBTree_new, make_nil.
  set (nl := alloc (∅ : gmap N (RBTreeNode T))) in *.
  split; [|split; [|split]]; cbn [heap _root _nil _size].
  - constructor; cbn [heap _root _nil _size rep crep plug rootp nodes cnodes app];
      auto.
    all: first [ by (exists nl; apply lookup_insert_eq)
               | apply NoDup_nil_2
               | by intros ?%elem_of_nil
               | by (rewrite lookup_insert_ne by done; apply lookup_empty) ].
  - rewrite dom_insert_L, dom_empty_L. cbn [nodes list_to_set]. set_solver.
  - reflexivity.
  - reflexivity.
Qed.

Lemma Full_dom st t p :
  Full st t → p ∈ dom (heap st) ↔ p = _nil st ∨ p ∈ nodes t.
Proof.
  intros (_ & Hdom & _). rewrite Hdom, elem_of_union, elem_of_singleton,
    elem_of_list_to_set. tauto.
Qed.

Lemma Full_budget st t : Full st t → (budget st = 2 * tsize t + 4)%nat.
Proof. intros (_ & _ & Hs & _). unfold budget. rewrite Hs. lia. Qed.

Lemma insert_valid st k hint fuel :
  valid st → hint = NULL ∨ hint ∈ dom (heap st) →
  _size st + 1 < size_max → (budget st ≤ fuel)%nat →
  ∃ st' res, insert comp fuel st k hint = Some (st', res) ∧ valid st'.
Proof.
  intros (t & HF & Hrb) Hh Hs Hf.
  rewrite (Full_budget _ _ HF) in Hf.
  destruct (insert_spec comp st t k hint fuel HF Hrb) as (st' & res & Hrun & Hpost);
    [|done|lia|].
  { destruct Hh as [->|Hh]; [by left|right].
    by apply (Full_dom _ _ _ HF) in Hh. }
  exists st', res. split; [done|].
  destruct Hpost as [(_ & t' & _ & _ & _ & _ & _ & _ & HF' & Hrb' & _)|(_ & -> & _)].
  - by exists t'.
  - by exists t.
Qed.

Lemma erase_valid st x fuel :
  valid st → x ∈ dom (heap st) → (budget st ≤ fuel)%nat →
  ∃ st' n, erase fuel st x = Some (st', n) ∧ valid st'.
Proof.
  intros (t & HF & Hrb) Hx Hf.
  rewrite (Full_budget _ _ HF) in Hf.
  apply (Full_dom _ _ _ HF) in Hx. destruct Hx as [->|Hx].
  - exists st, 0. split; [apply (erase_nil fuel st t), HF|by exists t].
  - destruct (erase_spec fuel st t x HF Hrb Hx ltac:(lia))
      as (st' & t' & k1 & v & k2 & Hrun & HF' & Hrb' & _).
    exists st', 1. split; [done|by exists t'].
Qed.

Lemma Reach_valid st : Reach comp st → valid st.
Proof.
  induction 1 as [|st k hint fuel st' res _ IH Hh Hs Hf Hrun
                  |st x fuel st' n _ IH Hx Hf Hrun].
  - exists E. split; [apply Full_new|by unfold rbt].
  - destruct (insert_valid st k hint fuel IH Hh Hs Hf) as (? & ? & Hrun' & ?).
    congruence.
  - destruct (erase_valid st x fuel IH Hx Hf) as (? & ? & Hrun' & ?).
    congruence.
Qed.

(** *** The red-black properties read off the cells *)

Lemma dpath_bh st par s n :
  nilcell (heap st) (_nil st) → rep (heap st) (_nil st) par s →
  _nil st ∉ nodes s → bal s →
  dpath st (rootp (_nil st) s) n → n = bh s.
Proof.
  intros [np Hnil]. revert par n.
  induction s as [|c l IHl x v r IHr]; intros par n Hs Hout Hb Hp.
  - cbn [rootp bh] in *. inversion Hp as [|p m Hreal _|p m Hreal _]; subst;
      [done| |]; by rewrite (is_real_nil _ _ Hnil) in Hreal.
  - cbn [rootp bh rep nodes bal] in *. destruct Hs as (Hx & Hl & Hr).
    destruct Hb as (Hbh & Hbl & Hbr). nd_all.
    inversion Hp as [Heq|p m Hreal Hm|p m Hreal Hm]; subst.
    + congruence.
    + rewrite (node_at_cell _ _ _ Hx) in Hm |- *. cbn [leftChild color] in *.
      by rewrite (IHl _ _ Hl ltac:(done) Hbl Hm).
    + rewrite (node_at_cell _ _ _ Hx) in Hm |- *. cbn [rightChild color] in *.
      by rewrite (IHr _ _ Hr ltac:(done) Hbr Hm), Hbh.
Qed.

Lemma bh_dpath st par s :
  rep (heap st) (_nil st) par s → dpath st (rootp (_nil st) s) (bh s).
Proof.
  revert par. induction s as [|c l IHl x v r _]; intros par Hs.
  - apply dpath_end.
  - cbn [rootp bh rep] in *. destruct Hs as (Hx & Hl & Hr).
    pose proof (dpath_left st x (bh l) (is_real_cell _ _ _ _ _ _ _ Hx)) as Hd.
    rewrite (node_at_cell _ _ _ Hx) in Hd. cbn [leftChild color] in Hd.
    apply Hd. apply (IHl _ Hl).
Qed.

Lemma valid_node st t (p : N) :
  Full st t → rbt t → p ∈ nodes t →
  ∃ c l v r par,
    heap st !! p = Some (mkNode (Some v) c par (rootp (_nil st) l) (rootp (_nil st) r))
    ∧ rep (heap st) (_nil st) p l ∧ rep (heap st) (_nil st) p r
    ∧ _nil st ∉ nodes l ∧ _nil st ∉ nodes r
    ∧ bh l = bh r ∧ bal l ∧ bal r
    ∧ (c = RED → rootc l = BLACK ∧ rootc r = BLACK).
Proof.
  intros (HR & _) Hrb Hp.
  destruct (nodes_focus _ _ Hp) as (C & c & l & v & r & Et).
  rewrite Et in HR, Hrb. apply Rep_unplug in HR. apply rbt_plug in Hrb.
  destruct Hrb as ((Hbh & Hbl & Hbr) & _ & (Hn & _ & _) & _).
  pose proof (rz_sub HR) as Hs. cbn [rep] in Hs. destruct Hs as (Hx & Hl & Hr).
  pose proof (rz_nil_out HR) as Hout. cbn [nodes] in Hout. nd_all.
  exists c, l, v, r, (cpar (_nil st) C). auto 10.
Qed.

Lemma valid_props st :
  valid st →
  color (node_at st (_root st)) = BLACK
  ∧ color (node_at st (_nil st)) = BLACK
  ∧ (∀ p, p ∈ dom (heap st) → color (node_at st p) = RED →
       color (node_at st (leftChild (node_at st p))) = BLACK
       ∧ color (node_at st (rightChild (node_at st p))) = BLACK)
  ∧ (∀ p, p ∈ dom (heap st) → is_real st p = true →
       ∃ n, bpaths st p n ∧ ∀ m, bpaths st p m → m = n).
Proof.
  intros (t & HF & Hrb). pose proof HF as (HR & _).
  destruct (rz_nil HR) as [np Hnil].
  assert (color (node_at st (_nil st)) = BLACK) as Hnb
    by (by rewrite (node_at_cell _ _ _ Hnil)).
  split; [|split; [done|split]].
  - rewrite (rz_root HR). cbn [plug].
    rewrite (rootc_read _ _ _ _ _ (rz_sub HR) Hnil). apply Hrb.
  - intros p Hp Hred. apply (Full_dom _ _ _ HF) in Hp.
    destruct Hp as [->|Hp]; [congruence|].
    destruct (valid_node st t p HF Hrb Hp)
      as (c & l & v & r & par & Hx & Hl & Hr & _ & _ & _ & _ & _ & Hn).
    rewrite (node_at_cell _ _ _ Hx) in Hred |- *.
    cbn [color leftChild rightChild] in *.
    rewrite (rootc_read _ _ _ _ _ Hl Hnil), (rootc_read _ _ _ _ _ Hr Hnil).
    auto.
  - intros p Hp Hreal. apply (Full_dom _ _ _ HF) in Hp.
    destruct Hp as [->|Hp]; [by rewrite (is_real_nil _ _ Hnil) in Hreal|].
    destruct (valid_node st t p HF Hrb Hp)
      as (c & l & v & r & par & Hx & Hl & Hr & Hol & Hor & Hbh & Hbl & Hbr & _).
    exists (bh l). unfold bpaths. rewrite (node_at_cell _ _ _ Hx).
    cbn [leftChild rightChild]. split.
    + left. apply (bh_dpath _ _ _ Hl).
    + intros m [Hm|Hm].
      * apply (dpath_bh st p l m); eauto. by exists np.
      * rewrite Hbh. apply (dpath_bh st p r m); eauto. by exists np.
Qed.

End Reach.
(** ** Payloads, nodes and the in-order sequence *)

Section Facts.
Context {T : Type}.
Variable comp : T -> T -> bool.
Implicit Types st : RBTree T.
Implicit Types s t a b d l r : @tree T.
Implicit Types C D : list (@frame T).

Lemma node_at_None st (p : N) :
  heap st !! p = None → node_at st p = mkNode None BLACK NULL NULL NULL.
Proof. intros H. unfold node_at. by rewrite lookup_total_alt, H. Qed.

Lemma Full_real st t (p : N) :
  Full st t → is_real st p = true ↔ p ∈ nodes t.
Proof.
  intros HF. pose proof HF as (HR & _). destruct (rz_nil HR) as [np Hnil].
  split.
  - intros Hreal. destruct (heap st !! p) as [n|] eqn:Hp.
    + assert (p ∈ dom (heap st)) as Hd by (apply elem_of_dom; eauto).
      apply (Full_dom _ _ _ HF) in Hd. destruct Hd as [->|Hd]; [|done].
      by rewrite (is_real_nil _ _ Hnil) in Hreal.
    + unfold is_real in Hreal. by rewrite (node_at_None _ _ Hp) in Hreal.
  - intros Hp. destruct (RepZ_nodes_Some p HR) as (v & c & q & pl & pr & Hc);
      [by rewrite app_nil_r|].
    by rewrite (is_real_cell_gen _ _ _ Hc).
Qed.

Lemma node_item st t (p : N) :
  Full st t → p ∈ nodes t → ∃ v, (p, v) ∈ items t.
Proof.
  intros _. rewrite nodes_items, list_elem_of_fmap.
  intros ([q v] & -> & Hin). by exists v.
Qed.

Lemma value_stable st t st' t' :
  Full st t → Full st' t' → _nil st' = _nil st →
  (∀ e, e ∈ items t' → e ∈ items t) →
  ∀ p, is_real st' p = true → value (node_at st' p) = value (node_at st p).
Proof.
  intros HF HF' Hnil Hsub p Hreal.
  apply (Full_real _ _ _ HF') in Hreal.
  destruct (node_item _ _ _ HF' Hreal) as (v & Hin).
  destruct (Rep_value st' t' p v (proj1 HF') Hin) as [_ ->].
  by destruct (Rep_value st t p v (proj1 HF) (Hsub _ Hin)) as [_ ->].
Qed.

Lemma value_same st t st' t' :
  Full st t → Full st' t' → _nil st' = _nil st →
  items t' ≡ₚ items t →
  ∀ p, value (node_at st' p) = value (node_at st p).
Proof.
  intros HF HF' Hnil Hperm p.
  assert (∀ q, q ∈ nodes t' ↔ q ∈ nodes t) as Hn.
  { intros q. rewrite !nodes_items. by rewrite Hperm. }
  destruct (is_real st' p) eqn:Hreal.
  - apply (value_stable st t st' t' HF HF' Hnil); [|done].
    intros e. by rewrite Hperm.
  - assert (is_real st p = false) as Hreal'.
    { destruct (is_real st p) eqn:Hr; [|done].
      apply (Full_real _ _ _ HF), Hn, (Full_real _ _ _ HF') in Hr. congruence. }
    unfold is_real in *.
    destruct (value (node_at st' p)); [done|].
    by destruct (value (node_at st p)).
Qed.

End Facts.

Section Unique.
Context {T : Type}.
Implicit Types st : RBTree T.
Implicit Types s t a b d l r : @tree T.

(** A tree object holds one tree only. *)
Lemma rep_unique (h : gmap N (RBTreeNode T)) (nil : N) : ∀ t t0 par par0,
  rep h nil par t → rep h nil par0 t0 →
  rootp nil t = rootp nil t0 →
  nil ∉ nodes t → nil ∉ nodes t0 → t = t0.
Proof.
  induction t as [|c l IHl x v r IHr]; intros t0 par par0 Ht Ht0 Hroot Hn Hn0;
    destruct t0 as [|c0 l0 x0 v0 r0]; cbn [rootp] in Hroot.
  - done.
  - exfalso. apply Hn0. subst x0. cbn [nodes].
    rewrite elem_of_app, elem_of_cons. auto.
  - exfalso. apply Hn. subst x. cbn [nodes].
    rewrite elem_of_app, elem_of_cons. auto.
  - subst x0. cbn [rep] in Ht, Ht0.
    destruct Ht as (Hx & Hl & Hr). destruct Ht0 as (Hx0 & Hl0 & Hr0).
    rewrite Hx in Hx0. injection Hx0 as Hv Hc Hp Hrl Hrr.
    cbn [nodes] in Hn, Hn0.
    rewrite elem_of_app, elem_of_cons in Hn.
    rewrite elem_of_app, elem_of_cons in Hn0.
    rewrite (IHl l0 x x Hl Hl0 Hrl) by tauto.
    rewrite (IHr r0 x x Hr Hr0 Hrr) by tauto.
    by subst.
Qed.

Lemma Full_unique st t t0 : Full st t → Full st t0 → t = t0.
Proof.
  intros (HR & _) (HR0 & _).
  pose proof (rz_root HR) as Hroot. pose proof (rz_root HR0) as Hroot0.
  pose proof (rz_nil_out HR) as Hout. pose proof (rz_nil_out HR0) as Hout0.
  cbn [plug] in Hroot, Hroot0. rewrite app_nil_r in Hout, Hout0.
  apply (rep_unique (heap st) (_nil st) t t0 _ _ (rz_sub HR) (rz_sub HR0));
    [congruence|done|done].
Qed.

End Unique.
(** * Further properties of the tree and of the map *)

(** ** Search order *)

Section Order.
Context {T : Type}.
Variable comp : T -> T -> bool.
Hypothesis comp_trans :
  ∀ a b c, comp a b = true → comp b c = true → comp a c = true.
Implicit Types st : RBTree T.
Implicit Types s t l r : @tree T.
Implicit Types C : list (@frame T).

Lemma ordered_Tn c l x v r :
  ordered comp (Tn c l x v r) ↔
  ordered comp l ∧ ordered comp r
  ∧ Forall (λ e, comp e.2 v = true) (items l)
  ∧ Forall (λ e, comp v e.2 = true) (items r)
  ∧ (∀ a b, a ∈ items l → b ∈ items r → comp a.2 b.2 = true).
Proof.
  unfold ordered, payloads. cbn [items].
  rewrite fmap_app, fmap_cons. cbn [snd].
  rewrite StronglySorted_app, StronglySorted_cons.
  rewrite !Forall_forall. split.
  - intros (H1 & H2 & H3 & H4). repeat split; auto.
    + intros e He. apply H1; [|by left]. apply list_elem_of_fmap; eauto.
    + intros e He. apply H3. apply list_elem_of_fmap; eauto.
    + intros a b Ha Hb. apply H1; [|right]; apply list_elem_of_fmap; eauto.
  - intros (H1 & H2 & H3 & H4 & H5). repeat split; auto.
    + intros a b ([x1 a1] & -> & Ha)%list_elem_of_fmap [->|Hb]%elem_of_cons.
      * apply (H3 _ Ha).
      * apply list_elem_of_fmap in Hb as ([x2 b2] & -> & Hb).
        apply (H5 _ _ Ha Hb).
    + intros b ([x2 b2] & -> & Hb)%list_elem_of_fmap. apply (H4 _ Hb).
Qed.

(** The descent keeps everything before the link it reaches below the
    searched payload, and everything after it above. *)
Lemma descend_bounds k : ∀ s C C',
  ordered comp s →
  Forall (λ e, comp e.2 k = true) (cpre C) →
  Forall (λ e, comp k e.2 = true) (cpost C) →
  descend comp k s C = inl C' →
  Forall (λ e, comp e.2 k = true) (cpre C')
  ∧ Forall (λ e, comp k e.2 = true) (cpost C').
Proof using Type*.
  induction s as [|c l IHl x v r IHr]; intros C C' Hs Hpre Hpost; cbn [descend].
  - by intros [= <-].
  - apply ordered_Tn in Hs as (Hl & Hr & Hlv & Hvr & _).
    destruct (comp k v) eqn:E1; [|destruct (comp v k) eqn:E2; [|done]].
    + apply IHl; [done|done|]. cbn [cpost].
      apply Forall_cons. split; [done|]. apply Forall_app. split; [|done].
      eapply Forall_impl; [exact Hvr|]. intros e He. by apply (comp_trans _ v).
    + apply IHr; [done| |done]. cbn [cpre].
      apply Forall_app. split; [done|]. apply Forall_app. split.
      * eapply Forall_impl; [exact Hlv|]. intros e He. by apply (comp_trans _ v).
      * by apply Forall_singleton.
Qed.

(** A descent that ends at a free link has met no equivalent payload. *)
Lemma descend_inl_absent k : ∀ s C C',
  ordered comp s → descend comp k s C = inl C' →
  ∀ e, e ∈ items s → comp k e.2 = true ∨ comp e.2 k = true.
Proof using Type*.
  induction s as [|c l IHl x v r IHr]; intros C C' Hs; cbn [descend items].
  - by intros _ e ?%elem_of_nil.
  - apply ordered_Tn in Hs as (Hl & Hr & Hlv & Hvr & _).
    rewrite Forall_forall in Hlv, Hvr.
    destruct (comp k v) eqn:E1; [|destruct (comp v k) eqn:E2; [|done]].
    + intros Hd e [He|[->|He]%elem_of_cons]%elem_of_app.
      * by apply (IHl _ _ Hl Hd).
      * by left.
      * left. apply (comp_trans _ v); auto.
    + intros Hd e [He|[->|He]%elem_of_cons]%elem_of_app.
      * right. apply (comp_trans _ v); auto.
      * by right.
      * by apply (IHr _ _ Hr Hd).
Qed.

(** Two entries of an ordered tree with equivalent payloads are one node. *)
Lemma ordered_unique t x v y w :
  NoDup (nodes t) → ordered comp t →
  (x, v) ∈ items t → (y, w) ∈ items t →
  same_key comp v w → x = y.
Proof.
  intros Hnd Hs Hx Hy [E1 E2].
  apply list_elem_of_split in Hx as (k1 & k2 & Hit).
  unfold ordered, payloads in Hs. rewrite Hit in Hy, Hs.
  rewrite fmap_app, fmap_cons in Hs. cbn [snd] in Hs.
  apply StronglySorted_app in Hs as (H1 & _ & H2).
  apply StronglySorted_cons in H2 as [H2 _]. rewrite Forall_forall in H2.
  apply elem_of_app in Hy as [Hy|[Hy|Hy]%elem_of_cons].
  - assert (comp w v = true); [|congruence].
    apply H1; [|by left]. apply list_elem_of_fmap. by exists (y, w).
  - congruence.
  - assert (comp v w = true); [|congruence].
    apply H2. apply list_elem_of_fmap. by exists (y, w).
Qed.

Lemma ordered_insert C' k new t :
  ordered comp t → plug C' E = t →
  Forall (λ e, comp e.2 k = true) (cpre C') →
  Forall (λ e, comp k e.2 = true) (cpost C') →
  ∀ t', items t' = cpre C' ++ (new, k) :: cpost C' → ordered comp t'.
Proof.
  intros Hs <- Hpre Hpost t' Hit.
  unfold ordered, payloads in *. rewrite Hit.
  rewrite items_plug in Hs. cbn [items app] in Hs.
  rewrite fmap_app in Hs. rewrite fmap_app, fmap_cons. cbn [snd].
  apply StronglySorted_app in Hs as (H1 & H2 & H3).
  rewrite Forall_forall in Hpre, Hpost.
  apply StronglySorted_app. split; [|split; [done|]].
  - intros a b Ha [->|Hb]%elem_of_cons; [|by apply H1].
    apply list_elem_of_fmap in Ha as (e & -> & He). by apply Hpre.
  - apply StronglySorted_cons. split; [|done].
    apply Forall_forall. intros b (e & -> & He)%list_elem_of_fmap.
    by apply Hpost.
Qed.

Lemma ordered_remove t t' k1 e k2 :
  ordered comp t → items t = k1 ++ e :: k2 → items t' = k1 ++ k2 →
  ordered comp t'.
Proof.
  unfold ordered, payloads. intros Hs Ht Ht'. rewrite Ht in Hs. rewrite Ht'.
  rewrite fmap_app, fmap_cons in Hs. rewrite fmap_app.
  apply StronglySorted_app in Hs as (H1 & H2 & H3).
  apply StronglySorted_cons in H3 as [_ H3].
  apply StronglySorted_app. split; [|done].
  intros a b Ha Hb. apply H1; [done|by right].
Qed.

End Order.

(** ** [find] *)

Section Lookup.
Context {T : Type}.
Variable comp : T -> T -> bool.
Implicit Types st : RBTree T.
Implicit Types s t l r : @tree T.
Implicit Types C : list (@frame T).

Lemma descent_end_shift k s C C' nil :
  descent_end nil (descend comp k s C) = descent_end nil (descend comp k s C').
Proof.
  revert C C'. induction s as [|c l IHl x v r IHr]; intros C C'; cbn [descend].
  - done.
  - destruct (comp k v); [apply IHl|]. destruct (comp v k); [apply IHr|done].
Qed.

(** The loop of [find] follows the descent of [get_position]. *)
Lemma find_loop_descend st k : ∀ s par fuel,
  nilcell (heap st) (_nil st) →
  rep (heap st) (_nil st) par s →
  (tsize s < fuel)%nat →
  find_loop comp fuel st k (rootp (_nil st) s)
  = Some (descent_end (_nil st) (descend comp k s [])).
Proof.
  intros s par fuel [np Hn]. revert s par.
  induction fuel as [|fuel IH]; intros s par Hs Hf; [lia|].
  destruct s as [|c l x v r]; cbn [find_loop rootp descend descent_end].
  - by rewrite (node_at_cell _ _ _ Hn).
  - rewrite tsize_Tn in Hf. cbn [rep] in Hs. destruct Hs as (Hx & Hl & Hr).
    rewrite (node_at_cell _ _ _ Hx). cbn [value leftChild rightChild].
    destruct (comp k v) eqn:E1; cbn [orb].
    + rewrite (IH l x Hl) by lia. f_equal. apply descent_end_shift.
    + destruct (comp v k) eqn:E2; [|done].
      rewrite (IH r x Hr) by lia. f_equal. apply descent_end_shift.
Qed.

Lemma find_descend st t k fuel :
  Full st t → (tsize t < fuel)%nat →
  find comp fuel st k = Some (descent_end (_nil st) (descend comp k t [])).
Proof.
  intros (HR & _ & Hsize & _) Hf. unfold find.
  destruct (Z.eqb_spec (_size st) 0) as [Hz|Hz].
  - destruct t as [|c l x v r]; [done|]. rewrite Hsize, tsize_Tn in Hz. lia.
  - pose proof (rz_root HR) as Hroot. cbn [plug] in Hroot. rewrite Hroot.
    apply (find_loop_descend st k t _ fuel (rz_nil HR) (rz_sub HR) Hf).
Qed.

End Lookup.

(** ** Insertion and removal in ordered trees *)

Section Search.
Context {T : Type}.
Variable comp : T -> T -> bool.
Hypothesis comp_trans :
  ∀ a b c, comp a b = true → comp b c = true → comp a c = true.
Implicit Types st : RBTree T.
Implicit Types s t : @tree T.
Implicit Types C : list (@frame T).
Implicit Types res : N * bool.

Lemma Full_tsize st t : Full st t → _size st = Z.of_nat (tsize t).
Proof. by intros (_ & _ & ? & _). Qed.

Lemma Full_nodup st t : Full st t → NoDup (nodes t).
Proof.
  intros (HR & _). pose proof (rz_nodup HR) as Hnd. by rewrite app_nil_r in Hnd.
Qed.

Lemma insert_created_split st t (k : T) hint st' res :
  insert_post comp st t k hint st' res → res.2 = true →
  ∃ t' C', Full st' t' ∧ rbt t' ∧ t = plug C' E
    ∧ items t = cpre C' ++ cpost C'
    ∧ items t' = cpre C' ++ (res.1, k) :: cpost C'
    ∧ res.1 ∉ nodes t ∧ _nil st' = _nil st
    ∧ parent (node_at st' (_nil st')) = tmax (_nil st') t'
    ∧ (hint = NULL ∨ hint = _nil st → descend comp k t [] = inl C').
Proof.
  intros [(_ & t' & Ch & sh & C' & Et & Hh & Hd & HF & Hrb & Hit & Hnew & Hn & Hp)
         |(Hf & _)] Hr; [|congruence].
  exists t', C'. pose proof (descend_inl comp _ _ _ _ Hd) as Hpl.
  rewrite <- Et in Hpl.
  repeat (split; [done|]). split; [by rewrite <- Hpl, items_plug|].
  repeat (split; [done|]).
  intros Hh'. specialize (Hh Hh'). subst Ch. cbn [plug] in Et. by subst sh.
Qed.

Lemma insert_found_split st t (k : T) hint st' res :
  insert_post comp st t k hint st' res → res.2 = false →
  st' = st
  ∧ (∃ v, (res.1, v) ∈ items t ∧ same_key comp k v)
  ∧ (hint = NULL ∨ hint = _nil st → descend comp k t [] = inr res.1).
Proof.
  intros [(Hf & _)|(_ & -> & Ch & sh & Et & Hh & Hd)] Hr; [congruence|].
  split; [done|]. split.
  - destruct (descend_inr comp _ _ _ _ Hd) as (v & Hin & E1 & E2).
    exists v. split; [|done].
    rewrite Et, items_plug, !elem_of_app. auto.
  - intros Hh'. specialize (Hh Hh'). subst Ch. cbn [plug] in Et. by subst sh.
Qed.

Lemma tsize_items t t' k1 e k2 :
  items t = k1 ++ k2 → items t' = k1 ++ e :: k2 → tsize t' = S (tsize t).
Proof.
  unfold tsize. intros -> ->. rewrite !length_app. cbn [length]. lia.
Qed.

(** [insert] without a position hint on an ordered tree. *)
Lemma insert_plain st t (k : T) hint fuel :
  Full st t → rbt t → ordered comp t → hint = NULL ∨ hint = _nil st →
  _size st + 1 < size_max → (tsize t + 2 ≤ fuel)%nat →
  ∃ st' res, insert comp fuel st k hint = Some (st', res)
    ∧ ((res.2 = true
        ∧ (∀ e, e ∈ items t → ¬ same_key comp k e.2)
        ∧ ∃ t' k1 k2, Full st' t' ∧ rbt t' ∧ ordered comp t'
            ∧ items t = k1 ++ k2 ∧ items t' = k1 ++ (res.1, k) :: k2
            ∧ _nil st' = _nil st)
       ∨ (res.2 = false ∧ st' = st
          ∧ descend comp k t [] = inr res.1
          ∧ ∃ v, (res.1, v) ∈ items t ∧ same_key comp k v)).
Proof using Type*.
  intros HF Hrb Hord Hh Hs Hf.
  destruct (insert_spec comp st t k hint fuel HF Hrb) as (st' & res & Hrun & Hpost);
    [destruct Hh as [->| ->]; [by left|by right; left]|done|done|].
  exists st', res. split; [done|].
  destruct (res.2) eqn:Hr.
  - left. split; [done|].
    destruct (insert_created_split _ _ _ _ _ _ Hpost Hr)
      as (t' & C' & HF' & Hrb' & Et & Hit & Hit' & Hnew & Hn & _ & Hd).
    specialize (Hd Hh). split.
    + intros e He [E1 E2].
      destruct (descend_inl_absent comp comp_trans k t [] C' Hord Hd e He);
        congruence.
    + exists t', (cpre C'), (cpost C').
      destruct (descend_bounds comp comp_trans k t [] C' Hord) as [Hpre Hpost'];
        [constructor|constructor|done|].
      repeat (split; [done|]). split; [|done].
      by apply (ordered_insert comp C' k res.1 t Hord (eq_sym Et) Hpre Hpost').
  - right. split; [done|].
    destruct (insert_found_split _ _ _ _ _ _ Hpost Hr) as (-> & Hv & Hd).
    auto.
Qed.

(** [find] on an ordered tree. *)
Lemma find_ordered st t (k : T) fuel :
  Full st t → ordered comp t → (tsize t < fuel)%nat →
  ∃ p, find comp fuel st k = Some p
    ∧ ((p = _nil st ∧ ∀ e, e ∈ items t → ¬ same_key comp k e.2)
       ∨ (∃ v, (p, v) ∈ items t ∧ same_key comp k v)).
Proof using Type*.
  intros HF Hord Hf. rewrite (find_descend comp st t k fuel HF Hf).
  eexists. split; [done|].
  destruct (descend comp k t []) as [C'|x] eqn:Hd; cbn [descent_end].
  - left. split; [done|]. intros e He [E1 E2].
    destruct (descend_inl_absent comp comp_trans k t [] C' Hord Hd e He);
      congruence.
  - right. destruct (descend_inr comp _ _ _ _ Hd) as (v & Hin & E1 & E2).
    by exists v.
Qed.

(** In an ordered tree the descent for a stored payload ends at its node. *)
Lemma descend_stored t x v :
  NoDup (nodes t) → ordered comp t → comp v v = false →
  (x, v) ∈ items t → descend comp v t [] = inr x.
Proof using Type*.
  intros Hnd Hord Hirr Hin.
  destruct (descend comp v t []) as [C'|y] eqn:Hd.
  - destruct (descend_inl_absent comp comp_trans v t [] C' Hord Hd _ Hin);
      cbn [snd] in *; congruence.
  - destruct (descend_inr comp _ _ _ _ Hd) as (w & Hw & E1 & E2).
    f_equal. by apply (ordered_unique comp t y w x v Hnd Hord Hw Hin).
Qed.

(** In an ordered tree the descent for a payload that is not stored, while
    every stored payload compares with it one way or the other, ends at a
    free link. *)
Lemma descend_absent t k :
  (∀ e, e ∈ items t → ¬ same_key comp k e.2) →
  ∃ C', descend comp k t [] = inl C'.
Proof.
  intros Habs. destruct (descend comp k t []) as [C'|y] eqn:Hd; [by eexists|].
  destruct (descend_inr comp _ _ _ _ Hd) as (w & Hw & E1 & E2).
  by destruct (Habs _ Hw).
Qed.

(** With a strict weak ordering, the positions [find] returns in two
    ordered trees agree when the trees hold the same entries equivalent to
    the searched payload. *)
Lemma descent_end_agree t t' (k : T) nil :
  (∀ a b c, same_key comp a b → same_key comp b c → same_key comp a c) →
  NoDup (nodes t') → ordered comp t → ordered comp t' →
  (∀ e, same_key comp k e.2 → e ∈ items t ↔ e ∈ items t') →
  descent_end nil (descend comp k t' []) = descent_end nil (descend comp k t []).
Proof using Type*.
  intros Heq Hnd Ho Ho' Hsame.
  destruct (descend comp k t []) as [C|y] eqn:Hd;
    destruct (descend comp k t' []) as [C'|y'] eqn:Hd'; cbn [descent_end].
  - done.
  - exfalso. destruct (descend_inr comp _ _ _ _ Hd') as (w & Hw & E1 & E2).
    apply (Hsame (y', w) (conj E1 E2)) in Hw.
    destruct (descend_inl_absent comp comp_trans k t [] C Ho Hd _ Hw);
      cbn [snd] in *; congruence.
  - exfalso. destruct (descend_inr comp _ _ _ _ Hd) as (w & Hw & E1 & E2).
    apply (Hsame (y, w) (conj E1 E2)) in Hw.
    destruct (descend_inl_absent comp comp_trans k t' [] C' Ho' Hd' _ Hw);
      cbn [snd] in *; congruence.
  - destruct (descend_inr comp _ _ _ _ Hd) as (w & Hw & E1 & E2).
    destruct (descend_inr comp _ _ _ _ Hd') as (w' & Hw' & E1' & E2').
    apply (Hsame (y, w) (conj E1 E2)) in Hw.
    apply (ordered_unique comp t' y' w' y w Hnd Ho' Hw' Hw).
    apply (Heq w' k w); [by split|by split].
Qed.

End Search.

(** ** [clear] *)

Section Clear.
Context {T : Type}.
Implicit Types st : RBTree T.
Implicit Types s t : @tree T.
Implicit Types h : gmap N (RBTreeNode T).

Lemma rep_ext h h' nil par s :
  (∀ q, q ∈ nodes s → h' !! q = h !! q) → rep h nil par s → rep h' nil par s.
Proof.
  revert par. induction s as [|c l IHl x v r IHr]; intros par Hq; cbn [rep]; [done|].
  intros (Hx & Hl & Hr). cbn [nodes] in Hq. split; [|split].
  - rewrite Hq; [done|]. rewrite elem_of_app, elem_of_cons. auto.
  - apply IHl; [|done]. intros q Hin. apply Hq. rewrite elem_of_app. auto.
  - apply IHr; [|done]. intros q Hin. apply Hq.
    rewrite elem_of_app, elem_of_cons. auto.
Qed.

Lemma clear_unfold fuel st node :
  clear (S fuel) st node =
  let node := if bool_decide (node = NULL) then _root st else node in
  st ← (if is_real st (leftChild (node_at st node)) then
          st ← clear fuel st (leftChild (node_at st node));
          Some (set_left st node (_nil st))
        else Some st);
  st ← (if is_real st (rightChild (node_at st node)) then
          st ← clear fuel st (rightChild (node_at st node));
          Some (set_right st node (_nil st))
        else Some st);
  if is_real st node then
    let st := if bool_decide (node = _root st)
              then set_root st (_nil st) else st in
    let st := dealloc st node in
    Some (set_size st (size_decr (_size st)))
  else Some st.
Proof. reflexivity. Qed.

Lemma rootp_real st par s :
  nilcell (heap st) (_nil st) → rep (heap st) (_nil st) par s →
  is_real st (rootp (_nil st) s) = match s with E => false | _ => true end.
Proof.
  intros [np Hn] Hs. destruct s as [|c l x v r]; cbn [rootp].
  - by rewrite (is_real_cell_gen _ _ _ Hn).
  - cbn [rep] in Hs. destruct Hs as (Hx & _).
    by rewrite (is_real_cell_gen _ _ _ Hx).
Qed.

Lemma clear_heap_case {A} (q x : N) (L R : list N) (a : option A) :
  q ≠ x →
  (if bool_decide (q ∈ R) then None
   else if bool_decide (q ∈ L) then None else a)
  = if bool_decide (q ∈ L ++ x :: R) then None else a.
Proof.
  intros Hq. repeat case_bool_decide; try done.
  all: exfalso; set_solver.
Qed.

Lemma clear_root_case (root x nil : N) (L R : list N) :
  nil ∉ L ++ x :: R →
  (let r1 := if bool_decide (root ∈ L) then nil else root in
   let r2 := if bool_decide (r1 ∈ R) then nil else r1 in
   if bool_decide (x = r2) then nil else r2)
  = if bool_decide (root ∈ L ++ x :: R) then nil else root.
Proof.
  intros Hn. cbv zeta. repeat case_bool_decide; try done.
  all: exfalso; set_solver.
Qed.

Lemma clear_sub fuel : ∀ s st par,
  nilcell (heap st) (_nil st) → rep (heap st) (_nil st) par s → s ≠ E →
  NoDup (nodes s) → _nil st ∉ nodes s → heap st !! NULL = None →
  (tsize s < fuel)%nat →
  ∃ st', clear fuel st (rootp (_nil st) s) = Some st'
    ∧ cleared st (nodes s) st'.
Proof.
  induction fuel as [|fuel IH]; intros s st par Hn Hs Hne Hnd Hout Hnull Hf; [lia|].
  destruct s as [|c l x v r]; [done|]. clear Hne.
  rewrite tsize_Tn in Hf. cbn [rep] in Hs. destruct Hs as (Hx & Hl & Hr).
  cbn [nodes] in Hnd, Hout.
  apply NoDup_app in Hnd as (Hndl & Hlx & Hnd). apply NoDup_cons in Hnd as [Hxr Hndr].
  assert (x ≠ NULL) as Hx0 by (intros ->; congruence).
  assert (x ≠ _nil st) as Hxn.
  { intros ->. apply Hout. rewrite elem_of_app, elem_of_cons. auto. }
  assert (x ∉ nodes l) as Hxl.
  { intros Hin. apply (Hlx _ Hin). by left. }
  cbn [rootp]. rewrite clear_unfold. cbv zeta.
  rewrite bool_decide_eq_false_2 by done.
  (* left subtree *)
  assert (∃ st1,
    (if is_real st (leftChild (node_at st x)) then
       st ← clear fuel st (leftChild (node_at st x));
       Some (set_left st x (_nil st))
     else Some st) = Some st1
    ∧ (∀ q, q ≠ x → heap st1 !! q
              = if bool_decide (q ∈ nodes l) then None else heap st !! q)
    ∧ (∃ lc, heap st1 !! x
             = Some (mkNode (Some v) c par lc (rootp (_nil st) r)))
    ∧ _nil st1 = _nil st
    ∧ _root st1 = (if bool_decide (_root st ∈ nodes l) then _nil st else _root st)
    ∧ _size st1 = Nat.iter (tsize l) size_decr (_size st)) as (st1 & -> & H1).
  { rewrite (node_at_cell _ _ _ Hx). cbn [leftChild].
    rewrite (rootp_real st x l Hn Hl).
    destruct l as [|cl ll y vl lr] eqn:El.
    - exists st. split; [done|]. cbn [nodes tsize items length Nat.iter].
      split; [intros q _; by rewrite bool_decide_eq_false_2 by apply not_elem_of_nil|].
      split; [by eexists|]. split; [done|]. split; [|done].
      by rewrite bool_decide_eq_false_2 by apply not_elem_of_nil.
    - rewrite <- El in *.
      destruct (IH l st x Hn Hl) as (st1 & Hrun & Hq & Hnil & Hroot & Hsize);
        [by rewrite El|done| |done|lia|].
      { intros Hin. apply Hout. rewrite elem_of_app. auto. }
      replace (rootp (_nil st) (Tn cl ll y vl lr)) with (rootp (_nil st) l)
        by (by rewrite El).
      rewrite Hrun. cbn [mbind option_bind].
      eexists. split; [done|].
      unfold set_left, upd. cbn [heap _nil _root _size].
      split; [intros q Hqx; by rewrite lookup_alter_ne|].
      split.
      + rewrite lookup_alter_eq, Hq, bool_decide_eq_false_2, Hx by done.
        cbn [fmap option_fmap option_map value color parent leftChild rightChild].
        by eexists.
      + rewrite tsize_nodes in Hsize. auto. }
  destruct H1 as (Hq1 & (lc & Hx1) & Hnil1 & Hroot1 & Hsize1).
  cbn [mbind option_bind].
  assert (nilcell (heap st1) (_nil st1)) as Hn1.
  { destruct Hn as [np Hn]. exists np. rewrite Hnil1, Hq1 by done.
    rewrite bool_decide_eq_false_2; [done|].
    intros Hin. apply Hout. rewrite elem_of_app. auto. }
  assert (rep (heap st1) (_nil st1) x r) as Hr1.
  { rewrite Hnil1. apply (rep_ext (heap st)); [|done].
    intros q Hin. rewrite Hq1 by (by intros ->).
    rewrite bool_decide_eq_false_2; [done|].
    intros Hin'. apply (Hlx _ Hin'). by right. }
  (* right subtree *)
  assert (∃ st2,
    (if is_real st1 (rightChild (node_at st1 x)) then
       st ← clear fuel st1 (rightChild (node_at st1 x));
       Some (set_right st x (_nil st))
     else Some st1) = Some st2
    ∧ (∀ q, q ≠ x → heap st2 !! q
              = if bool_decide (q ∈ nodes r) then None else heap st1 !! q)
    ∧ (∃ lc rc, heap st2 !! x = Some (mkNode (Some v) c par lc rc))
    ∧ _nil st2 = _nil st1
    ∧ _root st2 = (if bool_decide (_root st1 ∈ nodes r) then _nil st1 else _root st1)
    ∧ _size st2 = Nat.iter (tsize r) size_decr (_size st1)) as (st2 & -> & H2).
  { rewrite (node_at_cell _ _ _ Hx1). cbn [rightChild].
    rewrite <- Hnil1.
    rewrite (rootp_real st1 x r Hn1 Hr1).
    destruct r as [|cr rl y vr rr] eqn:Er.
    - exists st1. split; [done|]. cbn [nodes tsize items length Nat.iter].
      split; [intros q _; by rewrite bool_decide_eq_false_2 by apply not_elem_of_nil|].
      split; [by eexists _, _|]. split; [done|]. split; [|done].
      by rewrite bool_decide_eq_false_2 by apply not_elem_of_nil.
    - rewrite <- Er in *.
      destruct (IH r st1 x Hn1 Hr1) as (st2 & Hrun & Hq & Hnil & Hroot & Hsize);
        [by rewrite Er|done| | |lia|].
      { rewrite Hnil1. intros Hin. apply Hout.
        rewrite elem_of_app, elem_of_cons. auto. }
      { rewrite Hq1 by done. rewrite Hnull. destruct (bool_decide (NULL ∈ nodes l)); reflexivity. }
      replace (rootp (_nil st1) (Tn cr rl y vr rr)) with (rootp (_nil st1) r)
        by (by rewrite Er).
      rewrite Hrun. cbn [mbind option_bind].
      eexists. split; [done|].
      unfold set_right, upd. cbn [heap _nil _root _size].
      split; [intros q Hqx; by rewrite lookup_alter_ne|].
      split.
      + rewrite lookup_alter_eq, Hq, bool_decide_eq_false_2, Hx1 by done.
        cbn [fmap option_fmap option_map value color parent leftChild rightChild].
        by eexists _, _.
      + rewrite tsize_nodes in Hsize. auto. }
  destruct H2 as (Hq2 & (lc2 & rc2 & Hx2) & Hnil2 & Hroot2 & Hsize2).
  cbn [mbind option_bind].
  rewrite (is_real_cell_gen _ _ _ Hx2). cbn [value].
  set (st3 := if bool_decide (x = _root st2) then set_root st2 (_nil st2) else st2).
  assert (heap st3 = heap st2 ∧ _nil st3 = _nil st2 ∧ _size st3 = _size st2
          ∧ _root st3 = if bool_decide (x = _root st2) then _nil st2 else _root st2)
    as (Hh3 & Hnil3 & Hsize3 & Hroot3).
  { unfold st3. by destruct (bool_decide (x = _root st2)). }
  eexists. split; [reflexivity|].
  unfold cleared, set_size, dealloc. cbn [heap _nil _root _size nodes].
  rewrite Hh3, Hnil3, Hsize3, Hroot3. clearbody st3.
  split; [|split; [|split]].
  - intros q.
    destruct (decide (q = x)) as [->|Hqx].
    + rewrite lookup_delete_eq, bool_decide_eq_true_2; [done|].
      rewrite elem_of_app, elem_of_cons. auto.
    + rewrite lookup_delete_ne, Hq2, Hq1 by done.
      by apply clear_heap_case.
  - congruence.
  - rewrite Hroot2, Hroot1, Hnil2, Hnil1.
    by apply (clear_root_case (_root st) x (_nil st) (nodes l) (nodes r)).
  - rewrite Hsize2, Hsize1, length_app. cbn [length].
    rewrite !tsize_nodes.
    replace (tsize l + S (tsize r))%nat with (S (tsize r + tsize l)) by lia.
    by rewrite Nat.iter_succ, Nat.iter_add.
Qed.

End Clear.

Section ClearAll.
Context {T : Type}.
Implicit Types st : RBTree T.
Implicit Types s t : @tree T.

Lemma iter_size_decr (n m : nat) :
  (n ≤ m)%nat → Z.of_nat m < size_max →
  Nat.iter n size_decr (Z.of_nat m) = Z.of_nat (m - n).
Proof.
  intros Hnm Hm. induction n as [|n IH].
  - cbn. f_equal. lia.
  - rewrite Nat.iter_succ, IH by lia. unfold size_decr.
    rewrite Z.mod_small; [lia|]. unfold size_max in *. lia.
Qed.

Lemma Full_root_real st t : Full st t → t ≠ E → _root st ∈ nodes t.
Proof.
  intros (HR & _) Hne. pose proof (rz_root HR) as Hroot. cbn [plug] in Hroot.
  rewrite Hroot. by apply rootp_in.
Qed.

Lemma clear_all st t fuel :
  Full st t → (tsize t < fuel)%nat →
  ∃ st', clear fuel st NULL = Some st' ∧ Full st' E
    ∧ _nil st' = _nil st ∧ dom (heap st') = {[_nil st]}
    ∧ heap st' !! _nil st = heap st !! _nil st
    ∧ (t = E → st' = st).
Proof.
  intros HF Hf. pose proof HF as (HR & Hdom & Hsize & Hmax).
  destruct (rz_nil HR) as [np Hn].
  pose proof (rz_root HR) as Hroot. cbn [plug] in Hroot.
  destruct fuel as [|fuel]; [lia|].
  assert (t = E ∨ t ≠ E) as [->|Hne] by (destruct t; [by left|by right]).
  - rewrite clear_unfold. cbv zeta. rewrite bool_decide_eq_true_2 by done.
    cbn [rootp] in Hroot. rewrite Hroot, (node_at_cell _ _ _ Hn).
    cbn [leftChild rightChild]. rewrite (is_real_nil _ _ Hn).
    cbn [mbind option_bind]. rewrite (node_at_cell _ _ _ Hn).
    cbn [leftChild rightChild]. rewrite (is_real_nil _ _ Hn).
    cbn [mbind option_bind]. rewrite (is_real_nil _ _ Hn).
    exists st. split; [done|]. split; [done|]. split; [done|].
    split; [|done]. rewrite Hdom. cbn [nodes list_to_set]. set_solver.
  - pose proof (rz_nodup HR) as Hnd. pose proof (rz_nil_out HR) as Hout.
    rewrite app_nil_r in Hnd, Hout.
    assert (_root st ≠ NULL) as Hr0.
    { intros Hz. pose proof (Full_root_real _ _ HF Hne) as Hin.
      destruct (RepZ_nodes_Some (_root st) HR) as (?&?&?&?&?&Hc);
        [by rewrite app_nil_r|].
      rewrite Hz in Hc. pose proof (rz_null HR). congruence. }
    destruct (clear_sub (S fuel) t st _ (rz_nil HR) (rz_sub HR) Hne Hnd Hout
                (rz_null HR) Hf) as (st' & Hrun & Hq & Hnil & Hroot' & Hsize').
    exists st'. split.
    { rewrite <- Hrun, <- Hroot, !clear_unfold. cbv zeta.
      rewrite bool_decide_eq_true_2 by done.
      by rewrite bool_decide_eq_false_2 by done. }
    assert (dom (heap st') = {[_nil st]}) as Hdom'.
    { apply set_eq. intros q. rewrite elem_of_dom, Hq, elem_of_singleton.
      destruct (bool_decide (q ∈ nodes t)) eqn:Hin.
      - apply bool_decide_eq_true in Hin.
        split; [intros [? [=]]|]. intros ->. by destruct Hout.
      - apply bool_decide_eq_false in Hin.
        rewrite <- elem_of_dom, Hdom, elem_of_union, elem_of_singleton,
          elem_of_list_to_set. tauto. }
    split; [|split; [done|]; split; [done|]; split; [|done]].
    2:{ rewrite Hq. by rewrite bool_decide_eq_false_2. }
    split; [|split; [|split]].
    + constructor; cbn [plug rootp rep crep nodes cnodes app]; auto.
      * rewrite Hroot', bool_decide_eq_true_2; [done|].
        by apply (Full_root_real _ _ HF).
      * exists np. by rewrite Hnil, Hq, bool_decide_eq_false_2.
      * apply NoDup_nil_2.
      * apply not_elem_of_nil.
      * rewrite Hq, (rz_null HR). by destruct (bool_decide (NULL ∈ nodes t)).
    + rewrite Hdom', Hnil. cbn [nodes list_to_set]. set_solver.
    + rewrite Hsize', Hsize, tsize_nodes, iter_size_decr by (rewrite <- ?Hsize; lia).
      cbn [tsize items length]. lia.
    + rewrite Hsize', Hsize, tsize_nodes, iter_size_decr by (rewrite <- ?Hsize; lia).
      unfold size_max. lia.
Qed.

End ClearAll.

(** ** [copy] *)

Section Copy.
Context {T : Type}.
Variable comp : T -> T -> bool.
Hypothesis comp_trans :
  ∀ a b c, comp a b = true → comp b c = true → comp a c = true.
Implicit Types st x : RBTree T.
Implicit Types s t : @tree T.

Lemma copy_node_unfold fuel st x node :
  copy_node comp (S fuel) st x node =
  match value (node_at x node) with
  | None => Some st
  | Some v =>
      '(st, _) ← insert comp fuel st v NULL;
      st ← (if is_real x (leftChild (node_at x node))
            then copy_node comp fuel st x (leftChild (node_at x node))
            else Some st);
      if is_real x (rightChild (node_at x node))
      then copy_node comp fuel st x (rightChild (node_at x node)) else Some st
  end.
Proof. reflexivity. Qed.

Lemma payloads_Tn c (l : @tree T) y v r :
  payloads (Tn c l y v r) = payloads l ++ v :: payloads r.
Proof. unfold payloads. cbn [items]. by rewrite fmap_app, fmap_cons. Qed.

Lemma tsize_payloads t : length (payloads t) = tsize t.
Proof. unfold payloads, tsize. by rewrite length_fmap. Qed.

Lemma copy_node_spec x fuel : ∀ s par st t,
  nilcell (heap x) (_nil x) → rep (heap x) (_nil x) par s → s ≠ E →
  ordered comp s →
  Full st t → rbt t → ordered comp t →
  (∀ a b, a ∈ payloads s → b ∈ payloads t → ¬ same_key comp a b) →
  Z.of_nat (tsize t + tsize s) < size_max →
  (tsize t + 2 * tsize s + 2 ≤ fuel)%nat →
  ∃ st' t', copy_node comp fuel st x (rootp (_nil x) s) = Some st'
    ∧ Full st' t' ∧ rbt t' ∧ ordered comp t'
    ∧ payloads t' ≡ₚ payloads s ++ payloads t.
Proof using Type*.
  induction fuel as [|fuel IH];
    intros s par st t Hn Hs Hne Hos HF Hrb Hot Hfresh Hmax Hf; [lia|].
  destruct s as [|c l y v r]; [done|]. clear Hne.
  rewrite tsize_Tn in Hmax, Hf. cbn [rep] in Hs. destruct Hs as (Hy & Hl & Hr).
  apply (ordered_Tn comp) in Hos as (Hol & Hor & Hlv & Hvr & Hlr).
  rewrite Forall_forall in Hlv, Hvr.
  rewrite payloads_Tn in Hfresh.
  cbn [rootp]. rewrite copy_node_unfold, (node_at_cell _ _ _ Hy).
  cbn [value leftChild rightChild].
  destruct (insert_plain comp comp_trans st t v NULL fuel HF Hrb Hot)
    as (st1 & res & Hrun & [(_ & _ & t1 & k1 & k2 & HF1 & Hrb1 & Hot1 & Hit & Hit1 & _)
                           |(_ & _ & _ & w & Hw & Hsame)]);
    [by left|rewrite (Full_tsize _ _ HF); lia|lia| |].
  2:{ exfalso. apply (Hfresh v w); [|by apply list_elem_of_fmap; exists (res.1, w)|done].
      rewrite elem_of_app, elem_of_cons. auto. }
  rewrite Hrun. cbn [mbind option_bind].
  assert (payloads t1 ≡ₚ v :: payloads t) as Hp1.
  { unfold payloads. rewrite Hit, Hit1, !fmap_app, fmap_cons. cbn [snd].
    by rewrite Permutation_middle. }
  pose proof (tsize_items _ _ _ _ _ Hit Hit1) as Hsz1.
  (* left subtree *)
  assert (∃ st2 t2,
    (if is_real x (rootp (_nil x) l)
     then copy_node comp fuel st1 x (rootp (_nil x) l) else Some st1) = Some st2
    ∧ Full st2 t2 ∧ rbt t2 ∧ ordered comp t2
    ∧ payloads t2 ≡ₚ payloads l ++ v :: payloads t)
    as (st2 & t2 & -> & HF2 & Hrb2 & Hot2 & Hp2).
  { rewrite (rootp_real x y l Hn Hl).
    destruct l as [|cl ll z vl lr] eqn:El.
    - exists st1, t1. by cbn [payloads items fmap list_fmap app].
    - rewrite <- El in *.
      destruct (IH l y st1 t1 Hn Hl) as (st2 & t2 & Hrun2 & HF2 & Hrb2 & Hot2 & Hp2);
        [by rewrite El|done|done|done|done| |lia|lia|].
      { intros a b Ha Hb. rewrite Hp1 in Hb.
        apply elem_of_cons in Hb as [->|Hb].
        - apply list_elem_of_fmap in Ha as (e & -> & He).
          intros [E1 _]. rewrite (Hlv _ He) in E1. done.
        - apply Hfresh; [|done]. rewrite elem_of_app. auto. }
      exists st2, t2. rewrite Hrun2. repeat (split; [done|]).
      by rewrite Hp2, Hp1. }
  cbn [mbind option_bind].
  assert (tsize t2 = (tsize l + S (tsize t))%nat) as Hsz2.
  { rewrite <- !tsize_payloads, Hp2, length_app. cbn [length]. lia. }
  rewrite (rootp_real x y r Hn Hr).
  destruct r as [|cr rl z vr rr] eqn:Er.
  - exists st2, t2. repeat (split; [done|]).
    rewrite payloads_Tn, Hp2. cbn [payloads items fmap list_fmap].
    by rewrite <- app_assoc.
  - rewrite <- Er in *.
    destruct (IH r y st2 t2 Hn Hr) as (st3 & t3 & Hrun3 & HF3 & Hrb3 & Hot3 & Hp3);
      [by rewrite Er|done|done|done|done| |lia|lia|].
    { intros a b Ha Hb. rewrite Hp2 in Hb.
      apply list_elem_of_fmap in Ha as (e & -> & He).
      apply elem_of_app in Hb as [Hb|[->|Hb]%elem_of_cons].
      - apply list_elem_of_fmap in Hb as (e' & -> & He').
        intros [_ E2]. rewrite (Hlr _ _ He' He) in E2. done.
      - intros [_ E2]. rewrite (Hvr _ He) in E2. done.
      - apply Hfresh; [|done]. rewrite elem_of_app, elem_of_cons.
        right; right. apply list_elem_of_fmap. by exists e. }
    exists st3, t3. rewrite Hrun3. repeat (split; [done|]).
    rewrite payloads_Tn, Hp3, Hp2. solve_Permutation.
Qed.

Hypothesis comp_irrefl : ∀ a, comp a a = false.

Lemma ordered_same_payloads t t' :
  ordered comp t → ordered comp t' → payloads t ≡ₚ payloads t' →
  payloads t = payloads t'.
Proof using Type*.
  intros Ho Ho' Hp.
  apply (StronglySorted_unique_strong (λ a b, comp a b = true)); [|done..].
  intros a b _ _ Hab Hba. pose proof (comp_trans _ _ _ Hab Hba).
  rewrite comp_irrefl in *. done.
Qed.

(** [copy(x)]: the tree object ends up with the payloads of [x]. *)
Lemma copy_all st t x tx fuel :
  Full st t → Full x tx → ordered comp tx →
  (tsize t < fuel)%nat → (2 * tsize tx + 3 ≤ fuel)%nat →
  ∃ st' t', copy comp fuel st x = Some st'
    ∧ Full st' t' ∧ rbt t' ∧ ordered comp t'
    ∧ payloads t' = payloads tx.
Proof using Type*.
  intros HF HFx Hox Hf Hfx. unfold copy.
  destruct (clear_all st t fuel HF Hf) as (st0 & -> & HF0 & _).
  cbn [mbind option_bind].
  pose proof HFx as (HRx & _ & Hsx & Hmx).
  pose proof (rz_root HRx) as Hroot. cbn [plug] in Hroot.
  assert (tx = E ∨ tx ≠ E) as [->|Hne] by (destruct tx; [by left|by right]).
  - destruct (rz_nil HRx) as [np Hn].
    destruct fuel as [|fuel]; [lia|]. cbn [rootp] in Hroot.
    rewrite copy_node_unfold, Hroot, (node_at_cell _ _ _ Hn). cbn [value].
    exists st0, E. split; [done|]. split; [done|]. split; [by unfold rbt|].
    split; [constructor|done].
  - destruct (copy_node_spec x fuel tx _ st0 E (rz_nil HRx) (rz_sub HRx) Hne Hox HF0)
      as (st' & t' & Hrun & HF' & Hrb' & Ho' & Hp).
    + by unfold rbt.
    + constructor.
    + by intros a b _ ?%elem_of_nil.
    + cbn [tsize items length]. rewrite Hsx in Hmx. lia.
    + cbn [tsize items length]. unfold tsize in *. lia.
    + exists st', t'. rewrite Hroot, Hrun. repeat (split; [done|]).
      apply ordered_same_payloads; [done..|].
      rewrite Hp. cbn [payloads items fmap list_fmap]. by rewrite app_nil_r.
Qed.

End Copy.

(** ** Rotations, the first and the last node, and the invariants of the
    tree objects *)

Section Shape.
Context {T : Type}.
Variable comp : T -> T -> bool.
Implicit Types st : RBTree T.
Implicit Types s t : @tree T.
Implicit Types C : list (@frame T).

Lemma Full_same_frame st t st' t' :
  Full st t → Rep st' t' → same_frame st st' → items t' = items t →
  Full st' t'.
Proof.
  intros (_ & Hdom & Hsize & Hmax) HR' (Hn & Hs & Hd & _) Hit.
  split; [done|]. split; [|split].
  - by rewrite Hd, Hdom, Hn, !nodes_items, Hit.
  - rewrite Hs, Hsize. unfold tsize. by rewrite Hit.
  - by rewrite Hs.
Qed.

Lemma tmax_last nil t :
  t ≠ E → ∃ k w, items t = k ++ [(tmax nil t, w)].
Proof.
  induction t as [|c l _ x v r IHr]; [done|]. intros _. cbn [items tmax].
  destruct r as [|cr rl y vr rr].
  - by exists (items l), v.
  - destruct IHr as (k & w & Hk); [done|]. rewrite Hk.
    exists (items l ++ (x, v) :: k), w. by rewrite <- app_assoc.
Qed.

(** The card of the allocator: the sentinel and one cell per node. *)
Lemma Full_card st t : Full st t → base.size (dom (heap st)) = S (tsize t).
Proof.
  intros HF. pose proof HF as (HR & Hdom & _).
  pose proof (Full_nodup _ _ HF) as Hnd.
  pose proof (rz_nil_out HR) as Hout. rewrite app_nil_r in Hout.
  rewrite Hdom, size_union.
  - rewrite size_singleton, size_list_to_set by done. by rewrite tsize_nodes.
  - intros q. rewrite elem_of_singleton, elem_of_list_to_set. by intros ->.
Qed.





Hypothesis comp_trans :
  ∀ a b c, comp a b = true → comp b c = true → comp a c = true.

Lemma Built_sound st : Built comp st → ∃ t, Full st t ∧ rbt t ∧ ordered comp t.
Proof using Type*.
  induction 1 as [|st k fuel st' res _ (t & HF & Hrb & Ho) Hs Hf Hrun
                  |st x fuel st' n _ (t & HF & Hrb & Ho) Hx Hf Hrun].
  - exists E. split; [apply Full_new|]. split; [by unfold rbt|constructor].
  - rewrite (Full_budget _ _ HF) in Hf.
    destruct (insert_plain comp comp_trans st t k NULL fuel HF Hrb Ho)
      as (st1 & res1 & Hrun1 & Hcase); [by left|done|lia|].
    rewrite Hrun in Hrun1. injection Hrun1 as <- <-.
    destruct Hcase as [(_ & _ & t' & k1 & k2 & HF' & Hrb' & Ho' & _)|(_ & -> & _)].
    + by exists t'.
    + by exists t.
  - rewrite (Full_budget _ _ HF) in Hf.
    apply (Full_dom _ _ _ HF) in Hx. destruct Hx as [->|Hx].
    + rewrite (erase_nil fuel st t (proj1 HF)) in Hrun. injection Hrun as <- <-.
      by exists t.
    + destruct (erase_spec fuel st t x HF Hrb Hx ltac:(lia))
        as (st1 & t' & k1 & v & k2 & Hrun1 & HF' & Hrb' & Hit & Hit' & _).
      rewrite Hrun in Hrun1. injection Hrun1 as -> ->.
      exists t'. split; [done|]. split; [done|].
      by apply (ordered_remove comp t t' k1 (x, v) k2).
Qed.

(** The first node holds the least payload, the last node the greatest. *)
Lemma first_least t (x : N) (v : T) rest :
  ordered comp t → items t = (x, v) :: rest →
  ∀ e, e ∈ rest → comp v e.2 = true.
Proof.
  unfold ordered, payloads. intros Ho Hit. rewrite Hit in Ho.
  rewrite fmap_cons in Ho. apply StronglySorted_cons in Ho as [Ho _].
  rewrite Forall_forall in Ho. intros e He. apply Ho.
  apply list_elem_of_fmap. by exists e.
Qed.

Lemma last_greatest t (x : N) (v : T) k :
  ordered comp t → items t = k ++ [(x, v)] →
  ∀ e, e ∈ k → comp e.2 v = true.
Proof.
  unfold ordered, payloads. intros Ho Hit. rewrite Hit in Ho.
  rewrite fmap_app in Ho. apply StronglySorted_app in Ho as (Ho & _).
  intros e He. apply Ho; [|by left].
  apply list_elem_of_fmap. by exists e.
Qed.

End Shape.

(** ** Insertion at a position hint *)

Section Hinted.
Context {T : Type}.
Variable comp : T -> T -> bool.
Implicit Types st : RBTree T.
Implicit Types s t : @tree T.
Implicit Types C : list (@frame T).

(** The descent of [insert] from a chosen start, with the start in view. *)
Lemma insert_at_start st t (k : T) fuel Ch sh :
  Full st t → rbt t → t = plug Ch sh → sh ≠ E →
  _size st + 1 < size_max → (tsize t + 2 ≤ fuel)%nat →
  match descend comp k sh Ch with
  | inl C' =>
      ∃ st' t',
        insert_tail comp fuel (make_node st k).2 (rootp (_nil st) sh)
          (alloc (heap st)) = Some (st', (alloc (heap st), true))
        ∧ Full st' t' ∧ rbt t'
        ∧ items t' = cpre C' ++ (alloc (heap st), k) :: cpost C'
        ∧ _nil st' = _nil st
  | inr x =>
      insert_tail comp fuel (make_node st k).2 (rootp (_nil st) sh)
        (alloc (heap st)) = Some (st, (x, false))
  end.
Proof.
  intros HF Hrb Ht Hsh Hsz Hfuel.
  destruct (Full_fresh _ _ HF) as (Hnone & Hnz & Hnin & Hnn).
  destruct HF as (HR & Hdom & Hsize & Hmax).
  set (new := alloc (heap st)) in *.
  set (st0 := (make_node st k).2).
  assert (RepX st0 [] Ch sh) as R0.
  { apply Rep_unplug. rewrite <- Ht.
    apply (RepZ_alloc new _ HR Hnone Hnz). }
  assert (heap st0 !! new = Some (mkNode (Some k) RED NULL NULL NULL)) as Hcell.
  { unfold st0, make_node. cbn [snd heap]. apply lookup_insert_eq. }
  pose proof (insert_tail_spec comp st0 t k new _ Ch sh fuel R0 Ht Hsh Hrb Hcell
                eq_refl Hnin Hnn Hfuel) as Hspec.
  change (_nil st0) with (_nil st) in Hspec.
  destruct (descend comp k sh Ch) as [C'|x] eqn:Ed.
  - destruct Hspec as (st' & t' & Hrun & R' & Hrbt & Hit & En & Ed' & Es & Hp).
    exists st', t'. split; [exact Hrun|].
    assert (tsize t' = S (tsize t)) as Hsz2.
    { unfold tsize. rewrite Hit, Ht, <- (descend_inl comp _ _ _ _ Ed), items_plug.
      repeat (progress (rewrite ?length_app; cbn [length app items])). lia. }
    split; [|split; [done|]; split; [done|]; done].
    split; [exact R'|]. split; [|split].
    + rewrite Ed', En. unfold st0, make_node. cbn [snd heap].
      rewrite dom_insert_L, Hdom.
      rewrite (nodes_items t'), Hit, fmap_app, fmap_cons, list_to_set_middle.
      rewrite <- fmap_app. cbn [fst].
      replace ((cpre C' ++ cpost C').*1) with (nodes t); [set_solver|].
      rewrite nodes_items, Ht, <- (descend_inl comp _ _ _ _ Ed), items_plug.
      done.
    + rewrite Es. change (_size st0) with (_size st).
      unfold size_incr. rewrite Z.mod_small; [lia|]. unfold size_max in *. lia.
    + rewrite Es. change (_size st0) with (_size st).
      unfold size_incr. rewrite Z.mod_small; unfold size_max in *; lia.
  - rewrite Hspec. unfold st0, new. by rewrite dealloc_make_node.
Qed.

(** [insert] with a node of the tree as hint starts its descent at the
    root or at the hint. *)
Lemma insert_hint_start st t (k : T) (hint : N) fuel :
  Full st t → hint ∈ nodes t →
  ∃ Ch sh, t = plug Ch sh ∧ sh ≠ E
    ∧ (Ch = [] ∨ rootp (_nil st) sh = hint)
    ∧ insert comp fuel st k hint
      = insert_tail comp fuel (make_node st k).2 (rootp (_nil st) sh)
          (alloc (heap st)).
Proof.
  intros HF Hin.
  destruct (Full_fresh _ _ HF) as (Hnone & Hnz & Hnin & Hnn).
  pose proof HF as (HR & Hdom & Hsize & Hmax).
  destruct t as [|c l x v r]; [by apply elem_of_nil in Hin|].
  rewrite insert_unfold. cbv zeta.
  change (_size (make_node st k).2) with (_size st).
  change (_root (make_node st k).2) with (_root st).
  rewrite (proj2 (Z.eqb_neq _ 0)) by (rewrite Hsize, tsize_Tn; lia).
  pose proof (rz_root HR) as Hroot. cbn [plug rootp] in Hroot.
  assert (∀ p, p ∈ nodes (Tn c l x v r) →
            p ≠ alloc (heap st) ∧ p ≠ NULL
            ∧ ∃ pv, value (node_at st p) = Some pv) as Hnode.
  { intros p Hp.
    destruct (RepZ_nodes_Some p HR) as (pv&?&?&?&?&Hc);
      [rewrite elem_of_app; auto|].
    pose proof (rz_null HR).
    repeat split; try congruence.
    exists pv. by rewrite (node_at_cell _ _ _ Hc). }
  destruct (Hnode _ Hin) as (Hha & Hhz & hv & Hhv).
  destruct (Hnode x) as (Hxn & _ & rv & Hrv).
  { apply (rootp_in 0%N (Tn c l x v r)). done. }
  rewrite bool_decide_eq_true_2 by done.
  rewrite is_real_make_node by done. unfold is_real at 1. rewrite Hhv.
  cbn [andb].
  destruct (check_hint_cases comp (make_node st k).2 k hint hv rv)
    as (p & Hp & Hcase).
  { by rewrite node_at_make_node. }
  { change (_root (make_node st k).2) with (_root st).
    rewrite Hroot. rewrite node_at_make_node; [exact Hrv|exact Hxn]. }
  rewrite Hp. cbn [mbind option_bind].
  change (_root (make_node st k).2) with (_root st) in Hcase.
  destruct Hcase as [->| ->].
  - destruct (nodes_focus _ _ Hin) as (Ch & ch & lh & vh & rh & Et).
    exists Ch, (Tn ch lh hint vh rh). split; [done|]. split; [done|].
    split; [by right|done].
  - exists [], (Tn c l x v r). split; [done|]. split; [done|].
    split; [by left|]. by rewrite Hroot.
Qed.

Hypothesis comp_trans :
  ∀ a b c, comp a b = true → comp b c = true → comp a c = true.
Hypothesis comp_irrefl : ∀ a, comp a a = false.

Lemma comp_asym a b : comp a b = true → comp b a = false.
Proof using Type*.
  intros Hab. destruct (comp b a) eqn:Hba; [|done].
  pose proof (comp_trans _ _ _ Hab Hba). by rewrite comp_irrefl in *.
Qed.

(** Where a payload greater than every stored one goes, from the root and
    from the last node. *)
Lemma descend_greatest (nil : N) t Ch sh (k : T) C' :
  NoDup (nodes t) → ordered comp t → t = plug Ch sh → sh ≠ E →
  (Ch = [] ∨ rootp nil sh = tmax nil t) →
  (∀ e, e ∈ items t → comp e.2 k = true) →
  descend comp k sh Ch = inl C' →
  cpre C' = items t ∧ cpost C' = [].
Proof using Type*.
  intros Hnd Ho Et Hsh Hstart Hgt Hd.
  pose proof (descend_inl comp _ _ _ _ Hd) as Hpl. rewrite <- Et in Hpl.
  assert (items t = cpre C' ++ cpost C') as Hit
    by (by rewrite <- Hpl, items_plug).
  destruct Hstart as [->|Hroot].
  - cbn [plug] in Et. subst sh.
    destruct (descend_bounds comp comp_trans k t [] C' Ho) as [_ Hpost];
      [constructor|constructor|done|].
    destruct (cpost C') as [|e rest] eqn:Hc; [by rewrite Hit, app_nil_r|].
    exfalso. apply Forall_cons in Hpost as [He _].
    rewrite (comp_asym e.2 k) in He; [done|].
    apply Hgt. rewrite Hit, elem_of_app. right. by left.
  - destruct sh as [|ch lh m vh rh]; [done|]. cbn [rootp] in Hroot.
    assert (t ≠ E) as Hne.
    { intros Hte. pose proof (tsize_plug Ch (Tn ch lh m vh rh)) as Hs.
      rewrite <- Et, Hte, tsize_Tn in Hs. cbn in Hs. lia. }
    subst m.
    destruct (tmax_last nil t Hne) as (k0 & w & Hlast).
    pose proof Hnd as Hnd'. rewrite nodes_items, Hlast in Hnd'.
    assert (items t = (cpre Ch ++ items lh) ++ (tmax nil t, vh)
                        :: (items rh ++ cpost Ch)) as Hfocus.
    { rewrite Et at 1. rewrite items_plug. cbn [items].
      by rewrite <- !app_assoc. }
    rewrite Hlast in Hfocus.
    destruct (items_split_unique _ _ _ _ _ _ _ Hnd' Hfocus) as (Hk0 & -> & Hnil).
    symmetry in Hnil. apply app_eq_nil in Hnil as [Hrh Hpost].
    assert (rh = E) as -> by (destruct rh; [done|by destruct (items_nonempty _ _ _ _ _ Hrh)]).
    cbn [descend] in Hd.
    assert (comp vh k = true) as Hvk.
    { apply (Hgt (tmax nil t, vh)).
      rewrite Hlast, elem_of_app, elem_of_cons. auto. }
    rewrite (comp_asym _ _ Hvk), Hvk in Hd. cbn [descend] in Hd.
    injection Hd as <-. cbn [cpre cpost]. split; [|done].
    rewrite Hlast, Hk0. by rewrite <- app_assoc.
Qed.

(** Where a payload less than every stored one goes, from the root and from
    the first node. *)
Lemma descend_least (nil : N) t Ch sh (k : T) C' :
  NoDup (nodes t) → ordered comp t → t = plug Ch sh → sh ≠ E →
  (Ch = [] ∨ rootp nil sh = tmin nil t) →
  (∀ e, e ∈ items t → comp k e.2 = true) →
  descend comp k sh Ch = inl C' →
  cpre C' = [] ∧ cpost C' = items t.
Proof using Type*.
  intros Hnd Ho Et Hsh Hstart Hlt Hd.
  pose proof (descend_inl comp _ _ _ _ Hd) as Hpl. rewrite <- Et in Hpl.
  assert (items t = cpre C' ++ cpost C') as Hit
    by (by rewrite <- Hpl, items_plug).
  destruct Hstart as [->|Hroot].
  - cbn [plug] in Et. subst sh.
    destruct (descend_bounds comp comp_trans k t [] C' Ho) as [Hpre _];
      [constructor|constructor|done|].
    destruct (cpre C') as [|e rest] eqn:Hc; [by rewrite Hit|].
    exfalso. apply Forall_cons in Hpre as [He _].
    rewrite (comp_asym k e.2) in He; [done|].
    apply Hlt. rewrite Hit. by left.
  - destruct sh as [|ch lh m vh rh]; [done|]. cbn [rootp] in Hroot.
    assert (t ≠ E) as Hne.
    { intros Hte. pose proof (tsize_plug Ch (Tn ch lh m vh rh)) as Hs.
      rewrite <- Et, Hte, tsize_Tn in Hs. cbn in Hs. lia. }
    subst m.
    rewrite tmin_first in *.
    destruct (items t) as [|[b vb] rest] eqn:Hfirst.
    { destruct t; [done|by destruct (items_nonempty _ _ _ _ _ Hfirst)]. }
    cbn [first_node] in *.
    pose proof Hnd as Hnd'. rewrite nodes_items, Hfirst in Hnd'.
    assert (items t = (cpre Ch ++ items lh) ++ (b, vh)
                        :: (items rh ++ cpost Ch)) as Hfocus.
    { rewrite Et at 1. rewrite items_plug. cbn [items].
      by rewrite <- !app_assoc. }
    rewrite Hfirst in Hfocus.
    destruct (items_split_unique [] rest _ _ b vb vh Hnd' Hfocus)
      as (Hnil & -> & Hrest).
    symmetry in Hnil. apply app_eq_nil in Hnil as [Hpre Hlh].
    assert (lh = E) as -> by (destruct lh; [done|by destruct (items_nonempty _ _ _ _ _ Hlh)]).
    cbn [descend] in Hd.
    assert (comp k vh = true) as Hkv by (apply (Hlt (b, vh)); by left).
    rewrite Hkv in Hd. cbn [descend] in Hd.
    injection Hd as <-. cbn [cpre cpost]. split; [done|].
    by rewrite Hrest.
Qed.

End Hinted.

(** ** The depth of a red-black tree *)

Section Depth.
Context {T : Type}.
Variable comp : T -> T -> bool.
Implicit Types st : RBTree T.
Implicit Types s t : @tree T.

Lemma bh_size t : bal t → (2 ^ bh t ≤ tsize t + 1)%nat.
Proof.
  induction t as [|c l IHl x v r IHr]; cbn [bal bh]; [cbn; lia|].
  intros (Hb & Hl & Hr). rewrite tsize_Tn.
  specialize (IHl Hl). specialize (IHr Hr). rewrite <- Hb in IHr.
  destruct c; cbn [c2n].
  - rewrite Nat.add_0_r. lia.
  - rewrite Nat.add_1_r, Nat.pow_succ_r'. lia.
Qed.

Lemma height_bh t :
  bal t → nrr t →
  (height t ≤ 2 * bh t + match rootc t with RED => 1 | BLACK => 0 end)%nat.
Proof.
  induction t as [|c l IHl x v r IHr]; cbn [bal nrr bh height rootc]; [lia|].
  intros (Hb & Hl & Hr) (Hc & Hnl & Hnr).
  specialize (IHl Hl Hnl). specialize (IHr Hr Hnr). rewrite <- Hb in IHr.
  destruct c; cbn [c2n].
  - destruct Hc as [Hcl Hcr]; [done|]. rewrite Hcl in IHl. rewrite Hcr in IHr. lia.
  - destruct (rootc l), (rootc r); lia.
Qed.

Lemma rbt_height t : rbt t → (height t ≤ 2 * Nat.log2 (tsize t + 1))%nat.
Proof.
  intros (Hc & Hb & Hn). pose proof (height_bh t Hb Hn) as Hh.
  rewrite Hc in Hh. pose proof (bh_size t Hb) as Hs.
  assert (bh t ≤ Nat.log2 (tsize t + 1))%nat; [|lia].
  apply Nat.log2_le_pow2; [lia|done].
Qed.

Lemma find_loop_height st (k : T) : ∀ s par fuel,
  nilcell (heap st) (_nil st) →
  rep (heap st) (_nil st) par s →
  (height s < fuel)%nat →
  find_loop comp fuel st k (rootp (_nil st) s)
  = Some (descent_end (_nil st) (descend comp k s [])).
Proof.
  intros s par fuel [np Hn]. revert s par.
  induction fuel as [|fuel IH]; intros s par Hs Hf; [lia|].
  destruct s as [|c l x v r]; cbn [find_loop rootp descend descent_end].
  - by rewrite (node_at_cell _ _ _ Hn).
  - cbn [height] in Hf. cbn [rep] in Hs. destruct Hs as (Hx & Hl & Hr).
    rewrite (node_at_cell _ _ _ Hx). cbn [value leftChild rightChild].
    destruct (comp k v) eqn:E1; cbn [orb].
    + rewrite (IH l x Hl) by lia. f_equal. apply descent_end_shift.
    + destruct (comp v k) eqn:E2; [|done].
      rewrite (IH r x Hr) by lia. f_equal. apply descent_end_shift.
Qed.

End Depth.

(** * The properties of the specification *)

(** Facts about the tree objects of [Scenario], by computation. *)
Ltac full_compute :=
  split;
  [ constructor;
    [ vm_compute; reflexivity
    | vm_compute; repeat split
    | exact I
    | eexists; vm_compute; reflexivity
    | apply (bool_decide_unpack _); vm_compute; exact I
    | apply (bool_decide_unpack _); vm_compute; exact I
    | vm_compute; reflexivity
    | constructor ]
  | split; [vm_compute; reflexivity | split; vm_compute; reflexivity] ].
Ltac rbt_compute :=
  unfold rbt; cbn; repeat split; try reflexivity; intros; try discriminate.
Ltac dom_compute := apply elem_of_dom; eexists; vm_compute; reflexivity.

Lemma Full_t7 : Full Scenario.t7 Scenario.tr7.
Proof. full_compute. Qed.
Lemma rbt_tr7 : rbt Scenario.tr7.
Proof. rbt_compute. Qed.
Lemma Full_t1357 : Full Scenario.t1357 Scenario.tr1357.
Proof. full_compute. Qed.
Lemma Full_t4 : Full Scenario.t4 Scenario.tr4.
Proof. full_compute. Qed.
Lemma rbt_tr4 : rbt Scenario.tr4.
Proof. rbt_compute. Qed.

Lemma Reach_w3 : Reach Z.ltb Scenario.w3.
Proof.
  apply (Reach_erase Z.ltb Scenario.w2 2 Scenario.fuel Scenario.w3 1).
  - apply (Reach_insert Z.ltb Scenario.w1 5 2 Scenario.fuel Scenario.w2 (3%N, true)).
    + apply (Reach_insert Z.ltb RBTree_new 10 NULL Scenario.fuel Scenario.w1
               (2%N, true)).
      * apply Reach_new.
      * left. reflexivity.
      * vm_compute. reflexivity.
      * vm_compute. lia.
      * vm_compute. reflexivity.
    + right. dom_compute.
    + vm_compute. reflexivity.
    + vm_compute. lia.
    + vm_compute. reflexivity.
  - dom_compute.
  - vm_compute. lia.
  - vm_compute. reflexivity.
Qed.

Section Claims.
Context {T : Type}.
Implicit Types st : RBTree T.
Implicit Types comp : T -> T -> bool.

(** C1. Starting from the empty tree, after any sequence of [insert] and
    [erase] calls the five red-black properties hold: every node is RED or
    BLACK, the root is BLACK, the sentinel is BLACK, no RED node has a RED
    child, and all paths from a node down to the sentinel pass through the
    same number of BLACK nodes, the node itself excluded. *)
Theorem red_black_invariants comp st : Reach comp st → red_black st.
Proof.
  intros HR. apply (Reach_valid comp) in HR.
  destruct (valid_props st HR) as (H2 & H3 & H4 & H5).
  split; [|done]. intros p. destruct (color (node_at st p)); auto.
Qed.

(** C5. For a node [x] with two real children, the reduction step of
    [erase] makes [x] and its in-order predecessor [y] (the last node of the
    left subtree) trade places by relinking: the step returns [x], the tree
    object holds the same nodes with the payloads where they were, the
    in-order sequence is the old one with [x] and [y] swapped, so the nodes
    other than [x] keep their order, and [x] has no right child any more. *)
Theorem replace_erase_node_two_children st (t : @tree T) (x : N) (fuel : nat) :
  Full st t → x ∈ nodes t →
  is_real st (leftChild (node_at st x)) = true →
  is_real st (rightChild (node_at st x)) = true →
  (tsize t < fuel)%nat →
  ∃ st' t' k1 y w v k2,
    replace_erase_node fuel st x = Some (st', x)
    ∧ Full st' t'
    ∧ items t = k1 ++ (y, w) :: (x, v) :: k2
    ∧ items t' = k1 ++ (x, v) :: (y, w) :: k2
    ∧ dom (heap st') = dom (heap st)
    ∧ (∀ p, value (node_at st' p) = value (node_at st p))
    ∧ (∀ R : T → T → Prop,
         StronglySorted R (items t).*2 →
         StronglySorted R (k1 ++ (y, w) :: k2).*2)
    ∧ is_real st' (rightChild (node_at st' x)) = false.
Proof.
  intros HF Hx Hl Hr Hf.
  destruct (nodes_focus _ _ Hx) as (C & c & l & v & r & Et).
  pose proof HF as (HR & Hdom & Hsize & Hmax).
  assert (RepX st [] C (Tn c l x v r)) as H0
    by (apply Rep_unplug; rewrite <- Et; exact HR).
  pose proof (rz_sub H0) as Hs. cbn [rep] in Hs. destruct Hs as (Hxc & _ & _).
  destruct (rz_nil H0) as [np Hnil].
  rewrite (node_at_cell _ _ _ Hxc) in Hl. cbn [leftChild] in Hl.
  assert (l ≠ E) as Hne.
  { intros ->. cbn [rootp] in Hl. by rewrite (is_real_nil _ _ Hnil) in Hl. }
  pose proof (tsize_plug C (Tn c l x v r)) as Hsz.
  rewrite <- Et, tsize_Tn in Hsz.
  destruct (replace_erase_node_left fuel H0 Hne ltac:(lia))
    as (D & cy & a & y & w & HD & El & st' & Hrun & R1 & (K1 & K2 & K3)).
  set (k1 := cpre C ++ cpre D ++ items a).
  set (k2 := items r ++ cpost C).
  assert (items t = k1 ++ (y, w) :: (x, v) :: k2) as Hit.
  { assert (t = plug (D ++ FL c x v r :: C) (Tn cy a y w E)) as ->
      by (rewrite plug_app, <- El; exact Et).
    rewrite items_plug, cpre_app, cpost_app, (cpost_FR D HD).
    cbn [cpre cpost items app]. unfold k1, k2. by rewrite <- !app_assoc. }
  set (t' := plug (D ++ FL c y w r :: C) (Tn cy a x v E)).
  assert (items t' = k1 ++ (x, v) :: (y, w) :: k2) as Hit'.
  { unfold t'. rewrite items_plug, cpre_app, cpost_app, (cpost_FR D HD).
    cbn [cpre cpost items app]. unfold k1, k2. by rewrite <- !app_assoc. }
  assert (items t' ≡ₚ items t) as Hperm.
  { rewrite Hit, Hit'. apply Permutation_app_head, perm_swap. }
  assert (Full st' t') as HF'.
  { split; [apply (RepZ_plug R1)|]. split; [|split].
    - rewrite K3, Hdom, K1. f_equal. apply set_eq. intros p.
      rewrite !elem_of_list_to_set, !nodes_items. by rewrite Hperm.
    - rewrite K2, Hsize. unfold tsize. f_equal. apply Permutation_length.
      by symmetry.
    - by rewrite K2. }
  exists st', t', k1, y, w, v, k2.
  split; [exact Hrun|]. split; [exact HF'|]. split; [exact Hit|].
  split; [exact Hit'|]. split; [exact K3|].
  split; [apply (value_same st t st' t' HF HF' K1 Hperm)|]. split.
  - intros R. rewrite Hit, !fmap_app, !fmap_cons. cbn [snd].
    intros HS. apply StronglySorted_app in HS as (H3 & H1 & H2).
    apply StronglySorted_app.
    apply StronglySorted_cons in H2 as [Hy H2].
    apply StronglySorted_cons in H2 as [_ H2].
    apply Forall_cons in Hy as [_ Hy].
    split; [|split; [done|by constructor]].
    intros a1 a2 Ha1 Ha2. apply (H3 a1 a2 Ha1).
    apply elem_of_cons in Ha2 as [->|Ha2]; [by left|].
    right. by right.
  - pose proof (rz_sub R1) as Hs. cbn [rep rootp] in Hs.
    destruct Hs as (Hxc' & _ & _).
    rewrite (node_at_cell _ _ _ Hxc'). cbn [rightChild].
    rewrite K1 in Hxc' |- *.
    destruct (rz_nil R1) as [np' Hnil']. rewrite K1 in Hnil'.
    by rewrite (is_real_cell_gen _ _ _ Hnil').
Qed.

(** C6. Erasing a node [A] leaves every other node [B] in the tree object
    with the payload it had: [B] is still allocated and reading its payload
    gives the same value as before. *)
Theorem erase_keeps_other_payloads st (A B : N) (fuel : nat) :
  valid st → is_real st A = true → is_real st B = true → A ≠ B →
  (budget st ≤ fuel)%nat →
  ∃ st' n, erase fuel st A = Some (st', n)
    ∧ B ∈ dom (heap st')
    ∧ is_real st' B = true
    ∧ value (node_at st' B) = value (node_at st B).
Proof.
  intros (t & HF & Hrb) HA HB Hne Hf.
  rewrite (Full_budget _ _ HF) in Hf.
  apply (Full_real _ _ _ HF) in HA, HB.
  destruct (erase_spec fuel st t A HF Hrb HA ltac:(lia))
    as (st' & t' & k1 & v & k2 & Hrun & HF' & Hrb' & Hit & Hit' & Hnil & _).
  exists st', 1. split; [exact Hrun|].
  assert (B ∈ nodes t') as HB'.
  { rewrite nodes_items, Hit, fmap_app, fmap_cons, elem_of_app, elem_of_cons
      in HB. cbn [fst] in HB.
    rewrite nodes_items, Hit', fmap_app, elem_of_app.
    destruct HB as [?|[?|?]]; [by left|congruence|by right]. }
  split; [apply (Full_dom _ _ _ HF'); by right|].
  assert (is_real st' B = true) as Hreal by (by apply (Full_real _ _ _ HF')).
  split; [exact Hreal|].
  apply (value_stable st t st' t' HF HF' Hnil); [|exact Hreal].
  intros e. rewrite Hit, Hit', !elem_of_app, elem_of_cons. tauto.
Qed.

(** C8. [erase] of a real node returns 1, the node is removed and the
    size goes down by one: the tree object then holds a red-black tree with
    the former in-order sequence of nodes and payloads without that node,
    the node is no longer a real node and its cell is released; [erase] of
    the sentinel returns 0 and leaves the tree object as it is; there is no
    other result. *)
Theorem erase_result st (x : N) (fuel : nat) :
  valid st → x ∈ dom (heap st) → (budget st ≤ fuel)%nat →
  ∃ st' n, erase fuel st x = Some (st', n)
    ∧ ((is_real st x = true ∧ n = 1
        ∧ dom (heap st') = dom (heap st) ∖ {[x]}
        ∧ size st' = size st - 1
        ∧ is_real st' x = false
        ∧ valid st'
        ∧ (∀ t, Full st t →
             ∃ t' k1 v k2, Full st' t' ∧ rbt t'
               ∧ items t = k1 ++ (x, v) :: k2 ∧ items t' = k1 ++ k2))
       ∨ (x = _nil st ∧ n = 0 ∧ st' = st)).
Proof.
  intros (t & HF & Hrb) Hx Hf.
  rewrite (Full_budget _ _ HF) in Hf.
  apply (Full_dom _ _ _ HF) in Hx. destruct Hx as [->|Hx].
  - exists st, 0. split; [apply (erase_nil fuel st t), HF|]. right. auto.
  - destruct (erase_spec fuel st t x HF Hrb Hx ltac:(lia))
      as (st' & t' & k1 & v & k2 & Hrun & HF' & Hrb' & Hit & Hit' & Hnil & _).
    exists st', 1. split; [exact Hrun|]. left.
    split; [by apply (Full_real _ _ _ HF)|]. split; [done|].
    pose proof HF as (HR & Hdom & Hsize & Hmax).
    pose proof HF' as (HR' & Hdom' & Hsize' & Hmax').
    pose proof (rz_nodup HR) as Hnd. pose proof (rz_nil_out HR) as Hout.
    rewrite app_nil_r, nodes_items, Hit, fmap_app, fmap_cons in Hnd, Hout.
    cbn [fst] in Hnd, Hout.
    apply NoDup_app in Hnd as (N1 & N2 & N3). apply NoDup_cons in N3 as [N3 N4].
    assert (x ∉ nodes t') as Hgone.
    { rewrite nodes_items, Hit', fmap_app, elem_of_app. intros [Hp|Hp]; [|done].
      apply (N2 _ Hp). by left. }
    split; [|split; [|split; [|split]]].
    + rewrite Hdom', Hdom, Hnil, (nodes_items t'), Hit', (nodes_items t), Hit.
      rewrite !fmap_app, fmap_cons, !list_to_set_app_L, list_to_set_cons.
      cbn [fst]. apply set_eq. intros p.
      rewrite elem_of_difference, !elem_of_union, !elem_of_singleton,
        !elem_of_list_to_set.
      split; [|intros [[?|[?|[?|?]]] ?]; tauto].
      intros [Hp|[Hp|Hp]]; (split; [tauto|]); intros Hpx; subst p.
      * apply Hout. rewrite elem_of_app, elem_of_cons. auto.
      * apply (N2 _ Hp). by left.
      * done.
    + unfold size. rewrite Hsize', Hsize. unfold tsize.
      rewrite Hit, Hit', !length_app. cbn [length]. lia.
    + destruct (is_real st' x) eqn:Hreal; [|done].
      by apply (Full_real _ _ _ HF') in Hreal.
    + by exists t'.
    + intros t0 HF0. rewrite <- (Full_unique st t t0 HF HF0).
      by exists t', k1, v, k2.
Qed.

Lemma bound_of_first (p : T → bool) nil (l : list (N * T)) :
  first_such p nil l (bound_of p nil l).
Proof.
  induction l as [|[x v] l IH]; cbn [bound_of].
  - left. split; [done|]. by intros y v ?%elem_of_nil.
  - destruct (p v) eqn:Hv.
    + right. exists [], v, l. split; [done|]. split; [done|].
      by intros y w ?%elem_of_nil.
    + destruct IH as [[Heq Hall]|(k1 & w & k2 & Heq & Hw & Hk1)].
      * left. split; [done|]. intros y u [[= -> ->]|?]%elem_of_cons; eauto.
      * right. exists ((x, v) :: k1), w, k2.
        split; [cbn [app]; f_equal; exact Heq|]. split; [done|].
        intros y u [[= -> ->]|?]%elem_of_cons; eauto.
Qed.

(** C9. [lower_bound(key)] returns the first node of the in-order sequence
    whose payload does not compare less than [key], [upper_bound(key)] the
    first one that [key] compares less than, and each returns the sentinel
    when there is no such node.  On the tree built from 1, 3, 5, 7:
    [lower_bound(4)] is the node of 5, [upper_bound(5)] the node of 7,
    [lower_bound(5)] the node of 5 and [upper_bound(7)] the sentinel. *)
Theorem bounds_first_in_order comp st (t : @tree T) (key : T) (fuel : nat) :
  Rep st t → (2 * tsize t + 1 < fuel)%nat →
  (∃ lb ub,
     lower_bound comp fuel st key = Some lb
     ∧ upper_bound comp fuel st key = Some ub
     ∧ first_such (λ v, negb (comp v key)) (_nil st) (items t) lb
     ∧ first_such (λ v, comp key v) (_nil st) (items t) ub)
  ∧ (Scenario.key_of Scenario.t1357
       <$> lower_bound Z.ltb Scenario.fuel Scenario.t1357 4 = Some 5
     ∧ Scenario.key_of Scenario.t1357
         <$> upper_bound Z.ltb Scenario.fuel Scenario.t1357 5 = Some 7
     ∧ Scenario.key_of Scenario.t1357
         <$> lower_bound Z.ltb Scenario.fuel Scenario.t1357 5 = Some 5
     ∧ upper_bound Z.ltb Scenario.fuel Scenario.t1357 7
       = Some (get_end Scenario.t1357)).
Proof.
  intros HR Hf. split.
  - eexists _, _.
    split; [apply (lower_bound_spec comp st t key fuel HR Hf)|].
    split; [apply (upper_bound_spec comp st t key fuel HR Hf)|].
    split; apply bound_of_first.
  - repeat split; vm_compute; reflexivity.
Qed.

(** C10. For a key that no stored payload compares equal to,
    [lower_bound] and [upper_bound] return the same node.  The comparison
    is a strict order: it never holds both ways. *)
Theorem bounds_agree_on_absent_key comp st (t : @tree T) (key : T) (fuel : nat) :
  Rep st t →
  (∀ a b, comp a b = true → comp b a = false) →
  (∀ x v, (x, v) ∈ items t → comp v key = true ∨ comp key v = true) →
  (2 * tsize t + 1 < fuel)%nat →
  ∃ p, lower_bound comp fuel st key = Some p
    ∧ upper_bound comp fuel st key = Some p.
Proof.
  intros HR Hasym Habsent Hf.
  rewrite (lower_bound_spec comp st t key fuel HR Hf),
    (upper_bound_spec comp st t key fuel HR Hf).
  eexists. split; [reflexivity|]. f_equal.
  induction (items t) as [|[x v] l IH]; cbn [bound_of]; [done|].
  rewrite IH by (intros y w Hin; apply (Habsent y w); by right).
  destruct (Habsent x v ltac:(by left)) as [Hlt|Hgt].
  - by rewrite Hlt, (Hasym _ _ Hlt).
  - by rewrite Hgt, (Hasym _ _ Hgt).
Qed.

End Claims.

(** ** The properties at concrete tree objects *)

Lemma red_black_invariants_witness :
  Reach Z.ltb Scenario.w3 ∧ red_black Scenario.w3.
Proof.
  split; [exact Reach_w3|].
  apply (red_black_invariants Z.ltb Scenario.w3). exact Reach_w3.
Defined.

Lemma replace_erase_node_two_children_witness :
  Full Scenario.t7 Scenario.tr7 ∧ 2%N ∈ nodes Scenario.tr7
  ∧ is_real Scenario.t7 (leftChild (node_at Scenario.t7 2)) = true
  ∧ is_real Scenario.t7 (rightChild (node_at Scenario.t7 2)) = true
  ∧ (tsize Scenario.tr7 < Scenario.fuel)%nat
  ∧ ∃ st' t' k1 y w v k2,
      replace_erase_node Scenario.fuel Scenario.t7 2 = Some (st', 2%N)
      ∧ Full st' t'
      ∧ items Scenario.tr7 = k1 ++ (y, w) :: (2%N, v) :: k2
      ∧ items t' = k1 ++ (2%N, v) :: (y, w) :: k2
      ∧ dom (heap st') = dom (heap Scenario.t7)
      ∧ (∀ p, value (node_at st' p) = value (node_at Scenario.t7 p))
      ∧ (∀ R : Z → Z → Prop,
           StronglySorted R (items Scenario.tr7).*2 →
           StronglySorted R (k1 ++ (y, w) :: k2).*2)
      ∧ is_real st' (rightChild (node_at st' 2)) = false.
Proof.
  assert (Full Scenario.t7 Scenario.tr7) as H1 by full_compute.
  assert (2%N ∈ nodes Scenario.tr7) as H2
    by (apply (bool_decide_unpack _); vm_compute; exact I).
  assert (is_real Scenario.t7 (leftChild (node_at Scenario.t7 2)) = true) as H3
    by (vm_compute; reflexivity).
  assert (is_real Scenario.t7 (rightChild (node_at Scenario.t7 2)) = true) as H4
    by (vm_compute; reflexivity).
  assert (tsize Scenario.tr7 < Scenario.fuel)%nat as H5 by (vm_compute; lia).
  split; [exact H1|]. split; [exact H2|]. split; [exact H3|].
  split; [exact H4|]. split; [exact H5|].
  exact (replace_erase_node_two_children Scenario.t7 Scenario.tr7 2
           Scenario.fuel H1 H2 H3 H4 H5).
Defined.

Lemma valid_t7 : valid Scenario.t7.
Proof. exists Scenario.tr7. split; [full_compute|rbt_compute]. Qed.

Lemma erase_keeps_other_payloads_witness :
  valid Scenario.t7 ∧ is_real Scenario.t7 2 = true
  ∧ is_real Scenario.t7 3 = true ∧ 2%N ≠ 3%N
  ∧ (budget Scenario.t7 ≤ Scenario.fuel)%nat
  ∧ ∃ st' n, erase Scenario.fuel Scenario.t7 2 = Some (st', n)
      ∧ 3%N ∈ dom (heap st')
      ∧ is_real st' 3 = true
      ∧ value (node_at st' 3) = value (node_at Scenario.t7 3).
Proof.
  assert (is_real Scenario.t7 2 = true) as H2 by (vm_compute; reflexivity).
  assert (is_real Scenario.t7 3 = true) as H3 by (vm_compute; reflexivity).
  assert (2%N ≠ 3%N) as H4 by lia.
  assert (budget Scenario.t7 ≤ Scenario.fuel)%nat as H5 by (vm_compute; lia).
  split; [exact valid_t7|]. split; [exact H2|]. split; [exact H3|].
  split; [exact H4|]. split; [exact H5|].
  exact (erase_keeps_other_payloads Scenario.t7 2 3 Scenario.fuel valid_t7
           H2 H3 H4 H5).
Defined.

Lemma erase_result_witness :
  valid Scenario.t7 ∧ 2%N ∈ dom (heap Scenario.t7)
  ∧ (budget Scenario.t7 ≤ Scenario.fuel)%nat
  ∧ ∃ st' n, erase Scenario.fuel Scenario.t7 2 = Some (st', n)
      ∧ ((is_real Scenario.t7 2 = true ∧ n = 1
          ∧ dom (heap st') = dom (heap Scenario.t7) ∖ {[2%N]}
          ∧ size st' = size Scenario.t7 - 1
          ∧ is_real st' 2 = false
          ∧ valid st'
          ∧ (∀ t, Full Scenario.t7 t →
               ∃ t' k1 v k2, Full st' t' ∧ rbt t'
                 ∧ items t = k1 ++ (2%N, v) :: k2 ∧ items t' = k1 ++ k2))
         ∨ (2%N = _nil Scenario.t7 ∧ n = 0 ∧ st' = Scenario.t7)).
Proof.
  assert (2%N ∈ dom (heap Scenario.t7)) as H2 by dom_compute.
  assert (budget Scenario.t7 ≤ Scenario.fuel)%nat as H3 by (vm_compute; lia).
  split; [exact valid_t7|]. split; [exact H2|]. split; [exact H3|].
  exact (erase_result Scenario.t7 2 Scenario.fuel valid_t7 H2 H3).
Defined.

Lemma bounds_first_in_order_witness :
  Rep Scenario.t1357 Scenario.tr1357
  ∧ (2 * tsize Scenario.tr1357 + 1 < Scenario.fuel)%nat
  ∧ ∃ lb ub,
      lower_bound Z.ltb Scenario.fuel Scenario.t1357 4 = Some lb
      ∧ upper_bound Z.ltb Scenario.fuel Scenario.t1357 4 = Some ub
      ∧ first_such (λ v, negb (v <? 4)) (_nil Scenario.t1357)
          (items Scenario.tr1357) lb
      ∧ first_such (λ v, 4 <? v) (_nil Scenario.t1357)
          (items Scenario.tr1357) ub.
Proof.
  assert (Rep Scenario.t1357 Scenario.tr1357) as H1 by apply Full_t1357.
  assert (2 * tsize Scenario.tr1357 + 1 < Scenario.fuel)%nat as H2
    by (vm_compute; lia).
  split; [exact H1|]. split; [exact H2|].
  exact (proj1 (bounds_first_in_order Z.ltb Scenario.t1357 Scenario.tr1357 4
                  Scenario.fuel H1 H2)).
Defined.

Lemma bounds_agree_on_absent_key_witness :
  Rep Scenario.t1357 Scenario.tr1357
  ∧ (∀ a b, (a <? b) = true → (b <? a) = false)
  ∧ (∀ x v, (x, v) ∈ items Scenario.tr1357 → (v <? 4) = true ∨ (4 <? v) = true)
  ∧ (2 * tsize Scenario.tr1357 + 1 < Scenario.fuel)%nat
  ∧ ∃ p, lower_bound Z.ltb Scenario.fuel Scenario.t1357 4 = Some p
      ∧ upper_bound Z.ltb Scenario.fuel Scenario.t1357 4 = Some p.
Proof.
  assert (Rep Scenario.t1357 Scenario.tr1357) as H1 by apply Full_t1357.
  assert (∀ a b, (a <? b) = true → (b <? a) = false) as H2 by (intros; lia).
  assert (∀ x v, (x, v) ∈ items Scenario.tr1357 →
            (v <? 4) = true ∨ (4 <? v) = true) as H3.
  { intros x v Hin. vm_compute in Hin.
    repeat (apply elem_of_cons in Hin as [[= -> ->]|Hin]; [lia|]).
    by apply elem_of_nil in Hin. }
  assert (2 * tsize Scenario.tr1357 + 1 < Scenario.fuel)%nat as H4
    by (vm_compute; lia).
  split; [exact H1|]. split; [exact H2|]. split; [exact H3|].
  split; [exact H4|].
  exact (bounds_agree_on_absent_key Z.ltb Scenario.t1357 Scenario.tr1357 4
           Scenario.fuel H1 H2 H3 H4).
Defined.

(** ** Insertion with a position hint *)

Ltac reach_ins st k hint res :=
  apply (Reach_insert Z.ltb st k hint Scenario.fuel _ res);
  [ | first [left; reflexivity | right; dom_compute]
    | vm_compute; reflexivity | vm_compute; lia | vm_compute; reflexivity ].

Lemma Reach_t4 : Reach Z.ltb Scenario.t4.
Proof.
  reach_ins (Scenario.build [10; 5; 15]) 7 NULL (5%N, true).
  reach_ins (Scenario.build [10; 5]) 15 NULL (4%N, true).
  reach_ins (Scenario.build [10]) 5 NULL (3%N, true).
  reach_ins (@RBTree_new Z) 10 NULL (2%N, true).
  apply Reach_new.
Qed.

Lemma Reach_t4b : Reach Z.ltb Scenario.t4b.
Proof.
  reach_ins (Scenario.build [10; 5; 15]) 12 NULL (5%N, true).
  reach_ins (Scenario.build [10; 5]) 15 NULL (4%N, true).
  reach_ins (Scenario.build [10]) 5 NULL (3%N, true).
  reach_ins (@RBTree_new Z) 10 NULL (2%N, true).
  apply Reach_new.
Qed.

(** C2 on the tree built from 10, 5, 15, 7: [insert(3, hint)] with the node
    of 7 as hint starts the descent at the hint, and the walk from
    [begin()] to [end()] then meets 5 before 3. *)
Theorem hinted_insert_breaks_order :
  Reach Z.ltb (Scenario.ins 3 5 Scenario.t4)
  ∧ Scenario.key_of Scenario.t4 5 = 7
  ∧ check_hint Z.ltb Scenario.t4 3 5 = Some 5%N
  ∧ Scenario.keys_in_order (Scenario.ins 3 5 Scenario.t4)
    = Some [5; 3; 7; 10; 15]
  ∧ Scenario.walk Scenario.fuel (Scenario.ins 3 5 Scenario.t4)
      (_root (Scenario.ins 3 5 Scenario.t4)) = [5; 3; 7; 10; 15].
Proof.
  split.
  { reach_ins Scenario.t4 3 5%N (6%N, true). exact Reach_t4. }
  repeat split; vm_compute; reflexivity.
Qed.

(** C3 on the same tree: with the node of 7 as hint the key 3 ends up
    after 5, without a hint it ends up before 5. *)
Theorem hinted_insert_differs_from_plain :
  is_real Scenario.t4 5 = true
  ∧ Scenario.keys_in_order (Scenario.ins 3 5 Scenario.t4)
    = Some [5; 3; 7; 10; 15]
  ∧ Scenario.keys_in_order (Scenario.ins 3 NULL Scenario.t4)
    = Some [3; 5; 7; 10; 15].
Proof. repeat split; vm_compute; reflexivity. Qed.

(** C4 on the tree built from 10, 5, 15, 12: after [insert(20, hint)] with
    the node of 12 as hint the sentinel's parent is the node of 15, and the
    largest key is 20. *)
Theorem hinted_insert_misplaces_sentinel_parent :
  Reach Z.ltb (Scenario.ins 20 5 Scenario.t4b)
  ∧ Scenario.key_of Scenario.t4b 5 = 12
  ∧ Scenario.key_of (Scenario.ins 20 5 Scenario.t4b)
      (parent (node_at (Scenario.ins 20 5 Scenario.t4b)
                 (_nil (Scenario.ins 20 5 Scenario.t4b)))) = 15
  ∧ Scenario.max_key (Scenario.ins 20 5 Scenario.t4b) = 20.
Proof.
  split.
  { reach_ins Scenario.t4b 20 5%N (6%N, true). exact Reach_t4b. }
  repeat split; vm_compute; reflexivity.
Qed.

(** C7 on the tree built from 10, 5, 15, 7, which holds 5: [insert(5, hint)]
    with the node of 7 as hint creates a second node for 5 and the size
    goes from 4 to 5. *)
Theorem hinted_insert_duplicates_key :
  Scenario.keys_in_order Scenario.t4 = Some [5; 7; 10; 15]
  ∧ size Scenario.t4 = 4
  ∧ snd <$> insert Z.ltb Scenario.fuel Scenario.t4 5 5 = Some (6%N, true)
  ∧ size (Scenario.ins 5 5 Scenario.t4) = 5
  ∧ Scenario.keys_in_order (Scenario.ins 5 5 Scenario.t4)
    = Some [5; 5; 7; 10; 15].
Proof. repeat split; vm_compute; reflexivity. Qed.

(** * Further properties: lookup, insertion, removal, rotations, clear and
    copy *)

Lemma ltb_trans (a b c : Z) : (a <? b) = true → (b <? c) = true → (a <? c) = true.
Proof. lia. Qed.
Lemma ltb_irrefl (a : Z) : (a <? a) = false.
Proof. lia. Qed.
Lemma ltb_same_key_trans (a b c : Z) :
  same_key Z.ltb a b → same_key Z.ltb b c → same_key Z.ltb a c.
Proof. unfold same_key. lia. Qed.
Lemma ordered_tr7 : ordered Z.ltb Scenario.tr7.
Proof. unfold ordered. cbn. repeat constructor. Qed.
Lemma ordered_tr4 : ordered Z.ltb Scenario.tr4.
Proof. unfold ordered. cbn. repeat constructor. Qed.

Section More.
Context {T : Type}.
Implicit Types st x : RBTree T.
Implicit Types comp : T -> T -> bool.

(** X1. In a tree whose in-order payloads increase strictly, [find(k)]
    returns a node whose payload is equivalent to [k] (neither goes before
    the other), and it returns the sentinel, which is [get_end()], exactly
    when no stored payload is equivalent to [k]; an empty tree gives the
    sentinel. *)
Theorem find_locates_equivalent_payload comp st (t : @tree T) (k : T)
    (fuel : nat) :
  (∀ a b c, comp a b = true → comp b c = true → comp a c = true) →
  Full st t → ordered comp t → (tsize t < fuel)%nat →
  ∃ p, find comp fuel st k = Some p
    ∧ ((p = get_end st ∧ ∀ e, e ∈ items t → ¬ same_key comp k e.2)
       ∨ (∃ v, (p, v) ∈ items t ∧ value (node_at st p) = Some v
            ∧ same_key comp k v)).
Proof.
  intros Htr HF Ho Hf.
  destruct (find_ordered comp Htr st t k fuel HF Ho Hf) as (p & Hrun & Hcase).
  exists p. split; [done|].
  destruct Hcase as [?|(v & Hin & Hs)]; [by left|right].
  exists v. split; [done|]. split; [|done].
  apply (Rep_value st t p v (proj1 HF) Hin).
Qed.

(** X2. [insert(val)] without a position hint (or with [end()] as hint)
    on a red-black tree with strictly increasing payloads: when no stored
    payload is equivalent to [val], a fresh node is linked at its place in
    the order, the flag is true and [size()] grows by one, and the result
    is again a red-black tree with strictly increasing payloads; otherwise
    the node of the equivalent payload is returned with a false flag and
    the tree object is unchanged. *)
Theorem insert_without_hint_keeps_order comp st (t : @tree T) (k : T)
    (hint : N) (fuel : nat) :
  (∀ a b c, comp a b = true → comp b c = true → comp a c = true) →
  Full st t → rbt t → ordered comp t → hint = NULL ∨ hint = get_end st →
  _size st + 1 < size_max → (tsize t + 2 ≤ fuel)%nat →
  ∃ st' res, insert comp fuel st k hint = Some (st', res)
    ∧ ((res.2 = true
        ∧ (∀ e, e ∈ items t → ¬ same_key comp k e.2)
        ∧ size st' = size st + 1
        ∧ ∃ t' k1 k2, Full st' t' ∧ rbt t' ∧ ordered comp t'
            ∧ items t = k1 ++ k2 ∧ items t' = k1 ++ (res.1, k) :: k2)
       ∨ (res.2 = false ∧ st' = st
          ∧ ∃ v, (res.1, v) ∈ items t ∧ same_key comp k v)).
Proof.
  intros Htr HF Hrb Ho Hh Hs Hf.
  destruct (insert_plain comp Htr st t k hint fuel HF Hrb Ho Hh Hs Hf)
    as (st' & res & Hrun & Hcase).
  exists st', res. split; [done|].
  destruct Hcase as [(Hr & Habs & t' & k1 & k2 & HF' & Hrb' & Ho' & Hit & Hit' & _)
                    |(Hr & -> & _ & Hv)].
  - left. split; [done|]. split; [done|]. split; [|by exists t', k1, k2].
    unfold size. rewrite (Full_tsize _ _ HF'), (Full_tsize _ _ HF).
    rewrite (tsize_items _ _ _ _ _ Hit Hit'). lia.
  - right. auto.
Qed.

(** X3. [insert(val, hint)] with any hint a caller can pass (none, [end()]
    or a node of the tree) on a red-black tree returns; when it creates a
    node, the node is a fresh cell, the stored entries keep their nodes,
    payloads and relative order, the new entry is added among them,
    [size()] grows by one and the result is a red-black tree; when it does
    not, the tree object is unchanged and the returned node holds a payload
    equivalent to [val]. *)
Theorem insert_adds_one_entry comp st (t : @tree T) (k : T) (hint : N)
    (fuel : nat) :
  Full st t → rbt t → hint = NULL ∨ hint ∈ dom (heap st) →
  _size st + 1 < size_max → (tsize t + 2 ≤ fuel)%nat →
  ∃ st' res, insert comp fuel st k hint = Some (st', res)
    ∧ ((res.2 = true
        ∧ res.1 ∉ dom (heap st)
        ∧ size st' = size st + 1
        ∧ (∀ p, p ∈ nodes t → value (node_at st' p) = value (node_at st p))
        ∧ value (node_at st' res.1) = Some k
        ∧ ∃ t' k1 k2, Full st' t' ∧ rbt t'
            ∧ items t = k1 ++ k2 ∧ items t' = k1 ++ (res.1, k) :: k2)
       ∨ (res.2 = false ∧ st' = st
          ∧ ∃ v, (res.1, v) ∈ items t ∧ same_key comp k v)).
Proof.
  intros HF Hrb Hh Hs Hf.
  destruct (insert_spec comp st t k hint fuel HF Hrb) as (st' & res & Hrun & Hpost);
    [|done|done|].
  { destruct Hh as [->|Hh]; [by left|right].
    by apply (Full_dom _ _ _ HF) in Hh. }
  exists st', res. split; [done|].
  destruct (res.2) eqn:Hr.
  - left. split; [done|].
    destruct (insert_created_split comp _ _ _ _ _ _ Hpost Hr)
      as (t' & C' & HF' & Hrb' & _ & Hit & Hit' & Hnew & Hn & _ & _).
    assert ((res.1, k) ∈ items t') as Hin.
    { rewrite Hit', elem_of_app, elem_of_cons. auto. }
    split; [|split; [|split; [|split]]].
    + rewrite (Full_dom _ _ _ HF). intros [Heq|?]; [|done].
      pose proof (rz_nil_out (proj1 HF')) as Hout. apply Hout.
      rewrite app_nil_r, Hn, <- Heq, nodes_items.
      apply list_elem_of_fmap. by exists (res.1, k).
    + unfold size. rewrite (Full_tsize _ _ HF'), (Full_tsize _ _ HF).
      rewrite (tsize_items _ _ _ _ _ Hit Hit'). lia.
    + intros p Hp. destruct (node_item st t p HF Hp) as (v & Hv).
      destruct (Rep_value st t p v (proj1 HF) Hv) as [_ ->].
      apply (Rep_value st' t' p v (proj1 HF')).
      rewrite Hit in Hv. rewrite Hit'.
      rewrite elem_of_app in Hv. rewrite elem_of_app, elem_of_cons. tauto.
    + apply (Rep_value st' t' _ _ (proj1 HF') Hin).
    + by exists t', (cpre C'), (cpost C').
  - right. split; [done|].
    destruct (insert_found_split comp _ _ _ _ _ _ Hpost Hr) as (-> & Hv & _).
    auto.
Qed.

(** X4. Round trip: after [insert(k)] without a hint on a red-black tree
    with strictly increasing payloads, [find(k)] returns the node that
    [insert] returned, whether it was created or already there. *)
Theorem find_after_insert comp st (t : @tree T) (k : T) (fuel : nat)
    (st' : RBTree T) (res : N * bool) :
  (∀ a b c, comp a b = true → comp b c = true → comp a c = true) →
  comp k k = false →
  Full st t → rbt t → ordered comp t →
  _size st + 1 < size_max → (tsize t + 2 ≤ fuel)%nat →
  insert comp fuel st k NULL = Some (st', res) →
  find comp fuel st' k = Some res.1.
Proof.
  intros Htr Hirr HF Hrb Ho Hs Hf Hrun.
  destruct (insert_plain comp Htr st t k NULL fuel HF Hrb Ho) as
    (st1 & res1 & Hrun1 & Hcase); [by left|done|done|].
  rewrite Hrun in Hrun1. injection Hrun1 as <- <-.
  destruct Hcase as [(Hr & _ & t' & k1 & k2 & HF' & Hrb' & Ho' & Hit & Hit' & _)
                    |(Hr & -> & Hd & _)].
  - rewrite (find_descend comp st' t' k fuel HF');
      [|rewrite (tsize_items _ _ _ _ _ Hit Hit'); lia].
    rewrite (descend_stored comp Htr t' res.1 k (Full_nodup _ _ HF') Ho' Hirr);
      [done|].
    rewrite Hit', elem_of_app, elem_of_cons. auto.
  - rewrite (find_descend comp st t k fuel HF) by lia. by rewrite Hd.
Qed.

(** X5. After [erase] of the node that holds [v] in a red-black tree with
    strictly increasing payloads, [find(v)] returns [get_end()]. *)
Theorem find_after_erase comp st (t : @tree T) (x : N) (v : T) (fuel : nat) :
  (∀ a b c, comp a b = true → comp b c = true → comp a c = true) →
  Full st t → rbt t → ordered comp t → (x, v) ∈ items t →
  (tsize t + 2 ≤ fuel)%nat →
  ∃ st', erase fuel st x = Some (st', 1)
    ∧ find comp fuel st' v = Some (get_end st').
Proof.
  intros Htr HF Hrb Ho Hin Hf.
  assert (x ∈ nodes t) as Hx.
  { rewrite nodes_items. apply list_elem_of_fmap. by exists (x, v). }
  destruct (erase_spec fuel st t x HF Hrb Hx Hf)
    as (st' & t' & k1 & v' & k2 & Hrun & HF' & Hrb' & Hit & Hit' & Hn & _).
  exists st'. split; [done|].
  assert (tsize t = S (tsize t')) as Hsz
    by apply (tsize_items _ _ _ _ _ Hit' Hit).
  rewrite (find_descend comp st' t' v fuel HF') by lia.
  pose proof (ordered_remove comp t t' k1 (x, v') k2 Ho Hit Hit') as Ho'.
  destruct (descend comp v t' []) as [C'|y] eqn:Hd; [done|].
  exfalso.
  destruct (descend_inr comp _ _ _ _ Hd) as (w & Hw & E1 & E2).
  assert ((y, w) ∈ items t) as Hw'.
  { rewrite Hit' in Hw. rewrite Hit.
    rewrite elem_of_app in Hw. rewrite elem_of_app, elem_of_cons. tauto. }
  pose proof (ordered_unique comp t x v y w (Full_nodup _ _ HF) Ho Hin Hw'
                (conj E1 E2)) as <-.
  pose proof (Full_nodup _ _ HF) as Hnd.
  rewrite nodes_items, Hit, fmap_app, fmap_cons in Hnd. cbn [fst] in Hnd.
  apply NoDup_app in Hnd as (_ & Hd1 & Hd2). apply NoDup_cons in Hd2 as [Hd2 _].
  rewrite Hit' in Hw. apply elem_of_app in Hw as [Hw|Hw].
  - apply (Hd1 x); [|by left]. apply list_elem_of_fmap. by exists (x, w).
  - apply Hd2. apply list_elem_of_fmap. by exists (x, w).
Qed.

(** X6. [erase] of a node of a red-black tree removes that one entry from
    the in-order sequence: the entries before it and after it stay as they
    were, in the same order, so strictly increasing payloads stay strictly
    increasing, and the result is a red-black tree. *)
Theorem erase_removes_one_entry comp st (t : @tree T) (x : N) (fuel : nat) :
  Full st t → rbt t → x ∈ nodes t → (tsize t + 2 ≤ fuel)%nat →
  ∃ st' t' k1 v k2, erase fuel st x = Some (st', 1)
    ∧ Full st' t' ∧ rbt t'
    ∧ items t = k1 ++ (x, v) :: k2 ∧ items t' = k1 ++ k2
    ∧ (ordered comp t → ordered comp t').
Proof.
  intros HF Hrb Hx Hf.
  destruct (erase_spec fuel st t x HF Hrb Hx Hf)
    as (st' & t' & k1 & v & k2 & Hrun & HF' & Hrb' & Hit & Hit' & _).
  exists st', t', k1, v, k2. repeat (split; [done|]).
  intros Ho. by apply (ordered_remove comp t t' k1 (x, v) k2).
Qed.


(** X8. No cell leaks: on every tree object that [insert] and [erase]
    calls produce from the empty tree, the allocator holds the sentinel and
    exactly [size()] node cells, and [empty()] holds exactly when the root
    is the sentinel. *)
Theorem allocator_holds_size_nodes comp st :
  Reach comp st →
  Z.of_nat (base.size (dom (heap st))) = size st + 1
  ∧ (empty st = true ↔ _root st = _nil st).
Proof.
  intros HR. destruct (Reach_valid comp st HR) as (t & HF & _).
  split.
  - rewrite (Full_card st t HF). unfold size. rewrite (Full_tsize _ _ HF). lia.
  - unfold empty. rewrite (Full_tsize _ _ HF).
    pose proof (rz_root (proj1 HF)) as Hroot. cbn [plug] in Hroot.
    rewrite Hroot. destruct t as [|c l y v r].
    + done.
    + rewrite tsize_Tn. split; [intros Hz%Z.eqb_eq; lia|]. intros Heq. exfalso.
      pose proof (rz_nil_out (proj1 HF)) as Hout. apply Hout.
      rewrite app_nil_r, <- Heq. by apply (rootp_in _ (Tn c l y v r)).
Qed.

(** X9. [rotate_left] at a node with a real right child keeps the in-order
    sequence of nodes and payloads: the right child becomes the parent of
    the node, the node becomes its left child and takes the child's former
    left subtree as right subtree. *)
Theorem rotate_left_keeps_sequence st (t : @tree T) (x : N) :
  Full st t → x ∈ nodes t → is_real st (rightChild (node_at st x)) = true →
  ∃ t', Full (rotate_left st x) t' ∧ items t' = items t
    ∧ parent (node_at (rotate_left st x) x) = rightChild (node_at st x)
    ∧ leftChild (node_at (rotate_left st x) (rightChild (node_at st x))) = x
    ∧ rightChild (node_at (rotate_left st x) x)
      = leftChild (node_at st (rightChild (node_at st x))).
Proof.
  intros HF Hx Hreal.
  destruct (nodes_focus _ _ Hx) as (C & c & a & v & r & Et).
  pose proof HF as (HR & _).
  assert (RepX st [] C (Tn c a x v r)) as H0
    by (apply Rep_unplug; rewrite <- Et; exact HR).
  pose proof (rz_sub H0) as Hs. cbn [rep] in Hs. destruct Hs as (Hxc & _ & Hr).
  rewrite (node_at_cell _ _ _ Hxc) in *. cbn [rightChild] in *.
  rewrite (rootp_real st x r (rz_nil H0) Hr) in Hreal.
  destruct r as [|c' b y w d]; [done|].
  cbn [rep] in Hr. destruct Hr as (Hyc & _ & _).
  cbn [rootp]. rewrite (node_at_cell _ _ _ Hyc). cbn [leftChild].
  destruct (rotate_left_spec H0) as [R1 SF].
  pose proof (rz_sub R1) as Hs. cbn [rep rootp] in Hs.
  destruct Hs as (Hyc' & (Hxc' & _ & _) & _).
  exists (plug C (Tn c' (Tn c a x v b) y w d)).
  assert (items (plug C (Tn c' (Tn c a x v b) y w d)) = items t) as Hit.
  { rewrite Et. apply items_plug_eq. cbn [items]. by rewrite <- !app_assoc. }
  split; [apply (Full_same_frame st t _ _ HF (RepZ_plug R1) SF Hit)|].
  split; [done|].
  rewrite (node_at_cell _ _ _ Hxc'), (node_at_cell _ _ _ Hyc').
  cbn [parent leftChild rightChild]. by rewrite (proj1 SF).
Qed.

(** X10. [rotate_right] at a node with a real left child keeps the
    in-order sequence of nodes and payloads: the left child becomes the
    parent of the node, the node becomes its right child and takes the
    child's former right subtree as left subtree. *)
Theorem rotate_right_keeps_sequence st (t : @tree T) (x : N) :
  Full st t → x ∈ nodes t → is_real st (leftChild (node_at st x)) = true →
  ∃ t', Full (rotate_right st x) t' ∧ items t' = items t
    ∧ parent (node_at (rotate_right st x) x) = leftChild (node_at st x)
    ∧ rightChild (node_at (rotate_right st x) (leftChild (node_at st x))) = x
    ∧ leftChild (node_at (rotate_right st x) x)
      = rightChild (node_at st (leftChild (node_at st x))).
Proof.
  intros HF Hx Hreal.
  destruct (nodes_focus _ _ Hx) as (C & c & l & v & r & Et).
  pose proof HF as (HR & _).
  assert (RepX st [] C (Tn c l x v r)) as H0
    by (apply Rep_unplug; rewrite <- Et; exact HR).
  pose proof (rz_sub H0) as Hs. cbn [rep] in Hs. destruct Hs as (Hxc & Hl & _).
  rewrite (node_at_cell _ _ _ Hxc) in *. cbn [leftChild] in *.
  rewrite (rootp_real st x l (rz_nil H0) Hl) in Hreal.
  destruct l as [|c' a y w b]; [done|].
  cbn [rep] in Hl. destruct Hl as (Hyc & _ & _).
  cbn [rootp]. rewrite (node_at_cell _ _ _ Hyc). cbn [rightChild].
  destruct (rotate_right_spec H0) as [R1 SF].
  pose proof (rz_sub R1) as Hs. cbn [rep rootp] in Hs.
  destruct Hs as (Hyc' & _ & (Hxc' & _ & _)).
  eexists (plug C _).
  split; [apply (Full_same_frame st t _ _ HF (RepZ_plug R1) SF)|].
  { rewrite Et. apply items_plug_eq. cbn [items]. by rewrite <- !app_assoc. }
  split.
  { rewrite Et. apply items_plug_eq. cbn [items]. by rewrite <- !app_assoc. }
  rewrite (node_at_cell _ _ _ Hxc'), (node_at_cell _ _ _ Hyc').
  cbn [parent leftChild rightChild]. by rewrite (proj1 SF).
Qed.

(** X11. [clear()] releases every node: it returns, the allocator is left
    with the sentinel alone, whose cell is as it was, [size()] is 0,
    [empty()] holds, the root is the sentinel, and [get_begin()] equals
    [get_end()].  On an already empty tree it changes nothing. *)
Theorem clear_releases_every_node st (t : @tree T) (fuel : nat) :
  Full st t → (tsize t < fuel)%nat →
  ∃ st', clear fuel st NULL = Some st'
    ∧ dom (heap st') = {[_nil st]} ∧ _nil st' = _nil st
    ∧ size st' = 0 ∧ empty st' = true ∧ _root st' = _nil st'
    ∧ get_begin fuel st' = Some (get_end st')
    ∧ heap st' !! _nil st = heap st !! _nil st
    ∧ (size st = 0 → st' = st).
Proof.
  intros HF Hf.
  destruct (clear_all st t fuel HF Hf) as (st' & Hrun & HF' & Hn & Hd & Hcell & He).
  exists st'. split; [done|]. split; [done|]. split; [done|].
  pose proof (Full_tsize _ _ HF') as Hs. cbn in Hs.
  split; [done|]. split; [unfold empty; by rewrite Hs|].
  pose proof (rz_root (proj1 HF')) as Hroot. cbn [plug rootp] in Hroot.
  split; [done|]. split.
  { rewrite (get_begin_spec st' E fuel (proj1 HF')); [done|]. cbn. lia. }
  split; [done|].
  unfold size. rewrite (Full_tsize _ _ HF). intros Hz. apply He.
  destruct t as [|c l x v r]; [done|]. rewrite tsize_Tn in Hz. lia.
Qed.

(** X12. [copy(x)] (what [operator=] runs) replaces the content of the
    tree object by the content of [x]: for a tree [x] with strictly
    increasing payloads it returns, and the result is a red-black tree with
    the same payloads in the same order and the same [size()]. *)
Theorem copy_reproduces_payloads comp st (t : @tree T) x (tx : @tree T)
    (fuel : nat) :
  (∀ a b c, comp a b = true → comp b c = true → comp a c = true) →
  (∀ a, comp a a = false) →
  Full st t → Full x tx → ordered comp tx →
  (tsize t < fuel)%nat → (2 * tsize tx + 3 ≤ fuel)%nat →
  ∃ st' t', copy comp fuel st x = Some st'
    ∧ Full st' t' ∧ rbt t'
    ∧ payloads t' = payloads tx ∧ size st' = size x.
Proof.
  intros Htr Hirr HF HFx Ho Hf Hfx.
  destruct (copy_all comp Htr Hirr st t x tx fuel HF HFx Ho Hf Hfx)
    as (st' & t' & Hrun & HF' & Hrb' & _ & Hp).
  exists st', t'. repeat (split; [done|]).
  unfold size. rewrite (Full_tsize _ _ HF'), (Full_tsize _ _ HFx).
  by rewrite <- !tsize_payloads, Hp.
Qed.

(** X13. In a tree with strictly increasing payloads [get_begin()] is the
    node of the least payload and [get_max_value_node()] the node of the
    greatest: on a tree that is not empty they return the first and the
    last node of the in-order sequence, each holds its payload, and every
    other stored payload goes after the first and before the second.  On
    an empty tree both return the sentinel. *)
Theorem begin_is_least_and_max_is_greatest comp st (t : @tree T) (fuel : nat) :
  Full st t → ordered comp t → (tsize t < fuel)%nat →
  ∃ b m, get_begin fuel st = Some b ∧ get_max_value_node fuel st = Some m
    ∧ (size st = 0 → b = get_end st ∧ m = get_end st)
    ∧ (size st ≠ 0 →
         ∃ vb vm rest front,
           items t = (b, vb) :: rest ∧ items t = front ++ [(m, vm)]
           ∧ value (node_at st b) = Some vb
           ∧ value (node_at st m) = Some vm
           ∧ (∀ y w, (y, w) ∈ items t → y ≠ b → comp vb w = true)
           ∧ (∀ y w, (y, w) ∈ items t → y ≠ m → comp w vm = true))
    ∧ (∀ vb y w, value (node_at st b) = Some vb → (y, w) ∈ items t → y ≠ b →
         comp vb w = true)
    ∧ (∀ vm y w, value (node_at st m) = Some vm → (y, w) ∈ items t → y ≠ m →
         comp w vm = true).
Proof.
  intros HF Ho Hf. pose proof HF as (HR & _).
  pose proof (rz_root HR) as Hroot. cbn [plug] in Hroot.
  exists (first_node (_nil st) (items t)), (tmax (_nil st) t).
  split; [by apply get_begin_spec|]. split.
  { unfold get_max_value_node. rewrite Hroot.
    apply (rightmost_spec st _ t fuel (rz_nil HR) (rz_sub HR) Hf). }
  assert (∀ b v rest y w, items t = (b, v) :: rest → (y, w) ∈ items t →
            y ≠ b → comp v w = true) as Hleast.
  { intros b v rest y w Hit Hin Hy. rewrite Hit in Hin.
    apply elem_of_cons in Hin as [[= -> ->]|Hin]; [done|].
    apply (first_least comp t b v rest Ho Hit _ Hin). }
  assert (∀ m v front y w, items t = front ++ [(m, v)] → (y, w) ∈ items t →
            y ≠ m → comp w v = true) as Hgreatest.
  { intros m v front y w Hit Hin Hy. rewrite Hit in Hin.
    apply elem_of_app in Hin as [Hin|Hin].
    - apply (last_greatest comp t _ v front Ho Hit _ Hin).
    - apply elem_of_cons in Hin as [[= -> ->]|Hin]; [done|].
      by apply elem_of_nil in Hin. }
  unfold size. rewrite (Full_tsize _ _ HF).
  split; [|split; [|split]].
  - intros Hz. destruct t as [|c l x v r]; [done|]. rewrite tsize_Tn in Hz. lia.
  - intros Hz. assert (t ≠ E) as Hne by (by intros ->).
    destruct (tmax_last (_nil st) t Hne) as (front & vm & Hlast).
    assert (∃ b vb rest, items t = (b, vb) :: rest) as (b & vb & rest & Hit).
    { destruct (items t) as [|[b vb] rest]; [by destruct front|eauto]. }
    assert (first_node (_nil st) (items t) = b) as -> by (by rewrite Hit).
    exists vb, vm, rest, front.
    split; [done|]. split; [done|].
    assert ((b, vb) ∈ items t) as Hb by (rewrite Hit; by left).
    assert ((tmax (_nil st) t, vm) ∈ items t) as Hm.
    { rewrite Hlast, elem_of_app, elem_of_cons. auto. }
    split; [apply (Rep_value st t b vb HR Hb)|].
    split; [apply (Rep_value st t _ vm HR Hm)|].
    split.
    + intros y w Hin Hy. apply (Hleast b vb rest y w Hit Hin Hy).
    + intros y w Hin Hy. apply (Hgreatest _ vm front y w Hlast Hin Hy).
  - intros vb y w Hvb Hin Hy.
    assert (∃ b v rest, items t = (b, v) :: rest) as (b & v & rest & Hit).
    { destruct (items t) as [|[b v] rest]; [by apply elem_of_nil in Hin|eauto]. }
    assert (first_node (_nil st) (items t) = b) as Hfb by (by rewrite Hit).
    rewrite Hfb in Hvb, Hy.
    assert ((b, v) ∈ items t) as Hb by (rewrite Hit; by left).
    destruct (Rep_value st t b v HR Hb) as [_ Hv].
    assert (vb = v) as -> by congruence.
    apply (Hleast b v rest y w Hit Hin Hy).
  - intros vm y w Hvm Hin Hy.
    assert (t ≠ E) as Hne by (intros ->; by apply elem_of_nil in Hin).
    destruct (tmax_last (_nil st) t Hne) as (k & v & Hit).
    assert ((tmax (_nil st) t, v) ∈ items t) as Hm.
    { rewrite Hit, elem_of_app, elem_of_cons. auto. }
    destruct (Rep_value st t _ v HR Hm) as [_ Hv].
    assert (vm = v) as -> by congruence.
    apply (Hgreatest _ v k y w Hit Hin Hy).
Qed.

(** X14. Every tree object that [insert] calls without a position hint
    and [erase] calls produce from the empty tree holds a red-black tree
    whose in-order payloads increase strictly. *)
Theorem built_trees_are_ordered comp st :
  (∀ a b c, comp a b = true → comp b c = true → comp a c = true) →
  Built comp st →
  ∃ t, Full st t ∧ rbt t ∧ ordered comp t.
Proof. intros Htr HB. by apply Built_sound. Qed.

(** X15. On such a tree object [find] finds every stored payload: for
    each node, [find] of its payload returns that node. *)
Theorem find_finds_every_stored_payload comp st (p : N) (v : T) :
  (∀ a b c, comp a b = true → comp b c = true → comp a c = true) →
  (∀ a, comp a a = false) →
  Built comp st → value (node_at st p) = Some v →
  find comp (budget st) st v = Some p.
Proof.
  intros Htr Hirr HB Hv.
  destruct (Built_sound comp Htr st HB) as (t & HF & _ & Ho).
  assert (is_real st p = true) as Hreal by (unfold is_real; by rewrite Hv).
  apply (Full_real st t p HF) in Hreal.
  destruct (node_item st t p HF Hreal) as (w & Hw).
  destruct (Rep_value st t p w (proj1 HF) Hw) as [_ Hw'].
  assert (w = v) as -> by congruence.
  rewrite (find_descend comp st t v (budget st) HF)
    by (rewrite (Full_budget _ _ HF); lia).
  by rewrite (descend_stored comp Htr t p v (Full_nodup _ _ HF) Ho (Hirr v) Hw).
Qed.

(** X20. Round trip: when [insert] has created a node, [erase] of that
    node gives back the former content: the same nodes with the same
    payloads in the same order, the same [size()] and the same allocated
    cells, in a red-black tree. *)
Theorem erase_after_insert_restores_sequence comp st (t : @tree T) (k : T)
    (hint : N) (fuel : nat) (st1 : RBTree T) (new : N) :
  Full st t → rbt t → hint = NULL ∨ hint ∈ dom (heap st) →
  _size st + 1 < size_max → (tsize t + 3 ≤ fuel)%nat →
  insert comp fuel st k hint = Some (st1, (new, true)) →
  ∃ st2 t2, erase fuel st1 new = Some (st2, 1)
    ∧ Full st2 t2 ∧ rbt t2 ∧ items t2 = items t
    ∧ size st2 = size st ∧ dom (heap st2) = dom (heap st).
Proof.
  intros HF Hrb Hh Hs Hf Hrun.
  destruct (insert_spec comp st t k hint fuel HF Hrb) as (st' & res & Hrun' & Hpost);
    [|done|lia|].
  { destruct Hh as [->|Hh]; [by left|right].
    by apply (Full_dom _ _ _ HF) in Hh. }
  rewrite Hrun in Hrun'. injection Hrun' as <- <-.
  destruct (insert_created_split comp _ _ _ _ _ _ Hpost eq_refl)
    as (t1 & C' & HF1 & Hrb1 & _ & Hit & Hit1 & _ & Hn1 & _ & _).
  cbn [fst] in Hit1.
  pose proof (tsize_items _ _ _ _ _ Hit Hit1) as Hsz.
  assert (new ∈ nodes t1) as Hnew.
  { rewrite nodes_items, Hit1, fmap_app, fmap_cons, elem_of_app, elem_of_cons.
    auto. }
  destruct (erase_spec fuel st1 t1 new HF1 Hrb1 Hnew ltac:(lia))
    as (st2 & t2 & k1 & v & k2 & Hrun2 & HF2 & Hrb2 & Hit1' & Hit2 & Hn2 & _).
  exists st2, t2. split; [done|]. split; [done|]. split; [done|].
  pose proof (Full_nodup _ _ HF1) as Hnd. rewrite nodes_items, Hit1 in Hnd.
  rewrite Hit1 in Hit1'.
  destruct (items_split_unique _ _ _ _ _ _ _ Hnd Hit1') as (E1 & _ & E2).
  assert (items t2 = items t) as Heq by (rewrite Hit2, Hit; congruence).
  split; [done|]. split.
  - unfold size. rewrite (Full_tsize _ _ HF2), (Full_tsize _ _ HF).
    unfold tsize. by rewrite Heq.
  - destruct HF2 as (_ & -> & _). destruct HF as (_ & -> & _).
    by rewrite Hn2, Hn1, !nodes_items, Heq.
Qed.

(** X21. With a strict weak ordering, [erase] of a node does not disturb
    the lookup of the other keys: for a payload [k] that is not equivalent
    to the erased one, [find(k)] returns after [erase] what it returned
    before. *)
Theorem find_unchanged_by_erase comp st (t : @tree T) (x : N) (v k : T)
    (fuel : nat) :
  (∀ a b c, comp a b = true → comp b c = true → comp a c = true) →
  (∀ a b c, same_key comp a b → same_key comp b c → same_key comp a c) →
  Full st t → rbt t → ordered comp t → (x, v) ∈ items t →
  ¬ same_key comp k v → (tsize t + 2 ≤ fuel)%nat →
  ∃ st', erase fuel st x = Some (st', 1)
    ∧ find comp fuel st' k = find comp fuel st k.
Proof.
  intros Htr Heq HF Hrb Ho Hin Hk Hf.
  assert (x ∈ nodes t) as Hx.
  { rewrite nodes_items. apply list_elem_of_fmap. by exists (x, v). }
  destruct (erase_spec fuel st t x HF Hrb Hx Hf)
    as (st' & t' & k1 & v' & k2 & Hrun & HF' & Hrb' & Hit & Hit' & Hn & _).
  exists st'. split; [done|].
  assert (v' = v) as ->.
  { assert ((x, v') ∈ items t) as Hin'
      by (rewrite Hit, elem_of_app, elem_of_cons; auto).
    destruct (Rep_value st t x v (proj1 HF) Hin) as [_ H1].
    destruct (Rep_value st t x v' (proj1 HF) Hin') as [_ H2]. congruence. }
  assert (tsize t = S (tsize t')) as Hsz
    by apply (tsize_items _ _ _ _ _ Hit' Hit).
  rewrite (find_descend comp st' t' k fuel HF') by lia.
  rewrite (find_descend comp st t k fuel HF) by lia.
  rewrite Hn. f_equal.
  apply (descent_end_agree comp Htr t t' k (_nil st) Heq (Full_nodup _ _ HF') Ho).
  { by apply (ordered_remove comp t t' k1 (x, v) k2). }
  intros e He. rewrite Hit, Hit', !elem_of_app, elem_of_cons.
  split; [|tauto]. intros [?|[->|?]]; [tauto| |tauto]. by destruct Hk.
Qed.

(** X22. With a strict weak ordering, [insert(v)] without a hint does not
    disturb the lookup of the other keys: for a payload [k] that is not
    equivalent to [v], [find(k)] returns after [insert] what it returned
    before. *)
Theorem find_unchanged_by_insert comp st (t : @tree T) (v k : T)
    (fuel : nat) :
  (∀ a b c, comp a b = true → comp b c = true → comp a c = true) →
  (∀ a b c, same_key comp a b → same_key comp b c → same_key comp a c) →
  Full st t → rbt t → ordered comp t →
  ¬ same_key comp k v →
  _size st + 1 < size_max → (tsize t + 2 ≤ fuel)%nat →
  ∃ st' res, insert comp fuel st v NULL = Some (st', res)
    ∧ find comp fuel st' k = find comp fuel st k.
Proof.
  intros Htr Heq HF Hrb Ho Hk Hs Hf.
  destruct (insert_plain comp Htr st t v NULL fuel HF Hrb Ho) as
    (st' & res & Hrun & Hcase); [by left|done|done|].
  exists st', res. split; [done|].
  destruct Hcase as [(Hr & _ & t' & k1 & k2 & HF' & Hrb' & Ho' & Hit & Hit' & Hn)
                    |(Hr & -> & _)]; [|done].
  pose proof (tsize_items _ _ _ _ _ Hit Hit') as Hsz.
  rewrite (find_descend comp st' t' k fuel HF') by lia.
  rewrite (find_descend comp st t k fuel HF) by lia.
  rewrite Hn. f_equal.
  apply (descent_end_agree comp Htr t t' k (_nil st) Heq (Full_nodup _ _ HF') Ho Ho').
  intros e He. rewrite Hit, Hit', !elem_of_app, elem_of_cons.
  split; [tauto|]. intros [?|[->|?]]; [tauto| |tauto]. by destruct Hk.
Qed.

End More.

(** ** The map *)

Lemma ordered_mr3 : ordered (value_compare Z.ltb) Scenario.mr3.
Proof. unfold ordered. cbn. repeat constructor. Qed.
Lemma Full_m3 : Full Scenario.m3 Scenario.mr3.
Proof. full_compute. Qed.
Lemma rbt_mr3 : rbt Scenario.mr3.
Proof. rbt_compute. Qed.

Section MapMore.
Context {Key M : Type}.
Implicit Types st : RBTree (Key * M).
Implicit Types key_comp : Key -> Key -> bool.

Lemma value_compare_trans key_comp :
  (∀ a b c, key_comp a b = true → key_comp b c = true → key_comp a c = true) →
  ∀ a b c : Key * M, value_compare key_comp a b = true →
    value_compare key_comp b c = true → value_compare key_comp a c = true.
Proof. intros Htr a b c. unfold value_compare. apply Htr. Qed.

(** X16. [count(k)] on a map whose tree has strictly increasing keys is 1
    when some entry has a key equivalent to [k] and 0 when none has. *)
Theorem map_count_tells_membership key_comp (dflt : M) st
    (t : @tree (Key * M)) (k : Key) (fuel : nat) :
  (∀ a b c, key_comp a b = true → key_comp b c = true → key_comp a c = true) →
  Full st t → ordered (value_compare key_comp) t → (tsize t < fuel)%nat →
  (map_count key_comp dflt fuel st k = Some 1
   ∧ ∃ x e, (x, e) ∈ items t
       ∧ key_comp k e.1 = false ∧ key_comp e.1 k = false)
  ∨ (map_count key_comp dflt fuel st k = Some 0
     ∧ ∀ x e, (x, e) ∈ items t →
         key_comp k e.1 = true ∨ key_comp e.1 k = true).
Proof.
  intros Htr HF Ho Hf. unfold map_count.
  destruct (find_ordered (value_compare key_comp)
              (value_compare_trans key_comp Htr) st t (k, dflt) fuel HF Ho Hf)
    as (p & -> & [[-> Habs]|(e & Hin & E1 & E2)]); cbn [mbind option_bind].
  - right. destruct (rz_nil (proj1 HF)) as [np Hn].
    rewrite (is_real_nil _ _ Hn). split; [done|].
    intros x e Hin.
    destruct (key_comp k e.1) eqn:E1; [by left|].
    destruct (key_comp e.1 k) eqn:E2; [by right|].
    by destruct (Habs (x, e) Hin).
  - left. destruct (Rep_value st t p e (proj1 HF) Hin) as [_ Hv].
    unfold is_real. rewrite Hv. split; [done|]. by exists p, e.
Qed.

(** X17. [erase(k)] on a map whose tree is a red-black tree with strictly
    increasing keys: when an entry has a key equivalent to [k], that entry
    is removed, the other entries stay in order and 1 is returned; when
    none has, 0 is returned and the map is unchanged. *)
Theorem map_erase_key_removes_entry key_comp (dflt : M) st
    (t : @tree (Key * M)) (k : Key) (fuel : nat) :
  (∀ a b c, key_comp a b = true → key_comp b c = true → key_comp a c = true) →
  Full st t → rbt t → ordered (value_compare key_comp) t →
  (tsize t + 2 ≤ fuel)%nat →
  ∃ st' n, map_erase_key key_comp dflt fuel st k = Some (st', n)
    ∧ ((n = 1
        ∧ ∃ t' k1 x e k2, Full st' t' ∧ rbt t'
            ∧ ordered (value_compare key_comp) t'
            ∧ items t = k1 ++ (x, e) :: k2 ∧ items t' = k1 ++ k2
            ∧ key_comp k e.1 = false ∧ key_comp e.1 k = false)
       ∨ (n = 0 ∧ st' = st
          ∧ ∀ x e, (x, e) ∈ items t →
              key_comp k e.1 = true ∨ key_comp e.1 k = true)).
Proof.
  intros Htr HF Hrb Ho Hf. unfold map_erase_key.
  destruct (find_ordered (value_compare key_comp)
              (value_compare_trans key_comp Htr) st t (k, dflt) fuel HF Ho)
    as (p & -> & [[-> Habs]|(e & Hin & E1 & E2)]); [lia| |];
    cbn [mbind option_bind].
  - exists st, 0. split; [apply (erase_nil fuel st t (proj1 HF))|].
    right. split; [done|]. split; [done|].
    intros x e Hin.
    destruct (key_comp k e.1) eqn:E1; [by left|].
    destruct (key_comp e.1 k) eqn:E2; [by right|].
    by destruct (Habs (x, e) Hin).
  - assert (p ∈ nodes t) as Hp.
    { rewrite nodes_items. apply list_elem_of_fmap. by exists (p, e). }
    destruct (erase_spec fuel st t p HF Hrb Hp Hf)
      as (st' & t' & k1 & e' & k2 & Hrun & HF' & Hrb' & Hit & Hit' & _).
    exists st', 1. split; [done|]. left. split; [done|].
    assert (e' = e) as ->.
    { assert ((p, e') ∈ items t) as Hin'
        by (rewrite Hit, elem_of_app, elem_of_cons; auto).
      destruct (Rep_value st t p e (proj1 HF) Hin) as [_ H1].
      destruct (Rep_value st t p e' (proj1 HF) Hin') as [_ H2]. congruence. }
    exists t', k1, p, e, k2. repeat (split; [done|]).
    split; [|done].
    by apply (ordered_remove (value_compare key_comp) t t' k1 (p, e) k2).
Qed.

(** X18. [operator[](k)] on a map whose tree is a red-black tree with
    strictly increasing keys: when an entry has a key equivalent to [k],
    the map is unchanged and the mapped value of that entry is designated;
    when none has, an entry with the key [k] and the value [mapped_type()]
    is added at its place in the order and that value is designated. *)
Theorem map_subscript_reads_or_adds_default key_comp (dflt : M) st
    (t : @tree (Key * M)) (k : Key) (fuel : nat) :
  (∀ a b c, key_comp a b = true → key_comp b c = true → key_comp a c = true) →
  Full st t → rbt t → ordered (value_compare key_comp) t →
  _size st + 1 < size_max → (tsize t + 2 ≤ fuel)%nat →
  ∃ st' m, map_subscript key_comp dflt fuel st k = Some (st', m)
    ∧ ((st' = st
        ∧ ∃ x k', (x, (k', m)) ∈ items t
            ∧ key_comp k k' = false ∧ key_comp k' k = false)
       ∨ (m = dflt
          ∧ (∀ x e, (x, e) ∈ items t →
               key_comp k e.1 = true ∨ key_comp e.1 k = true)
          ∧ ∃ t' k1 x k2, Full st' t' ∧ rbt t'
              ∧ ordered (value_compare key_comp) t'
              ∧ items t = k1 ++ k2
              ∧ items t' = k1 ++ (x, (k, dflt)) :: k2)).
Proof.
  intros Htr HF Hrb Ho Hs Hf. unfold map_subscript.
  destruct (insert_plain (value_compare key_comp)
              (value_compare_trans key_comp Htr) st t (k, dflt) NULL fuel
              HF Hrb Ho) as (st' & res & -> & Hcase); [by left|done|done|].
  cbn [mbind option_bind].
  destruct Hcase as [(Hr & Habs & t' & k1 & k2 & HF' & Hrb' & Ho' & Hit & Hit' & _)
                    |(Hr & -> & _ & [k' m] & Hin & E1 & E2)].
  - assert ((res.1, (k, dflt)) ∈ items t') as Hin
      by (rewrite Hit', elem_of_app, elem_of_cons; auto).
    destruct (Rep_value st' t' _ _ (proj1 HF') Hin) as [_ ->].
    cbn [mbind option_bind snd].
    exists st', dflt. split; [done|]. right. split; [done|]. split.
    + intros x e Hin'.
      destruct (key_comp k e.1) eqn:E1; [by left|].
      destruct (key_comp e.1 k) eqn:E2; [by right|].
      by destruct (Habs (x, e) Hin').
    + by exists t', k1, res.1, k2.
  - destruct (Rep_value st t _ _ (proj1 HF) Hin) as [_ ->].
    cbn [mbind option_bind snd].
    exists st, m. split; [done|]. left. split; [done|]. by exists res.1, k'.
Qed.

(** X19. [insert(first, last)] on a map whose tree is a red-black tree
    with strictly increasing keys inserts the values of the range one by
    one: it returns a red-black tree with strictly increasing keys that
    keeps every former entry at its node, holds for every value of the
    range either that value or an entry with an equivalent key, and holds
    nothing else. *)
Theorem map_insert_range_adds_missing_keys key_comp (range : list (Key * M)) :
  (∀ a b c, key_comp a b = true → key_comp b c = true → key_comp a c = true) →
  ∀ st (t : @tree (Key * M)) (fuel : nat),
  Full st t → rbt t → ordered (value_compare key_comp) t →
  Z.of_nat (tsize t + length range) < size_max →
  (tsize t + length range + 2 ≤ fuel)%nat →
  ∃ st' t', map_insert_range key_comp fuel st range = Some st'
    ∧ Full st' t' ∧ rbt t' ∧ ordered (value_compare key_comp) t'
    ∧ (∀ e, e ∈ items t → e ∈ items t')
    ∧ (∀ val, val ∈ range →
         ∃ x e, (x, e) ∈ items t'
           ∧ (e = val ∨ same_key (value_compare key_comp) val e))
    ∧ (∀ e, e ∈ payloads t' → e ∈ payloads t ∨ e ∈ range).
Proof.
  intros Htr. induction range as [|val range IH]; intros st t fuel HF Hrb Ho Hs Hf.
  - exists st, t. cbn [map_insert_range].
    repeat (split; [done|]). split; [by intros val ?%elem_of_nil|auto].
  - cbn [length] in Hs, Hf. cbn [map_insert_range].
    destruct (insert_plain (value_compare key_comp)
                (value_compare_trans key_comp Htr) st t val NULL fuel
                HF Hrb Ho) as (st1 & res & -> & Hcase);
      [by left|rewrite (Full_tsize _ _ HF); lia|lia|].
    cbn [mbind option_bind].
    destruct Hcase as [(Hr & _ & t1 & k1 & k2 & HF1 & Hrb1 & Ho1 & Hit & Hit1 & _)
                      |(Hr & -> & _ & e & Hin & Hsame)].
    + pose proof (tsize_items _ _ _ _ _ Hit Hit1) as Hsz.
      destruct (IH st1 t1 fuel HF1 Hrb1 Ho1)
        as (st' & t' & Hrun & HF' & Hrb' & Ho' & Hkeep & Hall & Honly);
        [lia|lia|].
      exists st', t'. repeat (split; [done|]). split; [|split].
      * intros e He. apply Hkeep. rewrite Hit in He. rewrite Hit1.
        rewrite elem_of_app in He. rewrite elem_of_app, elem_of_cons. tauto.
      * intros v [->|Hv]%elem_of_cons; [|by apply Hall].
        exists res.1, val. split; [|by left]. apply Hkeep.
        rewrite Hit1, elem_of_app, elem_of_cons. auto.
      * intros e He. destruct (Honly e He) as [He1|He1]; [|right; by right].
        unfold payloads in He1. rewrite Hit1, fmap_app, fmap_cons in He1.
        cbn [snd] in He1.
        unfold payloads. rewrite Hit, fmap_app.
        rewrite elem_of_app, elem_of_cons in He1.
        rewrite elem_of_app, elem_of_cons. tauto.
    + destruct (IH st t fuel HF Hrb Ho)
        as (st' & t' & Hrun & HF' & Hrb' & Ho' & Hkeep & Hall & Honly);
        [lia|lia|].
      exists st', t'. repeat (split; [done|]). split.
      * intros v [->|Hv]%elem_of_cons; [|by apply Hall].
        exists res.1, e. split; [by apply Hkeep|by right].
      * intros e' He. destruct (Honly e' He); [by left|right; by right].
Qed.

End MapMore.

Section Ends.
Context {T : Type}.
Implicit Types st : RBTree T.
Implicit Types comp : T -> T -> bool.

(** X23. A hint at the last node is honoured: [insert(val, hint)] with the
    node [get_max_value_node()] returns as hint and a payload that goes
    after the payload of that node, on a red-black tree with strictly
    increasing payloads, creates a node at the end of the in-order
    sequence; the payloads stay strictly increasing, the result is a
    red-black tree and the new node is what [get_max_value_node()] returns
    afterwards. *)
Theorem insert_after_last_with_hint comp st (t : @tree T) (k vm : T)
    (hint : N) (fuel : nat) :
  (∀ a b c, comp a b = true → comp b c = true → comp a c = true) →
  (∀ a, comp a a = false) →
  Full st t → rbt t → ordered comp t →
  get_max_value_node fuel st = Some hint →
  value (node_at st hint) = Some vm → comp vm k = true →
  _size st + 1 < size_max → (tsize t + 2 ≤ fuel)%nat →
  ∃ st' new t', insert comp fuel st k hint = Some (st', (new, true))
    ∧ Full st' t' ∧ rbt t' ∧ ordered comp t'
    ∧ items t' = items t ++ [(new, k)]
    ∧ get_max_value_node fuel st' = Some new.
Proof.
  intros Htr Hirr HF Hrb Ho Hmax Hvm Hgt Hs Hf.
  pose proof HF as (HR & _).
  pose proof (rz_root HR) as Hroot. cbn [plug] in Hroot.
  unfold get_max_value_node in Hmax. rewrite Hroot in Hmax.
  rewrite (rightmost_spec st _ t fuel (rz_nil HR) (rz_sub HR)) in Hmax by lia.
  injection Hmax as <-.
  assert (tmax (_nil st) t ∈ nodes t) as Hin.
  { apply (Full_real st t _ HF). unfold is_real. by rewrite Hvm. }
  assert (t ≠ E) as Hne by (intros ->; by apply elem_of_nil in Hin).
  destruct (tmax_last (_nil st) t Hne) as (k0 & w & Hlast).
  assert (w = vm) as ->.
  { destruct (Rep_value st t (tmax (_nil st) t) w HR) as [_ Hw]; [|congruence].
    rewrite Hlast, elem_of_app, elem_of_cons. auto. }
  assert (∀ e, e ∈ items t → comp e.2 k = true) as Hall.
  { intros e He. rewrite Hlast in He.
    apply elem_of_app in He as [He|[->|He]%elem_of_cons].
    - apply (Htr _ vm); [|done]. by apply (last_greatest comp t _ vm k0 Ho Hlast).
    - done.
    - by apply elem_of_nil in He. }
  destruct (insert_hint_start comp st t k _ fuel HF Hin)
    as (Ch & sh & Et & Hsh & Hstart & ->).
  pose proof (insert_at_start comp st t k fuel Ch sh HF Hrb Et Hsh Hs Hf) as Hrun.
  destruct (descend comp k sh Ch) as [C'|x] eqn:Hd.
  2:{ exfalso. destruct (descend_inr comp _ _ _ _ Hd) as (u & Hu & E1 & E2).
      assert ((x, u) ∈ items t) as Hu'
        by (rewrite Et, items_plug, !elem_of_app; auto).
      specialize (Hall _ Hu'). cbn [snd] in Hall. congruence. }
  destruct Hrun as (st' & t' & Hrun & HF' & Hrb' & Hit & Hn).
  destruct (descend_greatest comp Htr Hirr (_nil st) t Ch sh k C'
              (Full_nodup _ _ HF) Ho Et Hsh Hstart Hall Hd) as [Hpre Hpost].
  pose proof (descend_inl comp _ _ _ _ Hd) as Hpl. rewrite <- Et in Hpl.
  exists st', (alloc (heap st)), t'. split; [done|]. split; [done|].
  split; [done|]. split; [|split].
  - apply (ordered_insert comp C' k (alloc (heap st)) t Ho Hpl); [| |done].
    + rewrite Hpre. by apply Forall_forall.
    + rewrite Hpost. constructor.
  - by rewrite Hit, Hpre, Hpost.
  - pose proof HF' as (HR' & _).
    pose proof (rz_root HR') as Hroot'. cbn [plug] in Hroot'.
    unfold get_max_value_node. rewrite Hroot'.
    rewrite (rightmost_spec st' _ t' fuel (rz_nil HR') (rz_sub HR')).
    + assert (t' ≠ E) as Hne'.
      { intros ->. rewrite Hpre, Hpost in Hit. by destruct (items t). }
      destruct (tmax_last (_nil st') t' Hne') as (k1 & u & Hlast').
      rewrite Hit, Hpre, Hpost in Hlast'.
      apply app_inj_tail in Hlast' as [_ [= <- _]]. done.
    + unfold tsize. rewrite Hit, Hpre, Hpost, length_app. cbn [length].
      unfold tsize in Hf. lia.
Qed.

(** X24. A hint at the first node is honoured: [insert(val, hint)] with
    the node [get_begin()] returns as hint and a payload that goes before
    the payload of that node, on a red-black tree with strictly increasing
    payloads, creates a node at the front of the in-order sequence; the
    payloads stay strictly increasing, the result is a red-black tree and
    the new node is what [get_begin()] returns afterwards. *)
Theorem insert_before_first_with_hint comp st (t : @tree T) (k vb : T)
    (hint : N) (fuel : nat) :
  (∀ a b c, comp a b = true → comp b c = true → comp a c = true) →
  (∀ a, comp a a = false) →
  Full st t → rbt t → ordered comp t →
  get_begin fuel st = Some hint →
  value (node_at st hint) = Some vb → comp k vb = true →
  _size st + 1 < size_max → (tsize t + 2 ≤ fuel)%nat →
  ∃ st' new t', insert comp fuel st k hint = Some (st', (new, true))
    ∧ Full st' t' ∧ rbt t' ∧ ordered comp t'
    ∧ items t' = (new, k) :: items t
    ∧ get_begin fuel st' = Some new.
Proof.
  intros Htr Hirr HF Hrb Ho Hbeg Hvb Hlt Hs Hf.
  pose proof HF as (HR & _).
  rewrite (get_begin_spec st t fuel HR) in Hbeg by lia.
  injection Hbeg as <-.
  assert (first_node (_nil st) (items t) ∈ nodes t) as Hin.
  { apply (Full_real st t _ HF). unfold is_real. by rewrite Hvb. }
  destruct (items t) as [|[b w] rest] eqn:Hfirst.
  { rewrite nodes_items, Hfirst in Hin. by apply elem_of_nil in Hin. }
  cbn [first_node] in *.
  assert (w = vb) as ->.
  { destruct (Rep_value st t b w HR) as [_ Hw]; [|congruence].
    rewrite Hfirst. by left. }
  assert (∀ e, e ∈ items t → comp k e.2 = true) as Hall.
  { intros e He. rewrite Hfirst in He.
    apply elem_of_cons in He as [->|He]; [done|].
    apply (Htr _ vb); [done|]. by apply (first_least comp t b vb rest Ho Hfirst). }
  destruct (insert_hint_start comp st t k b fuel HF Hin)
    as (Ch & sh & Et & Hsh & Hstart & ->).
  pose proof (insert_at_start comp st t k fuel Ch sh HF Hrb Et Hsh Hs Hf) as Hrun.
  destruct (descend comp k sh Ch) as [C'|x] eqn:Hd.
  2:{ exfalso. destruct (descend_inr comp _ _ _ _ Hd) as (u & Hu & E1 & E2).
      assert ((x, u) ∈ items t) as Hu'
        by (rewrite Et, items_plug, !elem_of_app; auto).
      specialize (Hall _ Hu'). cbn [snd] in Hall. congruence. }
  destruct Hrun as (st' & t' & Hrun & HF' & Hrb' & Hit & Hn).
  destruct (descend_least comp Htr Hirr (_nil st) t Ch sh k C'
              (Full_nodup _ _ HF) Ho Et Hsh) as [Hpre Hpost]; [|done|done|].
  { destruct Hstart as [?|Hst]; [by left|right].
    by rewrite tmin_first, Hfirst. }
  pose proof (descend_inl comp _ _ _ _ Hd) as Hpl. rewrite <- Et in Hpl.
  exists st', (alloc (heap st)), t'. split; [done|]. split; [done|].
  split; [done|]. split; [|split].
  - apply (ordered_insert comp C' k (alloc (heap st)) t Ho Hpl); [| |done].
    + rewrite Hpre. constructor.
    + rewrite Hpost. by apply Forall_forall.
  - by rewrite Hit, Hpre, Hpost, Hfirst.
  - rewrite (get_begin_spec st' t' fuel (proj1 HF')).
    + by rewrite Hit, Hpre.
    + unfold tsize. rewrite Hit, Hpre, Hpost. cbn [length app].
      unfold tsize in Hf. lia.
Qed.

End Ends.


Section DepthMore.
Context {T : Type}.
Implicit Types st : RBTree T.
Implicit Types comp : T -> T -> bool.

(** X25. [find] on a red-black tree needs a logarithmic number of steps
    only: with a loop budget above twice the binary logarithm of
    [size() + 1] it returns, and it returns the node where the descent for
    the payload ends, or the sentinel. *)
Theorem find_takes_logarithmic_steps comp st (t : @tree T) (k : T)
    (fuel : nat) :
  Full st t → rbt t → (2 * Nat.log2 (Z.to_nat (size st) + 1) < fuel)%nat →
  find comp fuel st k = Some (descent_end (_nil st) (descend comp k t [])).
Proof.
  intros HF Hrb Hf. pose proof HF as (HR & _ & Hsize & _).
  unfold size in Hf. rewrite Hsize, Nat2Z.id in Hf.
  pose proof (rbt_height t Hrb) as Hh.
  unfold find. destruct (Z.eqb_spec (_size st) 0) as [Hz|Hz].
  - destruct t as [|c l x v r]; [done|]. rewrite Hsize, tsize_Tn in Hz. lia.
  - pose proof (rz_root HR) as Hroot. cbn [plug] in Hroot. rewrite Hroot.
    apply (find_loop_height comp st k t _ fuel (rz_nil HR) (rz_sub HR)). lia.
Qed.

End DepthMore.


(** ** The properties on the trees of [Scenario] *)

Ltac in_compute := apply (bool_decide_unpack _); vm_compute; exact I.
Ltac built_ins st k res :=
  apply (Built_insert Z.ltb st k Scenario.fuel _ res);
  [ | vm_compute; reflexivity | vm_compute; lia | vm_compute; reflexivity ].

Lemma Built_t4 : Built Z.ltb Scenario.t4.
Proof.
  built_ins (Scenario.build [10; 5; 15]) 7 (5%N, true).
  built_ins (Scenario.build [10; 5]) 15 (4%N, true).
  built_ins (Scenario.build [10]) 5 (3%N, true).
  built_ins (@RBTree_new Z) 10 (2%N, true).
  apply Built_new.
Qed.

Lemma find_locates_equivalent_payload_witness :
  (∀ a b c, (a <? b) = true → (b <? c) = true → (a <? c) = true)
  ∧ Full Scenario.t7 Scenario.tr7 ∧ ordered Z.ltb Scenario.tr7
  ∧ (tsize Scenario.tr7 < Scenario.fuel)%nat
  ∧ ∃ p, find Z.ltb Scenario.fuel Scenario.t7 7 = Some p
      ∧ ((p = get_end Scenario.t7
          ∧ ∀ e, e ∈ items Scenario.tr7 → ¬ same_key Z.ltb 7 e.2)
         ∨ (∃ v, (p, v) ∈ items Scenario.tr7
              ∧ value (node_at Scenario.t7 p) = Some v ∧ same_key Z.ltb 7 v)).
Proof.
  assert (tsize Scenario.tr7 < Scenario.fuel)%nat as H4 by (vm_compute; lia).
  split; [exact ltb_trans|]. split; [exact Full_t7|].
  split; [exact ordered_tr7|]. split; [exact H4|].
  exact (find_locates_equivalent_payload Z.ltb Scenario.t7 Scenario.tr7 7
           Scenario.fuel ltb_trans Full_t7 ordered_tr7 H4).
Defined.

Lemma insert_without_hint_keeps_order_witness :
  (∀ a b c, (a <? b) = true → (b <? c) = true → (a <? c) = true)
  ∧ Full Scenario.t7 Scenario.tr7 ∧ rbt Scenario.tr7
  ∧ ordered Z.ltb Scenario.tr7
  ∧ (NULL = NULL ∨ NULL = get_end Scenario.t7)
  ∧ _size Scenario.t7 + 1 < size_max
  ∧ (tsize Scenario.tr7 + 2 ≤ Scenario.fuel)%nat
  ∧ ∃ st' res, insert Z.ltb Scenario.fuel Scenario.t7 8 NULL = Some (st', res)
      ∧ ((res.2 = true
          ∧ (∀ e, e ∈ items Scenario.tr7 → ¬ same_key Z.ltb 8 e.2)
          ∧ size st' = size Scenario.t7 + 1
          ∧ ∃ t' k1 k2, Full st' t' ∧ rbt t' ∧ ordered Z.ltb t'
              ∧ items Scenario.tr7 = k1 ++ k2
              ∧ items t' = k1 ++ (res.1, 8) :: k2)
         ∨ (res.2 = false ∧ st' = Scenario.t7
            ∧ ∃ v, (res.1, v) ∈ items Scenario.tr7 ∧ same_key Z.ltb 8 v)).
Proof.
  assert (NULL = NULL ∨ NULL = get_end Scenario.t7) as H5 by (left; reflexivity).
  assert (_size Scenario.t7 + 1 < size_max) as H6 by (vm_compute; reflexivity).
  assert (tsize Scenario.tr7 + 2 ≤ Scenario.fuel)%nat as H7 by (vm_compute; lia).
  split; [exact ltb_trans|]. split; [exact Full_t7|]. split; [exact rbt_tr7|].
  split; [exact ordered_tr7|]. split; [exact H5|]. split; [exact H6|].
  split; [exact H7|].
  exact (insert_without_hint_keeps_order Z.ltb Scenario.t7 Scenario.tr7 8 NULL
           Scenario.fuel ltb_trans Full_t7 rbt_tr7 ordered_tr7 H5 H6 H7).
Defined.

Lemma insert_adds_one_entry_witness :
  Full Scenario.t4 Scenario.tr4 ∧ rbt Scenario.tr4
  ∧ (5%N = NULL ∨ 5%N ∈ dom (heap Scenario.t4))
  ∧ _size Scenario.t4 + 1 < size_max
  ∧ (tsize Scenario.tr4 + 2 ≤ Scenario.fuel)%nat
  ∧ ∃ st' res, insert Z.ltb Scenario.fuel Scenario.t4 3 5 = Some (st', res)
      ∧ ((res.2 = true
          ∧ res.1 ∉ dom (heap Scenario.t4)
          ∧ size st' = size Scenario.t4 + 1
          ∧ (∀ p, p ∈ nodes Scenario.tr4 →
               value (node_at st' p) = value (node_at Scenario.t4 p))
          ∧ value (node_at st' res.1) = Some 3
          ∧ ∃ t' k1 k2, Full st' t' ∧ rbt t'
              ∧ items Scenario.tr4 = k1 ++ k2
              ∧ items t' = k1 ++ (res.1, 3) :: k2)
         ∨ (res.2 = false ∧ st' = Scenario.t4
            ∧ ∃ v, (res.1, v) ∈ items Scenario.tr4 ∧ same_key Z.ltb 3 v)).
Proof.
  assert (5%N = NULL ∨ 5%N ∈ dom (heap Scenario.t4)) as H3
    by (right; dom_compute).
  assert (_size Scenario.t4 + 1 < size_max) as H4 by (vm_compute; reflexivity).
  assert (tsize Scenario.tr4 + 2 ≤ Scenario.fuel)%nat as H5 by (vm_compute; lia).
  split; [exact Full_t4|]. split; [exact rbt_tr4|]. split; [exact H3|].
  split; [exact H4|]. split; [exact H5|].
  exact (insert_adds_one_entry Z.ltb Scenario.t4 Scenario.tr4 3 5 Scenario.fuel
           Full_t4 rbt_tr4 H3 H4 H5).
Defined.

Lemma find_after_insert_witness :
  (∀ a b c, (a <? b) = true → (b <? c) = true → (a <? c) = true)
  ∧ (8 <? 8) = false
  ∧ Full Scenario.t7 Scenario.tr7 ∧ rbt Scenario.tr7
  ∧ ordered Z.ltb Scenario.tr7
  ∧ _size Scenario.t7 + 1 < size_max
  ∧ (tsize Scenario.tr7 + 2 ≤ Scenario.fuel)%nat
  ∧ insert Z.ltb Scenario.fuel Scenario.t7 8 NULL
    = Some (Scenario.ins 8 NULL Scenario.t7, (9%N, true))
  ∧ find Z.ltb Scenario.fuel (Scenario.ins 8 NULL Scenario.t7) 8 = Some 9%N.
Proof.
  assert ((8 <? 8) = false) as H2 by reflexivity.
  assert (_size Scenario.t7 + 1 < size_max) as H6 by (vm_compute; reflexivity).
  assert (tsize Scenario.tr7 + 2 ≤ Scenario.fuel)%nat as H7 by (vm_compute; lia).
  assert (insert Z.ltb Scenario.fuel Scenario.t7 8 NULL
          = Some (Scenario.ins 8 NULL Scenario.t7, (9%N, true))) as H8
    by (vm_compute; reflexivity).
  split; [exact ltb_trans|]. split; [exact H2|]. split; [exact Full_t7|].
  split; [exact rbt_tr7|]. split; [exact ordered_tr7|]. split; [exact H6|].
  split; [exact H7|]. split; [exact H8|].
  exact (find_after_insert Z.ltb Scenario.t7 Scenario.tr7 8 Scenario.fuel
           (Scenario.ins 8 NULL Scenario.t7) (9%N, true)
           ltb_trans H2 Full_t7 rbt_tr7 ordered_tr7 H6 H7 H8).
Defined.

Lemma find_after_erase_witness :
  (∀ a b c, (a <? b) = true → (b <? c) = true → (a <? c) = true)
  ∧ Full Scenario.t7 Scenario.tr7 ∧ rbt Scenario.tr7
  ∧ ordered Z.ltb Scenario.tr7
  ∧ (2%N, 10) ∈ items Scenario.tr7
  ∧ (tsize Scenario.tr7 + 2 ≤ Scenario.fuel)%nat
  ∧ ∃ st', erase Scenario.fuel Scenario.t7 2 = Some (st', 1)
      ∧ find Z.ltb Scenario.fuel st' 10 = Some (get_end st').
Proof.
  assert ((2%N, 10) ∈ items Scenario.tr7) as H5 by in_compute.
  assert (tsize Scenario.tr7 + 2 ≤ Scenario.fuel)%nat as H6 by (vm_compute; lia).
  split; [exact ltb_trans|]. split; [exact Full_t7|]. split; [exact rbt_tr7|].
  split; [exact ordered_tr7|]. split; [exact H5|]. split; [exact H6|].
  exact (find_after_erase Z.ltb Scenario.t7 Scenario.tr7 2 10 Scenario.fuel
           ltb_trans Full_t7 rbt_tr7 ordered_tr7 H5 H6).
Defined.

Lemma erase_removes_one_entry_witness :
  Full Scenario.t7 Scenario.tr7 ∧ rbt Scenario.tr7
  ∧ 2%N ∈ nodes Scenario.tr7
  ∧ (tsize Scenario.tr7 + 2 ≤ Scenario.fuel)%nat
  ∧ ∃ st' t' k1 v k2, erase Scenario.fuel Scenario.t7 2 = Some (st', 1)
      ∧ Full st' t' ∧ rbt t'
      ∧ items Scenario.tr7 = k1 ++ (2%N, v) :: k2 ∧ items t' = k1 ++ k2
      ∧ (ordered Z.ltb Scenario.tr7 → ordered Z.ltb t').
Proof.
  assert (2%N ∈ nodes Scenario.tr7) as H3 by in_compute.
  assert (tsize Scenario.tr7 + 2 ≤ Scenario.fuel)%nat as H4 by (vm_compute; lia).
  split; [exact Full_t7|]. split; [exact rbt_tr7|]. split; [exact H3|].
  split; [exact H4|].
  exact (erase_removes_one_entry Z.ltb Scenario.t7 Scenario.tr7 2 Scenario.fuel
           Full_t7 rbt_tr7 H3 H4).
Defined.


Lemma allocator_holds_size_nodes_witness :
  Reach Z.ltb Scenario.t4
  ∧ Z.of_nat (base.size (dom (heap Scenario.t4))) = size Scenario.t4 + 1
  ∧ (empty Scenario.t4 = true ↔ _root Scenario.t4 = _nil Scenario.t4).
Proof.
  split; [exact Reach_t4|].
  exact (allocator_holds_size_nodes Z.ltb Scenario.t4 Reach_t4).
Defined.

Lemma rotate_left_keeps_sequence_witness :
  Full Scenario.t7 Scenario.tr7 ∧ 2%N ∈ nodes Scenario.tr7
  ∧ is_real Scenario.t7 (rightChild (node_at Scenario.t7 2)) = true
  ∧ ∃ t', Full (rotate_left Scenario.t7 2) t' ∧ items t' = items Scenario.tr7
      ∧ parent (node_at (rotate_left Scenario.t7 2) 2)
        = rightChild (node_at Scenario.t7 2)
      ∧ leftChild (node_at (rotate_left Scenario.t7 2)
                     (rightChild (node_at Scenario.t7 2))) = 2%N
      ∧ rightChild (node_at (rotate_left Scenario.t7 2) 2)
        = leftChild (node_at Scenario.t7 (rightChild (node_at Scenario.t7 2))).
Proof.
  assert (2%N ∈ nodes Scenario.tr7) as H2 by in_compute.
  assert (is_real Scenario.t7 (rightChild (node_at Scenario.t7 2)) = true) as H3
    by (vm_compute; reflexivity).
  split; [exact Full_t7|]. split; [exact H2|]. split; [exact H3|].
  exact (rotate_left_keeps_sequence Scenario.t7 Scenario.tr7 2 Full_t7 H2 H3).
Defined.

Lemma rotate_right_keeps_sequence_witness :
  Full Scenario.t7 Scenario.tr7 ∧ 2%N ∈ nodes Scenario.tr7
  ∧ is_real Scenario.t7 (leftChild (node_at Scenario.t7 2)) = true
  ∧ ∃ t', Full (rotate_right Scenario.t7 2) t' ∧ items t' = items Scenario.tr7
      ∧ parent (node_at (rotate_right Scenario.t7 2) 2)
        = leftChild (node_at Scenario.t7 2)
      ∧ rightChild (node_at (rotate_right Scenario.t7 2)
                      (leftChild (node_at Scenario.t7 2))) = 2%N
      ∧ leftChild (node_at (rotate_right Scenario.t7 2) 2)
        = rightChild (node_at Scenario.t7 (leftChild (node_at Scenario.t7 2))).
Proof.
  assert (2%N ∈ nodes Scenario.tr7) as H2 by in_compute.
  assert (is_real Scenario.t7 (leftChild (node_at Scenario.t7 2)) = true) as H3
    by (vm_compute; reflexivity).
  split; [exact Full_t7|]. split; [exact H2|]. split; [exact H3|].
  exact (rotate_right_keeps_sequence Scenario.t7 Scenario.tr7 2 Full_t7 H2 H3).
Defined.

Lemma clear_releases_every_node_witness :
  Full Scenario.t7 Scenario.tr7 ∧ (tsize Scenario.tr7 < Scenario.fuel)%nat
  ∧ ∃ st', clear Scenario.fuel Scenario.t7 NULL = Some st'
      ∧ dom (heap st') = {[_nil Scenario.t7]} ∧ _nil st' = _nil Scenario.t7
      ∧ size st' = 0 ∧ empty st' = true ∧ _root st' = _nil st'
      ∧ get_begin Scenario.fuel st' = Some (get_end st')
      ∧ heap st' !! _nil Scenario.t7 = heap Scenario.t7 !! _nil Scenario.t7
      ∧ (size Scenario.t7 = 0 → st' = Scenario.t7).
Proof.
  assert (tsize Scenario.tr7 < Scenario.fuel)%nat as H2 by (vm_compute; lia).
  split; [exact Full_t7|]. split; [exact H2|].
  exact (clear_releases_every_node Scenario.t7 Scenario.tr7 Scenario.fuel
           Full_t7 H2).
Defined.

Lemma copy_reproduces_payloads_witness :
  (∀ a b c, (a <? b) = true → (b <? c) = true → (a <? c) = true)
  ∧ (∀ a, (a <? a) = false)
  ∧ Full Scenario.t4 Scenario.tr4 ∧ Full Scenario.t7 Scenario.tr7
  ∧ ordered Z.ltb Scenario.tr7
  ∧ (tsize Scenario.tr4 < Scenario.fuel)%nat
  ∧ (2 * tsize Scenario.tr7 + 3 ≤ Scenario.fuel)%nat
  ∧ ∃ st' t', copy Z.ltb Scenario.fuel Scenario.t4 Scenario.t7 = Some st'
      ∧ Full st' t' ∧ rbt t'
      ∧ payloads t' = payloads Scenario.tr7 ∧ size st' = size Scenario.t7.
Proof.
  assert (tsize Scenario.tr4 < Scenario.fuel)%nat as H6 by (vm_compute; lia).
  assert (2 * tsize Scenario.tr7 + 3 ≤ Scenario.fuel)%nat as H7
    by (vm_compute; lia).
  split; [exact ltb_trans|]. split; [exact ltb_irrefl|]. split; [exact Full_t4|].
  split; [exact Full_t7|]. split; [exact ordered_tr7|]. split; [exact H6|].
  split; [exact H7|].
  exact (copy_reproduces_payloads Z.ltb Scenario.t4 Scenario.tr4 Scenario.t7
           Scenario.tr7 Scenario.fuel ltb_trans ltb_irrefl Full_t4 Full_t7
           ordered_tr7 H6 H7).
Defined.

Lemma begin_is_least_and_max_is_greatest_witness :
  Full Scenario.t7 Scenario.tr7 ∧ ordered Z.ltb Scenario.tr7
  ∧ (tsize Scenario.tr7 < Scenario.fuel)%nat
  ∧ ∃ b m, get_begin Scenario.fuel Scenario.t7 = Some b
      ∧ get_max_value_node Scenario.fuel Scenario.t7 = Some m
      ∧ (size Scenario.t7 = 0
         → b = get_end Scenario.t7 ∧ m = get_end Scenario.t7)
      ∧ (size Scenario.t7 ≠ 0 →
           ∃ vb vm rest front,
             items Scenario.tr7 = (b, vb) :: rest
             ∧ items Scenario.tr7 = front ++ [(m, vm)]
             ∧ value (node_at Scenario.t7 b) = Some vb
             ∧ value (node_at Scenario.t7 m) = Some vm
             ∧ (∀ y w, (y, w) ∈ items Scenario.tr7 → y ≠ b → (vb <? w) = true)
             ∧ (∀ y w, (y, w) ∈ items Scenario.tr7 → y ≠ m → (w <? vm) = true))
      ∧ (∀ vb y w, value (node_at Scenario.t7 b) = Some vb →
           (y, w) ∈ items Scenario.tr7 → y ≠ b → (vb <? w) = true)
      ∧ (∀ vm y w, value (node_at Scenario.t7 m) = Some vm →
           (y, w) ∈ items Scenario.tr7 → y ≠ m → (w <? vm) = true).
Proof.
  assert (tsize Scenario.tr7 < Scenario.fuel)%nat as H3 by (vm_compute; lia).
  split; [exact Full_t7|]. split; [exact ordered_tr7|]. split; [exact H3|].
  exact (begin_is_least_and_max_is_greatest Z.ltb Scenario.t7 Scenario.tr7
           Scenario.fuel Full_t7 ordered_tr7 H3).
Defined.

Lemma built_trees_are_ordered_witness :
  (∀ a b c, (a <? b) = true → (b <? c) = true → (a <? c) = true)
  ∧ Built Z.ltb Scenario.t4
  ∧ ∃ t, Full Scenario.t4 t ∧ rbt t ∧ ordered Z.ltb t.
Proof.
  split; [exact ltb_trans|]. split; [exact Built_t4|].
  exact (built_trees_are_ordered Z.ltb Scenario.t4 ltb_trans Built_t4).
Defined.

Lemma find_finds_every_stored_payload_witness :
  (∀ a b c, (a <? b) = true → (b <? c) = true → (a <? c) = true)
  ∧ (∀ a, (a <? a) = false)
  ∧ Built Z.ltb Scenario.t4
  ∧ value (node_at Scenario.t4 5) = Some 7
  ∧ find Z.ltb (budget Scenario.t4) Scenario.t4 7 = Some 5%N.
Proof.
  assert (value (node_at Scenario.t4 5) = Some 7) as H4
    by (vm_compute; reflexivity).
  split; [exact ltb_trans|]. split; [exact ltb_irrefl|].
  split; [exact Built_t4|]. split; [exact H4|].
  exact (find_finds_every_stored_payload Z.ltb Scenario.t4 5 7 ltb_trans
           ltb_irrefl Built_t4 H4).
Defined.

Lemma map_count_tells_membership_witness :
  (∀ a b c, (a <? b) = true → (b <? c) = true → (a <? c) = true)
  ∧ Full Scenario.m3 Scenario.mr3
  ∧ ordered (value_compare Z.ltb) Scenario.mr3
  ∧ (tsize Scenario.mr3 < Scenario.fuel)%nat
  ∧ ((map_count Z.ltb 0 Scenario.fuel Scenario.m3 2 = Some 1
      ∧ ∃ x e, (x, e) ∈ items Scenario.mr3
          ∧ (2 <? e.1) = false ∧ (e.1 <? 2) = false)
     ∨ (map_count Z.ltb 0 Scenario.fuel Scenario.m3 2 = Some 0
        ∧ ∀ x e, (x, e) ∈ items Scenario.mr3 →
            (2 <? e.1) = true ∨ (e.1 <? 2) = true)).
Proof.
  assert (tsize Scenario.mr3 < Scenario.fuel)%nat as H4 by (vm_compute; lia).
  split; [exact ltb_trans|]. split; [exact Full_m3|].
  split; [exact ordered_mr3|]. split; [exact H4|].
  exact (map_count_tells_membership Z.ltb 0 Scenario.m3 Scenario.mr3 2
           Scenario.fuel ltb_trans Full_m3 ordered_mr3 H4).
Defined.

Lemma map_erase_key_removes_entry_witness :
  (∀ a b c, (a <? b) = true → (b <? c) = true → (a <? c) = true)
  ∧ Full Scenario.m3 Scenario.mr3 ∧ rbt Scenario.mr3
  ∧ ordered (value_compare Z.ltb) Scenario.mr3
  ∧ (tsize Scenario.mr3 + 2 ≤ Scenario.fuel)%nat
  ∧ ∃ st' n, map_erase_key Z.ltb 0 Scenario.fuel Scenario.m3 2 = Some (st', n)
      ∧ ((n = 1
          ∧ ∃ t' k1 x e k2, Full st' t' ∧ rbt t'
              ∧ ordered (value_compare Z.ltb) t'
              ∧ items Scenario.mr3 = k1 ++ (x, e) :: k2 ∧ items t' = k1 ++ k2
              ∧ (2 <? e.1) = false ∧ (e.1 <? 2) = false)
         ∨ (n = 0 ∧ st' = Scenario.m3
            ∧ ∀ x e, (x, e) ∈ items Scenario.mr3 →
                (2 <? e.1) = true ∨ (e.1 <? 2) = true)).
Proof.
  assert (tsize Scenario.mr3 + 2 ≤ Scenario.fuel)%nat as H5 by (vm_compute; lia).
  split; [exact ltb_trans|]. split; [exact Full_m3|]. split; [exact rbt_mr3|].
  split; [exact ordered_mr3|]. split; [exact H5|].
  exact (map_erase_key_removes_entry Z.ltb 0 Scenario.m3 Scenario.mr3 2
           Scenario.fuel ltb_trans Full_m3 rbt_mr3 ordered_mr3 H5).
Defined.

Lemma map_subscript_reads_or_adds_default_witness :
  (∀ a b c, (a <? b) = true → (b <? c) = true → (a <? c) = true)
  ∧ Full Scenario.m3 Scenario.mr3 ∧ rbt Scenario.mr3
  ∧ ordered (value_compare Z.ltb) Scenario.mr3
  ∧ _size Scenario.m3 + 1 < size_max
  ∧ (tsize Scenario.mr3 + 2 ≤ Scenario.fuel)%nat
  ∧ ∃ st' m, map_subscript Z.ltb 0 Scenario.fuel Scenario.m3 5 = Some (st', m)
      ∧ ((st' = Scenario.m3
          ∧ ∃ x k', (x, (k', m)) ∈ items Scenario.mr3
              ∧ (5 <? k') = false ∧ (k' <? 5) = false)
         ∨ (m = 0
            ∧ (∀ x e, (x, e) ∈ items Scenario.mr3 →
                 (5 <? e.1) = true ∨ (e.1 <? 5) = true)
            ∧ ∃ t' k1 x k2, Full st' t' ∧ rbt t'
                ∧ ordered (value_compare Z.ltb) t'
                ∧ items Scenario.mr3 = k1 ++ k2
                ∧ items t' = k1 ++ (x, (5, 0)) :: k2)).
Proof.
  assert (_size Scenario.m3 + 1 < size_max) as H5 by (vm_compute; reflexivity).
  assert (tsize Scenario.mr3 + 2 ≤ Scenario.fuel)%nat as H6 by (vm_compute; lia).
  split; [exact ltb_trans|]. split; [exact Full_m3|]. split; [exact rbt_mr3|].
  split; [exact ordered_mr3|]. split; [exact H5|]. split; [exact H6|].
  exact (map_subscript_reads_or_adds_default Z.ltb 0 Scenario.m3 Scenario.mr3 5
           Scenario.fuel ltb_trans Full_m3 rbt_mr3 ordered_mr3 H5 H6).
Defined.

Lemma map_insert_range_adds_missing_keys_witness :
  (∀ a b c, (a <? b) = true → (b <? c) = true → (a <? c) = true)
  ∧ Full Scenario.m3 Scenario.mr3 ∧ rbt Scenario.mr3
  ∧ ordered (value_compare Z.ltb) Scenario.mr3
  ∧ Z.of_nat (tsize Scenario.mr3 + length [(2, 99); (4, 40)]) < size_max
  ∧ (tsize Scenario.mr3 + length [(2, 99); (4, 40)] + 2 ≤ Scenario.fuel)%nat
  ∧ ∃ st' t',
      map_insert_range Z.ltb Scenario.fuel Scenario.m3 [(2, 99); (4, 40)]
      = Some st'
      ∧ Full st' t' ∧ rbt t' ∧ ordered (value_compare Z.ltb) t'
      ∧ (∀ e, e ∈ items Scenario.mr3 → e ∈ items t')
      ∧ (∀ val, val ∈ [(2, 99); (4, 40)] →
           ∃ x e, (x, e) ∈ items t'
             ∧ (e = val ∨ same_key (value_compare Z.ltb) val e))
      ∧ (∀ e, e ∈ payloads t' →
           e ∈ payloads Scenario.mr3 ∨ e ∈ [(2, 99); (4, 40)]).
Proof.
  assert (Z.of_nat (tsize Scenario.mr3 + length [(2, 99); (4, 40)]) < size_max)
    as H5 by (vm_compute; reflexivity).
  assert (tsize Scenario.mr3 + length [(2, 99); (4, 40)] + 2
          ≤ Scenario.fuel)%nat as H6 by (vm_compute; lia).
  split; [exact ltb_trans|]. split; [exact Full_m3|]. split; [exact rbt_mr3|].
  split; [exact ordered_mr3|]. split; [exact H5|]. split; [exact H6|].
  exact (map_insert_range_adds_missing_keys Z.ltb [(2, 99); (4, 40)] ltb_trans
           Scenario.m3 Scenario.mr3 Scenario.fuel Full_m3 rbt_mr3 ordered_mr3
           H5 H6).
Defined.

Lemma erase_after_insert_restores_sequence_witness :
  Full Scenario.t4 Scenario.tr4 ∧ rbt Scenario.tr4
  ∧ (5%N = NULL ∨ 5%N ∈ dom (heap Scenario.t4))
  ∧ _size Scenario.t4 + 1 < size_max
  ∧ (tsize Scenario.tr4 + 3 ≤ Scenario.fuel)%nat
  ∧ insert Z.ltb Scenario.fuel Scenario.t4 3 5
    = Some (Scenario.ins 3 5 Scenario.t4, (6%N, true))
  ∧ ∃ st2 t2, erase Scenario.fuel (Scenario.ins 3 5 Scenario.t4) 6 = Some (st2, 1)
      ∧ Full st2 t2 ∧ rbt t2 ∧ items t2 = items Scenario.tr4
      ∧ size st2 = size Scenario.t4
      ∧ dom (heap st2) = dom (heap Scenario.t4).
Proof.
  assert (5%N = NULL ∨ 5%N ∈ dom (heap Scenario.t4)) as H3
    by (right; dom_compute).
  assert (_size Scenario.t4 + 1 < size_max) as H4 by (vm_compute; reflexivity).
  assert (tsize Scenario.tr4 + 3 ≤ Scenario.fuel)%nat as H5 by (vm_compute; lia).
  assert (insert Z.ltb Scenario.fuel Scenario.t4 3 5
          = Some (Scenario.ins 3 5 Scenario.t4, (6%N, true))) as H6
    by (vm_compute; reflexivity).
  split; [exact Full_t4|]. split; [exact rbt_tr4|]. split; [exact H3|].
  split; [exact H4|]. split; [exact H5|]. split; [exact H6|].
  exact (erase_after_insert_restores_sequence Z.ltb Scenario.t4 Scenario.tr4 3 5
           Scenario.fuel (Scenario.ins 3 5 Scenario.t4) 6 Full_t4 rbt_tr4
           H3 H4 H5 H6).
Defined.

Lemma find_unchanged_by_erase_witness :
  (∀ a b c, (a <? b) = true → (b <? c) = true → (a <? c) = true)
  ∧ (∀ a b c, same_key Z.ltb a b → same_key Z.ltb b c → same_key Z.ltb a c)
  ∧ Full Scenario.t7 Scenario.tr7 ∧ rbt Scenario.tr7
  ∧ ordered Z.ltb Scenario.tr7
  ∧ (2%N, 10) ∈ items Scenario.tr7
  ∧ ¬ same_key Z.ltb 12 10
  ∧ (tsize Scenario.tr7 + 2 ≤ Scenario.fuel)%nat
  ∧ ∃ st', erase Scenario.fuel Scenario.t7 2 = Some (st', 1)
      ∧ find Z.ltb Scenario.fuel st' 12
        = find Z.ltb Scenario.fuel Scenario.t7 12.
Proof.
  assert ((2%N, 10) ∈ items Scenario.tr7) as H6 by in_compute.
  assert (¬ same_key Z.ltb 12 10) as H7 by (unfold same_key; lia).
  assert (tsize Scenario.tr7 + 2 ≤ Scenario.fuel)%nat as H8 by (vm_compute; lia).
  split; [exact ltb_trans|]. split; [exact ltb_same_key_trans|].
  split; [exact Full_t7|]. split; [exact rbt_tr7|]. split; [exact ordered_tr7|].
  split; [exact H6|]. split; [exact H7|]. split; [exact H8|].
  exact (find_unchanged_by_erase Z.ltb Scenario.t7 Scenario.tr7 2 10 12
           Scenario.fuel ltb_trans ltb_same_key_trans Full_t7 rbt_tr7
           ordered_tr7 H6 H7 H8).
Defined.

Lemma find_unchanged_by_insert_witness :
  (∀ a b c, (a <? b) = true → (b <? c) = true → (a <? c) = true)
  ∧ (∀ a b c, same_key Z.ltb a b → same_key Z.ltb b c → same_key Z.ltb a c)
  ∧ Full Scenario.t7 Scenario.tr7 ∧ rbt Scenario.tr7
  ∧ ordered Z.ltb Scenario.tr7
  ∧ ¬ same_key Z.ltb 12 8
  ∧ _size Scenario.t7 + 1 < size_max
  ∧ (tsize Scenario.tr7 + 2 ≤ Scenario.fuel)%nat
  ∧ ∃ st' res, insert Z.ltb Scenario.fuel Scenario.t7 8 NULL = Some (st', res)
      ∧ find Z.ltb Scenario.fuel st' 12
        = find Z.ltb Scenario.fuel Scenario.t7 12.
Proof.
  assert (¬ same_key Z.ltb 12 8) as H6 by (unfold same_key; lia).
  assert (_size Scenario.t7 + 1 < size_max) as H7 by (vm_compute; reflexivity).
  assert (tsize Scenario.tr7 + 2 ≤ Scenario.fuel)%nat as H8 by (vm_compute; lia).
  split; [exact ltb_trans|]. split; [exact ltb_same_key_trans|].
  split; [exact Full_t7|]. split; [exact rbt_tr7|]. split; [exact ordered_tr7|].
  split; [exact H6|]. split; [exact H7|]. split; [exact H8|].
  exact (find_unchanged_by_insert Z.ltb Scenario.t7 Scenario.tr7 8 12
           Scenario.fuel ltb_trans ltb_same_key_trans Full_t7 rbt_tr7
           ordered_tr7 H6 H7 H8).
Defined.

Lemma insert_after_last_with_hint_witness :
  (∀ a b c, (a <? b) = true → (b <? c) = true → (a <? c) = true)
  ∧ (∀ a, (a <? a) = false)
  ∧ Full Scenario.t7 Scenario.tr7 ∧ rbt Scenario.tr7
  ∧ ordered Z.ltb Scenario.tr7
  ∧ get_max_value_node Scenario.fuel Scenario.t7 = Some 8%N
  ∧ value (node_at Scenario.t7 8) = Some 20 ∧ (20 <? 25) = true
  ∧ _size Scenario.t7 + 1 < size_max
  ∧ (tsize Scenario.tr7 + 2 ≤ Scenario.fuel)%nat
  ∧ ∃ st' new t', insert Z.ltb Scenario.fuel Scenario.t7 25 8
                  = Some (st', (new, true))
      ∧ Full st' t' ∧ rbt t' ∧ ordered Z.ltb t'
      ∧ items t' = items Scenario.tr7 ++ [(new, 25)]
      ∧ get_max_value_node Scenario.fuel st' = Some new.
Proof.
  assert (get_max_value_node Scenario.fuel Scenario.t7 = Some 8%N) as H6
    by (vm_compute; reflexivity).
  assert (value (node_at Scenario.t7 8) = Some 20) as H7
    by (vm_compute; reflexivity).
  assert ((20 <? 25) = true) as H8 by reflexivity.
  assert (_size Scenario.t7 + 1 < size_max) as H9 by (vm_compute; reflexivity).
  assert (tsize Scenario.tr7 + 2 ≤ Scenario.fuel)%nat as H10 by (vm_compute; lia).
  split; [exact ltb_trans|]. split; [exact ltb_irrefl|]. split; [exact Full_t7|].
  split; [exact rbt_tr7|]. split; [exact ordered_tr7|]. split; [exact H6|].
  split; [exact H7|]. split; [exact H8|]. split; [exact H9|].
  split; [exact H10|].
  exact (insert_after_last_with_hint Z.ltb Scenario.t7 Scenario.tr7 25 20 8
           Scenario.fuel ltb_trans ltb_irrefl Full_t7 rbt_tr7 ordered_tr7
           H6 H7 H8 H9 H10).
Defined.

Lemma insert_before_first_with_hint_witness :
  (∀ a b c, (a <? b) = true → (b <? c) = true → (a <? c) = true)
  ∧ (∀ a, (a <? a) = false)
  ∧ Full Scenario.t7 Scenario.tr7 ∧ rbt Scenario.tr7
  ∧ ordered Z.ltb Scenario.tr7
  ∧ get_begin Scenario.fuel Scenario.t7 = Some 5%N
  ∧ value (node_at Scenario.t7 5) = Some 3 ∧ (1 <? 3) = true
  ∧ _size Scenario.t7 + 1 < size_max
  ∧ (tsize Scenario.tr7 + 2 ≤ Scenario.fuel)%nat
  ∧ ∃ st' new t', insert Z.ltb Scenario.fuel Scenario.t7 1 5
                  = Some (st', (new, true))
      ∧ Full st' t' ∧ rbt t' ∧ ordered Z.ltb t'
      ∧ items t' = (new, 1) :: items Scenario.tr7
      ∧ get_begin Scenario.fuel st' = Some new.
Proof.
  assert (get_begin Scenario.fuel Scenario.t7 = Some 5%N) as H6
    by (vm_compute; reflexivity).
  assert (value (node_at Scenario.t7 5) = Some 3) as H7
    by (vm_compute; reflexivity).
  assert ((1 <? 3) = true) as H8 by reflexivity.
  assert (_size Scenario.t7 + 1 < size_max) as H9 by (vm_compute; reflexivity).
  assert (tsize Scenario.tr7 + 2 ≤ Scenario.fuel)%nat as H10 by (vm_compute; lia).
  split; [exact ltb_trans|]. split; [exact ltb_irrefl|]. split; [exact Full_t7|].
  split; [exact rbt_tr7|]. split; [exact ordered_tr7|]. split; [exact H6|].
  split; [exact H7|]. split; [exact H8|]. split; [exact H9|].
  split; [exact H10|].
  exact (insert_before_first_with_hint Z.ltb Scenario.t7 Scenario.tr7 1 3 5
           Scenario.fuel ltb_trans ltb_irrefl Full_t7 rbt_tr7 ordered_tr7
           H6 H7 H8 H9 H10).
Defined.

Lemma find_takes_logarithmic_steps_witness :
  Full Scenario.t7 Scenario.tr7 ∧ rbt Scenario.tr7
  ∧ (2 * Nat.log2 (Z.to_nat (size Scenario.t7) + 1) < 7)%nat
  ∧ find Z.ltb 7 Scenario.t7 12
    = Some (descent_end (_nil Scenario.t7) (descend Z.ltb 12 Scenario.tr7 [])).
Proof.
  assert (2 * Nat.log2 (Z.to_nat (size Scenario.t7) + 1) < 7)%nat as H3
    by (vm_compute; lia).
  split; [exact Full_t7|]. split; [exact rbt_tr7|]. split; [exact H3|].
  exact (find_takes_logarithmic_steps Z.ltb Scenario.t7 Scenario.tr7 12 7
           Full_t7 rbt_tr7 H3).
Defined.
